(** * resume-agent: the retrieval engine of [src/qaLib.ts] and the index
    build of [src/buildIndex.ts], embedded in Rocq.

    Conventions of the embedding.
    - A JavaScript [number] that holds a measurement (a vector component, a
      score) is a binary64 float: Rocq's primitive [float], whose operations
      are the IEEE 754 ones JavaScript uses.  A record [id] is an integer [Z];
      a result count [k] and a string length are [nat].
    - A JavaScript string is a [string], a sequence of code units below 256;
      [toLowerCase] and [trim] are the built-ins restricted to such strings.
    - The file system, [JSON.parse], the embeddings endpoint, the text
      splitter and the text extractors are collaborators: they are the fields
      of a [World] and of [Extractors].  Effectful functions run in the monad
      [M], which threads the log of the effects performed and stops at the
      first exception. *)

From Stdlib Require Import List String Ascii ZArith Arith Bool Lia Floats.
From Stdlib Require Import Permutation DecimalString.
Import ListNotations.

#[local] Set Warnings "-inexact-float,-register-all".
#[local] Open Scope string_scope.
#[local] Open Scope list_scope.
#[local] Open Scope nat_scope.

(** ** Strings *)

Module Str.

(** [String.prototype.toLowerCase] on one 8-bit code unit: the letters
    [A..Z], and the Latin-1 capitals U+00C0..U+00DE but the multiplication
    sign U+00D7, move 32 places up. *)
Definition lowerChar (c : ascii) : ascii :=
  let n := nat_of_ascii c in
  if ((65 <=? n) && (n <=? 90))
     || ((192 <=? n) && (n <=? 222) && negb (n =? 215))
  then ascii_of_nat (n + 32) else c.

Fixpoint toLowerCase (s : string) : string :=
  match s with
  | EmptyString => EmptyString
  | String c s' => String (lowerChar c) (toLowerCase s')
  end.

(** [s.startsWith(t)]. *)
Fixpoint startsWith (s t : string) {struct t} : bool :=
  match t with
  | EmptyString => true
  | String b t' =>
      match s with
      | EmptyString => false
      | String a s' => Ascii.eqb a b && startsWith s' t'
      end
  end.

(** [s.includes(t)]: [t] occurs in [s] at some position. *)
Fixpoint includes (s t : string) : bool :=
  startsWith s t ||
  match s with
  | EmptyString => false
  | String _ s' => includes s' t
  end.

(** White space as [String.prototype.trim] sees it, among 8-bit code units:
    TAB, LF, VT, FF, CR, SP and NBSP. *)
Definition isWhite (c : ascii) : bool :=
  let n := nat_of_ascii c in
  ((9 <=? n) && (n <=? 13)) || (n =? 32) || (n =? 160).

Fixpoint trimStart (s : string) : string :=
  match s with
  | EmptyString => EmptyString
  | String c s' => if isWhite c then trimStart s' else s
  end.

Definition isEmpty (s : string) : bool :=
  match s with EmptyString => true | String _ _ => false end.

Fixpoint trimEnd (s : string) : string :=
  match s with
  | EmptyString => EmptyString
  | String c s' =>
      let r := trimEnd s' in
      if isWhite c && isEmpty r then EmptyString else String c r
  end.

Definition trim (s : string) : string := trimEnd (trimStart s).

(** [arr.join(sep)]. *)
Fixpoint join (sep : string) (l : list string) : string :=
  match l with
  | [] => EmptyString
  | [x] => x
  | x :: l' => x ++ sep ++ join sep l'
  end.

(** Decimal rendering of a natural number, as a template literal does. *)
Definition ofNat (n : nat) : string := NilEmpty.string_of_uint (Nat.to_uint n).

Definition nl : string := String (ascii_of_nat 10) EmptyString.

End Str.

(** ** Vectors of numbers *)

Module Vec.

#[local] Open Scope float_scope.

Definition vec := list float.

(** JavaScript falsiness of a number: [+0], [-0] and [NaN]. *)
Definition falsy (x : float) : bool := is_zero x || is_nan x.

(** [x || d] on numbers. *)
Definition orElse (x d : float) : float := if falsy x then d else x.

(** [vec.reduce((s, v) => s + v * v, 0)]. *)
Definition sumSquares (v : vec) : float :=
  fold_left (fun s x => s + x * x) v 0.

(** qaLib.ts 273-276 and buildIndex.ts 83-86 (the same function twice):
<<
  const n = Math.sqrt(vec.reduce((s, v) => s + v * v, 0)) || 1e-12;
  return vec.map((v) => v / n);
>> *)
Definition normalize (v : vec) : vec :=
  let n := orElse (sqrt (sumSquares v)) 1e-12 in
  map (fun x => x / n) v.

(** The loop of [cosine]: [b[i]] is [undefined] past the end of [b], and
    arithmetic on [undefined] gives [NaN]. *)
Fixpoint cosineLoop (a b : vec) (dot na nb : float) : float * float * float :=
  match a with
  | [] => (dot, na, nb)
  | x :: a' =>
      let y := match b with [] => nan | y :: _ => y end in
      cosineLoop a' (tl b) (dot + x * y) (na + x * x) (nb + y * y)
  end.

(** qaLib.ts 261-271. *)
Definition cosine (a b : vec) : float :=
  let '(dot, na, nb) := cosineLoop a b 0 0 0 in
  dot / (sqrt na * sqrt nb + 1e-12).

(** The Euclidean norm, and [Math.max] ([NaN] if either argument is). *)
Definition euclid (v : vec) : float := sqrt (sumSquares v).

Definition fmax (a b : float) : float :=
  if is_nan a || is_nan b then nan else if a <? b then b else a.

(** The normalization as the specification words it:
    [v / max(||v||, 1e-12)]. *)
Definition normalize_spec (v : vec) : vec :=
  map (fun x => x / fmax (euclid v) 1e-12) v.

End Vec.

(** ** Data model *)

Inductive Domain := Resume | Personal.

Definition Domain_eqb (a b : Domain) : bool :=
  match a, b with
  | Resume, Resume | Personal, Personal => true
  | _, _ => false
  end.

(** [RecordT]: a chunk record as read back from the index artifact; the
    [domain] field is optional there. *)
Record RecordT := mkRecord {
  id : Z;
  text : string;
  source : string;
  domain : option Domain;
  embedding : Vec.vec
}.

(** [RetrieveOptions]. *)
Record RetrieveOptions := mkOpts {
  domainFilter : option Domain;
  ensureTerms : option (list string)
}.

Definition noOpts : RetrieveOptions := mkOpts None None.

(** [RecordT & { score: number }] and [RecordT & { score; cid }]. *)
Record Scored := mkScored { rec : RecordT; score : float }.
Record Cited := mkCited { scored : Scored; cid : string }.

(** [r.domain || "resume"]. *)
Definition domainOrResume (r : RecordT) : Domain :=
  match domain r with Some d => d | None => Resume end.

(** ** [Array.prototype.sort] with a comparison function

    The comparison function returns a number [v]; [NaN] counts as [+0], and
    the first argument is placed before the second when [v < 0].  The sort is
    stable (ECMAScript 2019): for a consistent comparison function the result
    is the one permutation that is ordered and keeps tied elements in their
    original order ([stable_order_unique] below), which insertion from the
    right computes.  For an inconsistent one (here: when a score is [NaN])
    ECMAScript leaves the order to the engine, and [sortBy] then returns one
    of the permutations an engine may return, not necessarily the one of a
    given engine: what is proved of the order of a sorted list assumes
    [consistentOn], and what is proved without it does not depend on which
    permutation the sort returns. *)

Section Sort.
Context {A : Type}.
Variable compareFn : A -> A -> float.

(** [a] must come strictly before [b]. *)
Definition before (a b : A) : bool := (compareFn a b <? 0)%float.

Fixpoint insertSorted (x : A) (l : list A) : list A :=
  match l with
  | [] => [x]
  | y :: l' => if before y x then y :: insertSorted x l' else x :: l
  end.

Fixpoint sortBy (l : list A) : list A :=
  match l with
  | [] => []
  | x :: l' => insertSorted x (sortBy l')
  end.

(** The comparison function is consistent on [l]: [before] is asymmetric
    and its complement is transitive there (a strict weak order). *)
Definition consistentOn (l : list A) : bool :=
  forallb (fun a => forallb (fun b =>
    implb (before a b) (negb (before b a)) &&
    forallb (fun c =>
      implb (negb (before a b) && negb (before b c)) (negb (before a c))) l)
    l) l.

(** Neither element must come before the other. *)
Definition tied (a b : A) : bool := negb (before a b) && negb (before b a).

(** No later element must come before an earlier one. *)
Definition ordered (l : list A) : Prop :=
  ForallOrdPairs (fun a b => before b a = false) l.
End Sort.

(** ** The ranking stage of [retrieveInternal] (qaLib.ts 367-392) *)

(** [(a, b) => b.score - a.score]. *)
Definition byScoreDesc (a b : Scored) : float := (score b - score a)%float.

(** [seen.has(x)] for a [Set<number>] kept as the list of its elements. *)
Definition has (seen : list Z) (x : Z) : bool := existsb (Z.eqb x) seen.

(** Lines 369-373: score every candidate against the normalized query, then
    sort by score, highest first. *)
Definition scoreAll (qnorm : Vec.vec) (filtered : list RecordT) : list Scored :=
  map (fun r => mkScored r (Vec.cosine qnorm (embedding r))) filtered.

Definition scoredSorted (qnorm : Vec.vec) (filtered : list RecordT) : list Scored :=
  sortBy byScoreDesc (scoreAll qnorm filtered).

(** Line 375: [(opts.ensureTerms || []).map((t) => t.toLowerCase())]. *)
Definition foldedTerms (terms : option (list string)) : list string :=
  map Str.toLowerCase (match terms with Some ts => ts | None => [] end).

(** Lines 378-380: [ensure.some((t) => r.text.toLowerCase().includes(t))]. *)
Definition matchesAny (ensure : list string) (r : Scored) : bool :=
  existsb (fun t => Str.includes (Str.toLowerCase (text (rec r))) t) ensure.

(** Lines 381-386: the filter with the mutable [seen] set; the first record
    of each id is kept. *)
Fixpoint dedupById (seen : list Z) (ms : list Scored) : list Scored :=
  match ms with
  | [] => []
  | m :: ms' =>
      if has seen (id (rec m)) then dedupById seen ms'
      else m :: dedupById (id (rec m) :: seen) ms'
  end.

(** Lines 376-387. *)
Definition ensuredOf (ensure : list string) (sorted : list Scored) : list Scored :=
  if 0 <? List.length ensure
  then dedupById [] (filter (matchesAny ensure) sorted)
  else [].

(** Lines 389-390. *)
Definition restOf (ensured sorted : list Scored) : list Scored :=
  let seen := map (fun e => id (rec e)) ensured in
  filter (fun r => negb (has seen (id (rec r)))) sorted.

(** Line 392: [final.map((r, i) => ({ ...r, cid: `C${i + 1}` }))]. *)
Fixpoint citeFrom (i : nat) (final : list Scored) : list Cited :=
  match final with
  | [] => []
  | r :: final' => mkCited r ("C" ++ Str.ofNat (i + 1)) :: citeFrom (S i) final'
  end.

(** Lines 375-392 on an already sorted list. *)
Definition compose (sorted : list Scored) (k : nat) (terms : option (list string))
  : list Cited :=
  let ensure := foldedTerms terms in
  let ensured := ensuredOf ensure sorted in
  let rest := restOf ensured sorted in
  let final := firstn k (ensured ++ rest) in
  citeFrom 0 final.

(** Lines 367-392: from the raw query embedding [q] and the non-empty
    filtered candidates to the cited results. *)
Definition rank (q : Vec.vec) (filtered : list RecordT) (k : nat)
  (terms : option (list string)) : list Cited :=
  let qnorm := Vec.normalize q in
  compose (scoredSorted qnorm filtered) k terms.

(** ** The alternative of the specification's open question

    Matching scans the candidates in index order (before the sort) instead of
    the sorted list; everything else is as in [compose]. *)
Definition compose_unsortedScan (unsorted : list Scored) (k : nat)
  (terms : option (list string)) : list Cited :=
  let sorted := sortBy byScoreDesc unsorted in
  let ensure := foldedTerms terms in
  let ensured := ensuredOf ensure unsorted in
  let rest := restOf ensured sorted in
  citeFrom 0 (firstn k (ensured ++ rest)).

(** The same alternative when it then orders its matches by score with the
    same stable sort. *)
Definition compose_scanThenSort (unsorted : list Scored) (k : nat)
  (terms : option (list string)) : list Cited :=
  let sorted := sortBy byScoreDesc unsorted in
  let ensure := foldedTerms terms in
  let ensured :=
    if 0 <? List.length ensure
    then dedupById [] (sortBy byScoreDesc (filter (matchesAny ensure) unsorted))
    else [] in
  let rest := restOf ensured sorted in
  citeFrom 0 (firstn k (ensured ++ rest)).

(** ** Question router (qaLib.ts 293-350) *)

(** [Domain | "both" | "unknown"]. *)
Inductive DomainHint := Only (d : Domain) | Both | Unknown.

(** Lines 293-300 (the copy that [answer] of lines 420-462 calls). *)
Definition ensureTermsForQuestion (q : string) : list string :=
  let s := Str.toLowerCase q in
  if Str.includes s "fynd" then ["ratl.ai"; "about ratl.ai"] else [].

Definition personalKeys : list string :=
  [ "hobby"; "hobbies"; "interest"; "interests"; "free time"; "outside work";
    "outside of work"; "weekend"; "leisure"; "music"; "books"; "reading";
    "travel"; "sports"; "volunteer"; "volunteering"; "hike"; "gaming";
    "family"; "pets"; "art"; "photography" ].

Definition resumeKeys : list string :=
  [ "resume"; "cv"; "experience"; "work"; "role"; "title"; "employer";
    "company"; "education"; "skill"; "project"; "years"; "responsibil";
    "achievement" ].

(** [keys.some((k) => s.includes(k))]. *)
Definition someIncluded (keys : list string) (s : string) : bool :=
  existsb (fun k => Str.includes s k) keys.

(** Lines 302-350. *)
Definition classifyQuestion (q : string) : DomainHint :=
  let s := Str.toLowerCase q in
  let isPersonal := someIncluded personalKeys s in
  let isResume := someIncluded resumeKeys s in
  if isPersonal && isResume then Both
  else if isPersonal then Only Personal
  else if isResume then Only Resume
  else Unknown.

(** ** The index build's records (buildIndex.ts 146-152)

    A record as [buildIndex] writes it: [domain] is always present, and
    [embedding] is [embeddings[i]], which is [undefined] when the endpoint
    returned fewer vectors than texts. *)
Module Built.
Record t := mk {
  id : nat;
  text : string;
  source : string;
  domain : Domain;
  embedding : option Vec.vec
}.
End Built.

(** A loaded document: [{ text, source, domain }]. *)
Record Doc := mkDoc {
  docText : string;
  docSource : string;
  docDomain : Domain
}.

(** ** Collaborators and effects *)

(** What [JSON.parse] returns for the index artifact: an array of records,
    or some other value. *)
Inductive Json := JArray (items : list RecordT) | JOther.

Record World := mkWorld {
  (** [process.cwd()] *)
  cwd : string;
  (** the file system: the content of each path, [None] where there is no file *)
  files : string -> option string;
  (** [JSON.parse]; [None] when it throws *)
  jsonParse : string -> option Json;
  (** [client.embeddings.create]: one vector per [data] entry; [None] when the
      request fails *)
  embeddingsCreate : list string -> option (list Vec.vec);
  (** [client.chat.completions.create] on the system and user messages: the
      first choice's content if any; [None] when the request fails *)
  chatCreate : string -> string -> option (option string);
  (** [RecursiveCharacterTextSplitter.splitText] with the build's settings *)
  splitText : string -> list string;
  (** whether [writeFile] can create the file at a path: [false] when it
      throws, as it does when the directory of the path is missing *)
  writable : string -> bool;
  (** [process.env.OPENAI_API_KEY] is set *)
  apiKeySet : bool
}.

Inductive Event :=
| EvRead (path : string)
| EvEmbed (input : list string)
| EvChat (system user : string)
| EvWrite (path : string) (records : list Built.t).

Inductive Outcome (A : Type) :=
| Ok (a : A)
| Throw (msg : string).
Arguments Ok {A} a.
Arguments Throw {A} msg.

(** A computation takes the log of the effects so far and returns its outcome
    with the log extended, oldest event first. *)
Definition M (A : Type) : Type := list Event -> Outcome A * list Event.

Definition ret {A} (a : A) : M A := fun log => (Ok a, log).
Definition throw {A} (msg : string) : M A := fun log => (Throw msg, log).
Definition emit (e : Event) : M unit := fun log => (Ok tt, log ++ [e]).
Definition bind {A B} (c : M A) (k : A -> M B) : M B :=
  fun log =>
    match c log with
    | (Ok a, log') => k a log'
    | (Throw msg, log') => (Throw msg, log')
    end.

Notation "x <- c ;; k" := (bind c (fun x => k))
  (at level 61, c at next level, right associativity).
Notation "c ;;; k" := (bind c (fun _ => k))
  (at level 61, right associativity).

(** An oracle's answer, [None] being an exception. *)
Definition orThrow {A} (msg : string) (o : option A) : M A :=
  match o with Some a => ret a | None => throw msg end.

(** [s || ""] for a string that may be undefined. *)
Definition orEmpty (o : option string) : string :=
  match o with Some s => s | None => EmptyString end.

(** ** Index store (qaLib.ts 232-241, 278-291) *)

Definition KNOWLEDGE_PATH (w : World) : string :=
  cwd w ++ "/index/knowledge.index.json".
Definition FALLBACK_RESUME_PATH (w : World) : string :=
  cwd w ++ "/index/resume.index.json".

Definition existsSync (w : World) (p : string) : bool :=
  match files w p with Some _ => true | None => false end.

(** [readFile(p, "utf8")]: throws when there is no file. *)
Definition readFile (w : World) (p : string) : M string :=
  emit (EvRead p) ;;; orThrow "ENOENT: no such file or directory" (files w p).

(** Lines 278-281. *)
Definition resolveIndexPath (w : World) : string :=
  if existsSync w (KNOWLEDGE_PATH w) then KNOWLEDGE_PATH w
  else FALLBACK_RESUME_PATH w.

(** Lines 283-291. *)
Definition loadIndex (w : World) : M (list RecordT) :=
  let pathToUse := resolveIndexPath w in
  raw <- readFile w pathToUse ;;
  payload <- orThrow "SyntaxError" (jsonParse w raw) ;;
  match payload with
  | JArray items =>
      if List.length items =? 0
      then throw "Index is empty. Run: npm run index:build"
      else ret items
  | JOther => throw "Index is empty. Run: npm run index:build"
  end.

(** ** Retriever (qaLib.ts 352-393) *)

(** Lines 358-360. *)
Definition applyFilter (opts : RetrieveOptions) (payload : list RecordT)
  : list RecordT :=
  match domainFilter opts with
  | Some d => filter (fun r => Domain_eqb (domainOrResume r) d) payload
  | None => payload
  end.

(** Lines 364-366: the embedding of the query is [data[0].embedding]. *)
Definition embedQuery (w : World) (query : string) : M Vec.vec :=
  emit (EvEmbed [query]) ;;;
  data <- orThrow "embeddings request failed" (embeddingsCreate w [query]) ;;
  match data with
  | q :: _ => ret q
  | [] => throw "TypeError: cannot read properties of undefined"
  end.

Definition retrieveInternal (w : World) (query : string) (k : nat)
  (opts : RetrieveOptions) : M (list Cited) :=
  payload <- loadIndex w ;;
  let filtered := applyFilter opts payload in
  if List.length filtered =? 0 then ret []
  else
    q <- embedQuery w query ;;
    ret (rank q filtered k (ensureTerms opts)).

(** ** Answer orchestration (qaLib.ts 420-462) *)

(** Lines 421-435: the retrieval stage of [answer]. *)
Definition answerTop (w : World) (question : string) (k : nat) : M (list Cited) :=
  let domainHint := classifyQuestion question in
  let ensure := ensureTermsForQuestion question in
  if 0 <? List.length ensure then
    retrieveInternal w question k (mkOpts None (Some ensure))
  else
    match domainHint with
    | Only Personal =>
        top <- retrieveInternal w question k (mkOpts (Some Personal) None) ;;
        if List.length top =? 0 then retrieveInternal w question k noOpts
        else ret top
    | Only Resume => retrieveInternal w question k (mkOpts (Some Resume) None)
    | _ => retrieveInternal w question k noOpts
    end.

Definition systemPrompt : string :=
  "You are a concise, highly professional assistant for answering questions about the user." ++ Str.nl ++
  "- Use ONLY the provided context for any facts about the user. If information is missing or ambiguous, say so and ask a clarifying question." ++ Str.nl ++
  "- Write in a formal, clear tone. Return at most two bullet points, each one sentence." ++ Str.nl ++
  "- Do NOT include citations or bracketed IDs in the output." ++ Str.nl ++
  "- Do NOT invent dates, titles, employers, or personal details. If unsure, request clarification." ++ Str.nl.

Definition userPrompt (contextBlock question : string) : string :=
  "Context (snippets):" ++ Str.nl ++ Str.nl ++ contextBlock ++ Str.nl ++ Str.nl ++
  "User question: " ++ question ++ Str.nl ++ Str.nl ++
  "Instructions:" ++ Str.nl ++
  "- Answer using only the context for user-specific facts." ++ Str.nl ++
  "- Do not include citations in the answer." ++ Str.nl ++
  "- If the context does not contain the requested fact, say so and ask for the missing detail." ++ Str.nl ++
  "- Limit the answer to at most two bullet points, each one sentence." ++ Str.nl.

(** Lines 420-462; the result is [{ output }]. *)
Definition answer (w : World) (question : string) (k : nat) : M string :=
  top <- answerTop w question k ;;
  let contextBlock :=
    Str.join (Str.nl ++ Str.nl ++ "---" ++ Str.nl ++ Str.nl)
             (map (fun t => text (rec (scored t))) top) in
  let user := userPrompt contextBlock question in
  emit (EvChat systemPrompt user) ;;;
  content <- orThrow "chat request failed" (chatCreate w systemPrompt user) ;;
  ret (match content with Some s => s | None => "" end).

(** ** Document loading (buildIndex.ts 12-71) *)

(** [path.basename] and [path.extname] of Node on POSIX paths. *)
Module Path.

Definition isSlash (c : ascii) : bool := Ascii.eqb c "/".
Definition isDot (c : ascii) : bool := Ascii.eqb c ".".

(** The last non-empty segment of the path (trailing slashes are skipped),
    with whether a character put in front would extend it. *)
Fixpoint lastSegment (p : string) : string * bool :=
  match p with
  | EmptyString => (EmptyString, true)
  | String c p' =>
      let '(b, open) := lastSegment p' in
      if isSlash c then (if Str.isEmpty b then (EmptyString, true) else (b, false))
      else if open then (String c b, true) else (b, false)
  end.

Definition basename (p : string) : string := fst (lastSegment p).

(** The part of [b] from its last dot on, if it has a dot. *)
Fixpoint fromLastDot (b : string) : option string :=
  match b with
  | EmptyString => None
  | String c b' =>
      match fromLastDot b' with
      | Some e => Some e
      | None => if isDot c then Some b else None
      end
  end.

(** The extension: empty when the base name has no dot, when its only dot
    is its first character, and for the name [..]. *)
Definition extname (p : string) : string :=
  let b := basename p in
  match fromLastDot b with
  | None => EmptyString
  | Some e =>
      if String.eqb e b || String.eqb b ".." then EmptyString else e
  end.

End Path.

(** The text extractors: [pdfParse] gives [parsed.text] and
    [mammoth.extractRawText] gives [res.value], either possibly undefined;
    [None] when the extractor throws. *)
Record Extractors := mkExtractors {
  pdfParse : string -> option (option string);
  extractRawText : string -> option (option string)
}.

Definition DATA_DIR (w : World) : string := (cwd w ++ "/data")%string.

(** Lines 26-40. *)
Definition readTextFromPath (w : World) (x : Extractors) (p : string) : M string :=
  let ext := Str.toLowerCase (Path.extname p) in
  if String.eqb ext ".pdf" then
    buf <- readFile w p ;;
    parsed <- orThrow "pdf-parse failed" (pdfParse x buf) ;;
    ret (orEmpty parsed)
  else if String.eqb ext ".docx" then
    buf <- readFile w p ;;
    res <- orThrow "mammoth failed" (extractRawText x buf) ;;
    ret (orEmpty res)
  else if String.eqb ext ".md" || String.eqb ext ".txt" then
    readFile w p
  else throw ("Unsupported file type: " ++ ext)%string.

Definition bases : list (string * Domain) :=
  [ ("resume", Resume); ("profile", Personal); ("personal", Personal);
    ("about", Personal); ("bio", Personal); ("interests", Personal) ].

Definition exts : list string := [".pdf"; ".docx"; ".md"; ".txt"].

(** [path.join(DATA_DIR, `${base}${ext}`)]. *)
Definition dataPath (w : World) (base ext : string) : string :=
  (DATA_DIR w ++ "/" ++ base ++ ext)%string.

(** Lines 57-63: the inner loop; the first extension whose file exists. *)
Fixpoint firstExisting (w : World) (base : string) (es : list string)
  : option string :=
  match es with
  | [] => None
  | e :: es' =>
      if existsSync w (dataPath w base e) then Some e
      else firstExisting w base es'
  end.

(** Lines 56-64: the outer loop over the bases still to visit. *)
Fixpoint loadBases (w : World) (x : Extractors) (bs : list (string * Domain))
  (docs : list Doc) : M (list Doc) :=
  match bs with
  | [] => ret docs
  | (base, dom) :: bs' =>
      match firstExisting w base exts with
      | None => loadBases w x bs' docs
      | Some e =>
          let p := dataPath w base e in
          t <- readTextFromPath w x p ;;
          loadBases w x bs' (docs ++ [mkDoc t (Path.basename p) dom])
      end
  end.

(** The message of lines 66-68. *)
Definition NO_DOCUMENTS : string :=
  "Place files under data/: resume.(pdf|docx|md|txt) and optionally profile|personal|about|bio|interests with supported extensions.".

(** Lines 42-71. *)
Definition loadDocuments (w : World) (x : Extractors) : M (list Doc) :=
  docs <- loadBases w x bases [] ;;
  if List.length docs =? 0 then throw NO_DOCUMENTS else ret docs.

(** ** Index build (buildIndex.ts 73-160) *)

(** Lines 73-81: split, trim every piece, keep those longer than 50. *)
Definition chunkText (w : World) (text : string) : list string :=
  filter (fun c => 50 <? String.length c) (map Str.trim (splitText w text)).

(** Lines 88-94. *)
Definition embedBatch (w : World) (texts : list string) : M (list Vec.vec) :=
  emit (EvEmbed texts) ;;;
  data <- orThrow "embeddings request failed" (embeddingsCreate w texts) ;;
  ret (map Vec.normalize data).

(** [arr.slice(i, j)] for [0 <= i <= j]. *)
Definition slice {A} (i j : nat) (l : list A) : list A := firstn (j - i) (skipn i l).

Definition BATCH : nat := 64.

(** Lines 132-141: [for (let i = 0; i < chunkTexts.length; i += BATCH)], run
    for its [iters] remaining iterations from index [i]. *)
Fixpoint embedLoop (w : World) (iters i : nat) (chunkTexts : list string)
  (embeddings : list Vec.vec) : M (list Vec.vec) :=
  match iters with
  | 0 => ret embeddings
  | S iters' =>
      let batch := slice i (i + BATCH) chunkTexts in
      vecs <- embedBatch w batch ;;
      embedLoop w iters' (i + BATCH) chunkTexts (embeddings ++ vecs)
  end.

(** Lines 113-122: [chunkTexts] and [metas] are filled in step, so they are
    kept here as one list of pairs. *)
Definition chunkDocs (w : World) (docs : list Doc)
  : list (string * (string * Domain)) :=
  flat_map (fun d =>
    map (fun ch => (ch, (docSource d, docDomain d))) (chunkText w (docText d)))
    docs.

(** Lines 146-152. *)
Fixpoint recordsFrom (i : nat) (chunks : list (string * (string * Domain)))
  (embeddings : list Vec.vec) : list Built.t :=
  match chunks with
  | [] => []
  | (ch, (src, dom)) :: chunks' =>
      Built.mk i ch src dom (nth_error embeddings i)
      :: recordsFrom (S i) chunks' embeddings
  end.

(** [writeFile(p, JSON.stringify(records, null, 2), "utf8")]: throws when
    the file cannot be created; nothing is written then. *)
Definition writeFile (w : World) (p : string) (records : list Built.t) : M unit :=
  if writable w p then emit (EvWrite p records)
  else throw "ENOENT: no such file or directory".

(** Lines 96-160.  The directory [index/] is not created: the write is to a
    path in it as it is. *)
Definition buildIndex (w : World) (x : Extractors) : M unit :=
  if negb (apiKeySet w) then
    throw "OPENAI_API_KEY not set. Create .env from .env.example"
  else
    docs <- loadDocuments w x ;;
    let chunks := chunkDocs w docs in
    let chunkTexts := map fst chunks in
    embeddings <-
      embedLoop w ((List.length chunkTexts + (BATCH - 1)) / BATCH) 0 chunkTexts [] ;;
    let records := recordsFrom 0 chunks embeddings in
    writeFile w (cwd w ++ "/index/knowledge.index.json") records.

(** What the build guarantees of a record's text: nothing left to trim, and
    more than 50 characters. *)
Definition chunkOk (r : Built.t) : Prop :=
  Str.trim (Built.text r) = Built.text r /\ 50 < String.length (Built.text r).

(** ** Auxiliary notions for the statements *)

(** [l1] is [l2] with some elements left out, the order kept. *)
Inductive Subseq {A : Type} : list A -> list A -> Prop :=
| Subseq_nil : Subseq [] []
| Subseq_skip x l1 l2 : Subseq l1 l2 -> Subseq l1 (x :: l2)
| Subseq_keep x l1 l2 : Subseq l1 l2 -> Subseq (x :: l1) (x :: l2).

(** [a] occurs in [l] at a position before an occurrence of [b]. *)
Definition precedes {A : Type} (a b : A) (l : list A) : Prop :=
  exists m1 m2 m3, l = m1 ++ a :: m2 ++ b :: m3.

Definition idOf (r : Scored) : Z := id (rec r).

(** The first element of [l] carrying the id of [e]. *)
Definition firstWithId (e : Scored) (l : list Scored) : option Scored :=
  find (fun x => Z.eqb (idOf x) (idOf e)) l.

(** Two result lists return the same records. *)
Definition sameRecords (a b : list Cited) : Prop :=
  forall x, In x (map scored a) <-> In x (map scored b).

(** The citation ids [C1..Cn]. *)
Definition citations (n : nat) : list string :=
  map (fun i => ("C" ++ Str.ofNat i)%string) (seq 1 n).

(** The alternatives of the open question on the retrieval's inputs. *)
Definition rank_unsortedScan (q : Vec.vec) (filtered : list RecordT) (k : nat)
  (terms : option (list string)) : list Cited :=
  compose_unsortedScan (scoreAll (Vec.normalize q) filtered) k terms.

Definition rank_scanThenSort (q : Vec.vec) (filtered : list RecordT) (k : nat)
  (terms : option (list string)) : list Cited :=
  compose_scanThenSort (scoreAll (Vec.normalize q) filtered) k terms.

(** The events other than a write of the index. *)
Definition notWrite (e : Event) : Prop :=
  match e with EvWrite _ _ => False | _ => True end.

(** The file in the data directory that carries the name of a document. *)
Definition docPath (w : World) (d : Doc) : string :=
  (DATA_DIR w ++ "/" ++ docSource d)%string.

(** ** Sample data: the scenario of the specification

    Two records: a resume chunk that scores high against the query and does
    not mention ratl.ai, and a personal chunk that scores low and does. *)
Module Sample.

Definition recFynd : RecordT :=
  mkRecord 0 "Worked at Fynd as engineer, building storefront services."
           "resume.md" (Some Resume) [1; 0]%float.

Definition recRatl : RecordT :=
  mkRecord 1 "About ratl.ai: ratl.ai is a company building test automation."
           "about.md" (Some Personal) [0; 1]%float.

(** A record of a legacy index: no [domain] field. *)
Definition recLegacy : RecordT :=
  mkRecord 2 "Led the migration of the checkout service to event sourcing."
           "resume.md" None [0.6; 0.8]%float.

Definition index : list RecordT := [recFynd; recRatl].

Definition query : Vec.vec := [2; 0]%float.

Definition question : string := "What do you work on at Fynd?".

(** An index without personal records, and one with two records that score
    the same against [query]. *)
Definition resumeIndex : list RecordT := [recFynd; recLegacy].

Definition recTwin : RecordT :=
  mkRecord 3 "Maintained the storefront services and their deployment tooling."
           "resume.md" (Some Resume) [1; 0]%float.

Definition tiedIndex : list RecordT := [recRatl; recFynd; recLegacy; recTwin].

(** A second record that mentions ratl.ai, scoring high against [query]. *)
Definition recRunner : RecordT :=
  mkRecord 4 "Integrated the ratl.ai test runner into the storefront pipeline."
           "resume.md" (Some Resume) [1; 0]%float.

Definition ratlIndex : list RecordT := [recRatl; recRunner].

Definition doc : Doc :=
  mkDoc "  Led the migration of the checkout service to event sourcing.  "
        "resume.md" Resume.

(** A world with one index artifact, at [path], holding [idx], and one
    document, [data/resume.md]; its embeddings endpoint answers every text
    with [query], its splitter returns the text and one short piece, and
    every file can be written. *)
Definition worldAt (path : string) (idx : list RecordT) : World :=
  mkWorld "/srv/app"
    (fun p => if String.eqb p path then Some "[index]"
              else if String.eqb p "/srv/app/data/resume.md" then Some (docText doc)
              else None)
    (fun raw => if String.eqb raw "[index]" then Some (JArray idx) else None)
    (fun input => Some (map (fun _ => query) input))
    (fun _ _ => Some (Some "- Answer."))
    (fun t => [t; "  too short  "])
    (fun _ => true)
    true.

Definition worldOf : list RecordT -> World :=
  worldAt "/srv/app/index/knowledge.index.json".

Definition world : World := worldOf [recFynd; recRatl; recLegacy].
Definition resumeWorld : World := worldOf resumeIndex.

(** Only the legacy artifact is there; no artifact at all. *)
Definition legacyWorld : World :=
  worldAt "/srv/app/index/resume.index.json" resumeIndex.
Definition bareWorld : World := worldAt "/srv/app/README.md" [].

End Sample.

(** * The rest of the code *)

(** ** [retrieveChunks] and [indexInfo] (qaLib.ts 395-418) *)

(** A result of [retrieveChunks]: the [domain] is always given. *)
Module Chunk.
Record t := mk {
  id : Z;
  text : string;
  source : string;
  domain : Domain;
  score : float;
  cid : string
}.
End Chunk.

(** Lines 395-406; [r.domain ?? "resume"] is [domainOrResume]. *)
Definition retrieveChunks (w : World) (query : string) (k : nat)
  (domain : option Domain) : M (list Chunk.t) :=
  let opts := match domain with
              | Some d => mkOpts (Some d) None
              | None => noOpts
              end in
  results <- retrieveInternal w query k opts ;;
  ret (map (fun r =>
              Chunk.mk (id (rec (scored r))) (text (rec (scored r)))
                       (source (rec (scored r)))
                       (domainOrResume (rec (scored r)))
                       (score (scored r)) (cid r))
           results).

(** The object [byDomain]: a key is there once a record of the domain has
    been counted. *)
Record ByDomain := mkByDomain {
  resumeCount : option nat;
  personalCount : option nat
}.

(** [acc[d] || 0]. *)
Definition orZero (o : option nat) : nat :=
  match o with Some n => n | None => 0 end.

(** Lines 411-416: the reducer, [acc[d] = (acc[d] || 0) + 1]. *)
Definition countInto (acc : ByDomain) (r : RecordT) : ByDomain :=
  match domainOrResume r with
  | Resume => mkByDomain (Some (orZero (resumeCount acc) + 1)) (personalCount acc)
  | Personal => mkByDomain (resumeCount acc) (Some (orZero (personalCount acc) + 1))
  end.

(** Lines 408-418: [{ total, byDomain }]. *)
Definition indexInfo (w : World) : M (nat * ByDomain) :=
  idx <- loadIndex w ;;
  ret (List.length idx, fold_left countInto idx (mkByDomain None None)).

Definition countOf (d : Domain) (b : ByDomain) : option nat :=
  match d with Resume => resumeCount b | Personal => personalCount b end.

(** ** The command-line copy (qaLib.ts 463-719)

    Its [retrieve] (588-633) is [retrieveInternal] line for line, and the
    retrieval stage of its [answer] (659-674) is [answerTop]; what differs is
    the prompt, which carries citation tags, and the [used] list. *)

(** Lines 69-76, the first copy: one more ensure term. *)
Definition ensureTermsForQuestion_first (q : string) : list string :=
  let s := Str.toLowerCase q in
  if Str.includes s "fynd" then ["ratl.ai"; "about ratl.ai"; "ratl "] else [].

(** [{ cid, text }]. *)
Module Citation.
Record t := mk { cid : string; text : string }.
End Citation.

(** Lines 635-649. *)
Definition buildSystemPrompt (domainHint : DomainHint) : string :=
  let scope := match domainHint with
               | Only Personal => "personal profile"
               | Only Resume => "professional resume"
               | _ => "provided context"
               end in
  ("You are a concise, highly professional assistant for answering questions about the user based on their "
   ++ scope ++ "." ++ Str.nl ++
   "- Use ONLY the provided context for any facts about the user. If information is missing or ambiguous, say so and ask a clarifying question." ++ Str.nl ++
   "- Write in a formal, clear tone. Return at most two bullet points, each one sentence." ++ Str.nl ++
   "- Cite supporting snippets using bracketed citations like [C1], [C2], matching the provided context IDs." ++ Str.nl ++
   "- Do NOT invent dates, titles, employers, or personal details. If unsure, request clarification." ++ Str.nl)%string.

(** Lines 651-653: [`[${c.cid}] ${c.text}`], joined by an empty line. *)
Definition tagged (c : Citation.t) : string :=
  ("[" ++ Citation.cid c ++ "] " ++ Citation.text c)%string.

Definition formatContext (ctx : list Citation.t) : string :=
  Str.join (Str.nl ++ Str.nl)%string (map tagged ctx).

(** Line 681. *)
Definition citedUserPrompt (contextBlock question : string) : string :=
  ("Context (snippets):" ++ Str.nl ++ Str.nl ++ contextBlock ++ Str.nl ++ Str.nl ++
   "User question: " ++ question ++ Str.nl ++ Str.nl ++
   "Instructions:" ++ Str.nl ++
   "- Answer using only the context for user-specific facts." ++ Str.nl ++
   "- Include relevant citations [C#] after the sentences they support." ++ Str.nl ++
   "- If the context does not contain the requested fact, say so and ask for the missing detail." ++ Str.nl ++
   "- Limit the answer to at most two bullet points, each one sentence." ++ Str.nl)%string.

(** Lines 655-693: [answer] of the command-line copy, [{ output, used }]. *)
Definition answerCited (w : World) (question : string) (k : nat)
  : M (string * list Citation.t) :=
  let domainHint := classifyQuestion question in
  top <- answerTop w question k ;;
  let used := map (fun t => Citation.mk (cid t) (text (rec (scored t)))) top in
  let contextBlock := formatContext used in
  let user := citedUserPrompt contextBlock question in
  emit (EvChat (buildSystemPrompt domainHint) user) ;;;
  content <- orThrow "chat request failed"
               (chatCreate w (buildSystemPrompt domainHint) user) ;;
  ret (orEmpty content, used).

(** Line 712: the preview of a citation,
    [u.text.length > 200 ? u.text.slice(0, 200) + "..." : u.text]. *)
Definition preview (t : string) : string :=
  if 200 <? String.length t then (String.substring 0 200 t ++ "...")%string
  else t.

(** Lines 695-715: [main] on the command-line arguments; the value is the
    lines it prints, and the two ways it ends with exit code 1 (no key, no
    argument) are exceptions here; the usage line is written without its
    quotation marks. *)
Definition main (w : World) (args : list string) : M (list string) :=
  if negb (apiKeySet w) then
    throw "OPENAI_API_KEY not set. Create resume-agent-ts/.env from .env.example"
  else if List.length args =? 0 then
    throw "Usage: tsx src/qa.ts Your question here"
  else
    let question := Str.join " " args in
    r <- answerCited w question 5 ;;
    let '(output, used) := r in
    ret ([(Str.nl ++ "=== Answer ===")%string; Str.trim output;
          (Str.nl ++ "=== Citations Used ===")%string]
         ++ map (fun u => ("[" ++ Citation.cid u ++ "] "
                           ++ preview (Citation.text u))%string) used).

(** ** The HTTP surface (the server module, lines 47-96) *)

(** A parsed JSON value, as [req.body] holds one. *)
Inductive JsValue :=
| JsUndefined
| JsNull
| JsBool (b : bool)
| JsNumber (x : float)
| JsString (s : string)
| JsArray (items : list JsValue)
| JsObject (fields : list (string * JsValue)).

Definition truthy (v : JsValue) : bool :=
  match v with
  | JsUndefined | JsNull => false
  | JsBool b => b
  | JsNumber x => negb (Vec.falsy x)
  | JsString s => negb (Str.isEmpty s)
  | JsArray _ | JsObject _ => true
  end.

(** [typeof v === "string"]. *)
Definition isString (v : JsValue) : bool :=
  match v with JsString _ => true | _ => false end.

(** [v[key]] as the destructuring [const { key } = v] reads it: own fields
    of an object, [undefined] otherwise. *)
Fixpoint field (key : string) (fields : list (string * JsValue)) : JsValue :=
  match fields with
  | [] => JsUndefined
  | (k, v) :: fields' => if String.eqb k key then v else field key fields'
  end.

Definition getField (key : string) (v : JsValue) : JsValue :=
  match v with JsObject fields => field key fields | _ => JsUndefined end.

Inductive Reply :=
| ReplyError (error : string)
| ReplyAnswer (question answer : string).

Record Response := mkResponse { status : nat; reply : Reply }.

(** Lines 47-61: the [/chat] handler on the request body; [topK] is
    [TOP_K]. *)
Definition chatHandler (w : World) (topK : nat) (body : JsValue) : M Response :=
  let question := getField "question" (if truthy body then body else JsObject []) in
  if negb (truthy question) || negb (isString question) then
    ret (mkResponse 400 (ReplyError "question (string) is required"))
  else
    match question with
    | JsString q =>
        fun log =>
          match answer w q topK log with
          | (Ok output, log') => (Ok (mkResponse 200 (ReplyAnswer q output)), log')
          | (Throw msg, log') =>
              (Ok (mkResponse 500
                     (ReplyError (if Str.isEmpty msg then "Chat API failed" else msg))),
               log')
          end
    | _ => ret (mkResponse 400 (ReplyError "question (string) is required"))
    end.


(** ** Notions for the statements *)

(** The effects of a retrieval: reads of the index and embedding requests. *)
Definition readOrEmbed (e : Event) : Prop :=
  match e with EvRead _ | EvEmbed _ => True | _ => False end.

(** The batches the embedding loop cuts: [iters] slices of [BATCH] texts
    from index [i] on. *)
Fixpoint batchesFrom (iters i : nat) (chunkTexts : list string)
  : list (list string) :=
  match iters with
  | 0 => []
  | S iters' =>
      slice i (i + BATCH) chunkTexts :: batchesFrom iters' (i + BATCH) chunkTexts
  end.

(** The classifications ordered by the domains they name. *)
Definition hintLe (a b : DomainHint) : Prop :=
  match a, b with
  | Unknown, _ => True
  | _, Both => True
  | Only Resume, Only Resume => True
  | Only Personal, Only Personal => True
  | _, _ => False
  end.

(** ** More sample data *)
Module More.

(** The extractors: the one PDF can be parsed, no DOCX can. *)
Definition extractors : Extractors :=
  mkExtractors (fun buf => if String.eqb buf "%PDF" then Some (Some "Born in Pune.")
                           else None)
               (fun _ => None).

(** A world whose only document, [data/bio.txt], is too short to give a
    chunk. *)
Definition shortWorld : World :=
  mkWorld "/srv/app"
    (fun p => if String.eqb p "/srv/app/data/bio.txt" then Some "I like hiking."
              else None)
    (fun _ => None)
    (fun input => Some (map (fun _ => Sample.query) input))
    (fun _ _ => None)
    (fun t => [t])
    (fun _ => true)
    true.

(** The sample world with its embeddings endpoint down. *)
Definition offlineWorld : World :=
  mkWorld "/srv/app" (files Sample.world) (fun _ => None)
    (fun _ => None)
    (fun _ _ => None)
    (fun t => [t])
    (fun _ => true)
    true.

(** The sample world without its directory [index/]: no file can be created
    there. *)
Definition noIndexDirWorld : World :=
  mkWorld "/srv/app" (files Sample.world) (jsonParse Sample.world)
    (embeddingsCreate Sample.world) (chatCreate Sample.world)
    (splitText Sample.world)
    (fun _ => false)
    true.




End More.

(** * Properties *)

(** ** Strings *)

Lemma append_nil_r (s : string) : (s ++ "")%string = s.
Proof. induction s; simpl; congruence. Qed.

Lemma append_assoc (a b c : string) :
  ((a ++ b) ++ c)%string = (a ++ (b ++ c))%string.
Proof. induction a; simpl; congruence. Qed.

Lemma append_inv_head (a b c : string) :
  (a ++ b)%string = (a ++ c)%string -> b = c.
Proof. induction a; simpl; intros H; [assumption | injection H; auto]. Qed.

Lemma startsWith_spec (s t : string) :
  Str.startsWith s t = true <-> exists b, s = (t ++ b)%string.
Proof.
  revert s; induction t as [|c t IH]; intros s; simpl.
  - split; [intros _; exists s; reflexivity | reflexivity].
  - destruct s as [|a s]; simpl.
    + split; [discriminate | intros [b Hb]; discriminate].
    + rewrite andb_true_iff, Ascii.eqb_eq, IH. split.
      * intros [-> [b ->]]. exists b; reflexivity.
      * intros [b Hb]. injection Hb as -> ->. split; [reflexivity | eauto].
Qed.

Lemma includes_spec (s t : string) :
  Str.includes s t = true <-> exists a b, s = (a ++ t ++ b)%string.
Proof.
  induction s as [|c s IH].
  - simpl. rewrite orb_false_r, startsWith_spec. split.
    + intros [b Hb]. exists "", b. exact Hb.
    + intros [a [b Hab]]. destruct a; [exists b; exact Hab | discriminate].
  - cbn [Str.includes]. rewrite orb_true_iff, startsWith_spec, IH. split.
    + intros [[b Hb] | [a [b Hab]]].
      * exists "", b. exact Hb.
      * exists (String c a), b. simpl. congruence.
    + intros [a [b Hab]]. destruct a as [|c' a].
      * left. exists b. exact Hab.
      * right. simpl in Hab. injection Hab as -> ->. eauto.
Qed.

(** A text that contains [u ++ t] contains [t]. *)
Lemma includes_tail (s u t : string) :
  Str.includes s (u ++ t) = true -> Str.includes s t = true.
Proof.
  rewrite !includes_spec. intros [a [b ->]].
  exists (a ++ u)%string, b. now rewrite !append_assoc.
Qed.

Lemma toLowerCase_app (a b : string) :
  Str.toLowerCase (a ++ b) = (Str.toLowerCase a ++ Str.toLowerCase b)%string.
Proof. induction a; simpl; congruence. Qed.

Lemma toLowerCase_split (q x y : string) :
  Str.toLowerCase q = (x ++ y)%string ->
  exists q1 q2, q = (q1 ++ q2)%string /\
                Str.toLowerCase q1 = x /\ Str.toLowerCase q2 = y.
Proof.
  revert q; induction x as [|c x IH]; intros q H; simpl in H.
  - exists "", q. auto.
  - destruct q as [|d q]; [discriminate |].
    simpl in H. injection H as Hc Hq.
    destruct (IH _ Hq) as [q1 [q2 [-> [H1 H2]]]].
    exists (String d q1), q2. simpl. repeat split; congruence.
Qed.

(** Matching a lower-case keyword in the lower-cased text is matching it in
    the text up to letter case. *)
Lemma includes_lower_spec (q k : string) :
  Str.includes (Str.toLowerCase q) k = true <->
  exists a t b, q = (a ++ t ++ b)%string /\ Str.toLowerCase t = k.
Proof.
  rewrite includes_spec. split.
  - intros [a' [b' H]].
    destruct (toLowerCase_split _ _ _ H) as [a [r [-> [Ha Hr]]]].
    destruct (toLowerCase_split _ _ _ Hr) as [t [b [-> [Ht Hb]]]].
    exists a, t, b. auto.
  - intros [a [t [b [-> <-]]]].
    exists (Str.toLowerCase a), (Str.toLowerCase b).
    now rewrite !toLowerCase_app.
Qed.

Lemma trimEnd_idem (s : string) : Str.trimEnd (Str.trimEnd s) = Str.trimEnd s.
Proof.
  induction s as [|c s IH]; [reflexivity |].
  cbn [Str.trimEnd].
  destruct (Str.isWhite c && Str.isEmpty (Str.trimEnd s)) eqn:E; [reflexivity |].
  cbn [Str.trimEnd]. rewrite IH, E. reflexivity.
Qed.

Lemma trimStart_head (s : string) :
  match Str.trimStart s with
  | EmptyString => True
  | String c _ => Str.isWhite c = false
  end.
Proof.
  induction s as [|c s IH]; simpl; [exact I |].
  destruct (Str.isWhite c) eqn:E; [exact IH | exact E].
Qed.

Lemma trimStart_trimEnd (s : string) :
  match s with EmptyString => True | String c _ => Str.isWhite c = false end ->
  Str.trimStart (Str.trimEnd s) = Str.trimEnd s.
Proof.
  destruct s as [|c s]; [reflexivity |]. intros Hc.
  cbn [Str.trimEnd]. rewrite Hc. simpl. rewrite Hc. reflexivity.
Qed.

(** Trimming leaves nothing to trim. *)
Lemma trim_idem (s : string) : Str.trim (Str.trim s) = Str.trim s.
Proof.
  unfold Str.trim.
  rewrite (trimStart_trimEnd _ (trimStart_head s)). apply trimEnd_idem.
Qed.

(** ** Question router *)

Lemma someIncluded_spec (keys : list string) (s : string) :
  someIncluded keys s = true <-> exists k, In k keys /\ Str.includes s k = true.
Proof. unfold someIncluded. apply existsb_exists. Qed.

(** The routing keywords are written in lower case. *)
Lemma keys_lower :
  Forall (fun k => Str.toLowerCase k = k) (personalKeys ++ resumeKeys).
Proof. repeat constructor. Qed.

(** C4. [classifyQuestion] lower-cases the question and looks each keyword up
    as a substring: it answers [Both] when a personal and a resume keyword
    occur, [Only Personal] when only a personal one does, [Only Resume] when
    only a resume one does, and [Unknown] when none does.  A keyword occurs
    when some substring of the question equals it up to letter case, and no
    string is a keyword of both lists. *)
Theorem classifyQuestion_spec (q : string) :
  let occurs keys :=
    exists k, In k keys /\ Str.includes (Str.toLowerCase q) k = true in
  (classifyQuestion q = Both <-> occurs personalKeys /\ occurs resumeKeys) /\
  (classifyQuestion q = Only Personal <->
     occurs personalKeys /\ ~ occurs resumeKeys) /\
  (classifyQuestion q = Only Resume <->
     ~ occurs personalKeys /\ occurs resumeKeys) /\
  (classifyQuestion q = Unknown <->
     ~ occurs personalKeys /\ ~ occurs resumeKeys) /\
  (forall k, In k (personalKeys ++ resumeKeys) ->
     (Str.includes (Str.toLowerCase q) k = true <->
      exists a t b, q = (a ++ t ++ b)%string /\ Str.toLowerCase t = k)) /\
  (forall k, In k personalKeys -> ~ In k resumeKeys).
Proof.
  intros occurs.
  assert (HP : someIncluded personalKeys (Str.toLowerCase q) = true
               <-> occurs personalKeys) by apply someIncluded_spec.
  assert (HR : someIncluded resumeKeys (Str.toLowerCase q) = true
               <-> occurs resumeKeys) by apply someIncluded_spec.
  assert (HP' : someIncluded personalKeys (Str.toLowerCase q) = false
                -> ~ occurs personalKeys).
  { intros E X. apply HP in X. congruence. }
  assert (HR' : someIncluded resumeKeys (Str.toLowerCase q) = false
                -> ~ occurs resumeKeys).
  { intros E X. apply HR in X. congruence. }
  repeat apply conj.
  1-8: unfold classifyQuestion;
    destruct (someIncluded personalKeys (Str.toLowerCase q));
    destruct (someIncluded resumeKeys (Str.toLowerCase q)); simpl;
    try discriminate; try reflexivity;
    try (pose proof (proj1 HP eq_refl)); try (pose proof (proj1 HR eq_refl));
    try (pose proof (HP' eq_refl)); try (pose proof (HR' eq_refl)); tauto.
  - intros k _. apply includes_lower_spec.
  - intros k Hk Hr. simpl in Hk, Hr.
    repeat (destruct Hk as [<- | Hk];
            [ repeat (destruct Hr as [Hr | Hr]; [discriminate Hr |]);
              exact Hr |]).
    exact Hk.
Qed.

(** C10. A question whose lower-case form contains [outside work] or
    [outside of work] is classified [Both], never [Only Personal]: either
    phrase ends in the resume keyword [work]. *)
Theorem classifyQuestion_outside_work (q : string) :
  Str.includes (Str.toLowerCase q) "outside work" = true \/
  Str.includes (Str.toLowerCase q) "outside of work" = true ->
  classifyQuestion q = Both.
Proof.
  intros H. unfold classifyQuestion.
  assert (HP : someIncluded personalKeys (Str.toLowerCase q) = true).
  { apply someIncluded_spec. destruct H as [H | H].
    - exists "outside work". split; [simpl; tauto | exact H].
    - exists "outside of work". split; [simpl; tauto | exact H]. }
  assert (HR : someIncluded resumeKeys (Str.toLowerCase q) = true).
  { apply someIncluded_spec. exists "work". split; [simpl; tauto |].
    destruct H as [H | H].
    - apply (includes_tail _ "outside "). exact H.
    - apply (includes_tail _ "outside of "). exact H. }
  now rewrite HP, HR.
Qed.

Lemma classifyQuestion_outside_work_witness :
  classifyQuestion "What do you do OUTSIDE WORK?" = Both.
Proof.
  apply classifyQuestion_outside_work. left. vm_compute. reflexivity.
Defined.

(** ** The stable sort *)

Section SortFacts.
Context {A : Type}.
Variable compareFn : A -> A -> float.

#[local] Abbreviation bef := (before compareFn).
#[local] Abbreviation ins := (insertSorted compareFn).
#[local] Abbreviation srt := (sortBy compareFn).

Lemma insertSorted_perm (x : A) (l : list A) : Permutation (ins x l) (x :: l).
Proof.
  induction l as [|y l IH]; simpl; [reflexivity |].
  destruct (bef y x); [| reflexivity].
  rewrite IH. apply perm_swap.
Qed.

Lemma sortBy_perm (l : list A) : Permutation (srt l) l.
Proof.
  induction l as [|x l IH]; simpl; [reflexivity |].
  rewrite insertSorted_perm. now constructor.
Qed.

Lemma sortBy_In (l : list A) (x : A) : In x (srt l) <-> In x l.
Proof.
  split; apply Permutation_in; [| symmetry]; apply sortBy_perm.
Qed.

Lemma sortBy_length (l : list A) : List.length (srt l) = List.length l.
Proof. apply Permutation_length, sortBy_perm. Qed.

Lemma insertSorted_front (x : A) (l : list A) :
  Forall (fun z => bef z x = false) l -> ins x l = x :: l.
Proof.
  intros H. destruct l as [|y l]; [reflexivity |].
  simpl. inversion H as [|? ? Hy _]; subst. now rewrite Hy.
Qed.

Lemma filter_insertSorted_out (p : A -> bool) (x : A) (l : list A) :
  p x = false -> filter p (ins x l) = filter p l.
Proof.
  intros Hx. induction l as [|y l IH]; simpl; [now rewrite Hx |].
  destruct (bef y x); simpl; [now rewrite IH | now rewrite Hx].
Qed.

(** Elements none of which must come before another stay as they are. *)
Lemma sortBy_tied (l : list A) :
  (forall a b, In a l -> In b l -> bef a b = false) -> srt l = l.
Proof.
  induction l as [|x l IH]; intros H; simpl; [reflexivity |].
  rewrite IH by (intros; apply H; simpl; auto).
  apply insertSorted_front, Forall_forall.
  intros z Hz. apply H; simpl; auto.
Qed.

(** The comparison function is consistent on the elements of [S]. *)
Variable S : A -> Prop.
Hypothesis asym : forall a b, S a -> S b -> bef a b = true -> bef b a = false.
Hypothesis ntrans : forall a b c, S a -> S b -> S c ->
  bef a b = false -> bef b c = false -> bef a c = false.

Lemma ordered_insertSorted (x : A) (l : list A) :
  S x -> Forall S l -> ordered compareFn l -> ordered compareFn (ins x l).
Proof.
  intros Sx. induction l as [|y l IH]; intros SL O; simpl.
  - constructor; [constructor | constructor].
  - inversion SL as [|? ? Sy SL']; subst.
    inversion O as [|? ? Hy O']; subst.
    destruct (bef y x) eqn:E.
    + constructor; [| now apply IH].
      apply Forall_forall. intros z Hz.
      apply (Permutation_in _ (insertSorted_perm x l)) in Hz.
      destruct Hz as [<- | Hz]; [now apply asym |].
      rewrite Forall_forall in Hy. now apply Hy.
    + constructor; [| exact O].
      constructor; [exact E |].
      rewrite Forall_forall in Hy, SL' |- *. intros z Hz.
      apply (ntrans z y x); auto.
Qed.

Lemma ordered_sortBy (l : list A) : Forall S l -> ordered compareFn (srt l).
Proof.
  induction l as [|x l IH]; intros SL; simpl; [constructor |].
  inversion SL as [|? ? Sx SL']; subst.
  apply ordered_insertSorted; [exact Sx | | now apply IH].
  rewrite Forall_forall in SL' |- *. intros z Hz.
  apply (proj1 (sortBy_In _ _)) in Hz. auto.
Qed.

Lemma filter_insertSorted_in (p : A -> bool) (x : A) (l : list A) :
  S x -> Forall S l -> ordered compareFn l -> p x = true ->
  filter p (ins x l) = ins x (filter p l).
Proof.
  intros Sx. induction l as [|y l IH]; intros SL O Hx; simpl.
  - now rewrite Hx.
  - inversion SL as [|? ? Sy SL']; subst.
    inversion O as [|? ? Hy O']; subst.
    destruct (bef y x) eqn:E.
    + simpl. rewrite IH by assumption.
      destruct (p y); simpl; [now rewrite E | reflexivity].
    + cbn [filter]. rewrite Hx. symmetry. f_equal.
      change (ins x (filter p (y :: l)) = x :: filter p (y :: l)).
      apply insertSorted_front, Forall_forall.
      intros z Hz. apply filter_In in Hz. destruct Hz as [[<- | Hz] _]; [exact E |].
      rewrite Forall_forall in Hy, SL'. apply (ntrans z y x); auto.
Qed.

(** Filtering commutes with the stable sort. *)
Lemma filter_sortBy (p : A -> bool) (l : list A) :
  Forall S l -> filter p (srt l) = srt (filter p l).
Proof.
  induction l as [|x l IH]; intros SL; simpl; [reflexivity |].
  inversion SL as [|? ? Sx SL']; subst.
  destruct (p x) eqn:Hx.
  - rewrite filter_insertSorted_in; auto.
    + simpl. now rewrite IH.
    + rewrite Forall_forall in SL' |- *. intros z Hz.
      apply (proj1 (sortBy_In _ _)) in Hz. auto.
    + now apply ordered_sortBy.
  - rewrite filter_insertSorted_out by assumption. now apply IH.
Qed.

(** Stability: the elements tied with [x] keep their original order. *)
Lemma sortBy_stable (x : A) (l : list A) :
  S x -> Forall S l ->
  filter (tied compareFn x) (srt l) = filter (tied compareFn x) l.
Proof.
  intros Sx SL. rewrite filter_sortBy by assumption.
  apply sortBy_tied. intros a b Ha Hb.
  apply filter_In in Ha, Hb. destruct Ha as [Ha Ta], Hb as [Hb Tb].
  unfold tied in Ta, Tb. apply andb_true_iff in Ta, Tb.
  rewrite !negb_true_iff in Ta, Tb.
  rewrite Forall_forall in SL.
  apply (ntrans a x b); auto; tauto.
Qed.

End SortFacts.

(** [consistentOn] decides the two hypotheses of the section above. *)
Lemma consistentOn_spec {A} (compareFn : A -> A -> float) (l : list A) :
  consistentOn compareFn l = true ->
  (forall a b, In a l -> In b l ->
     before compareFn a b = true -> before compareFn b a = false) /\
  (forall a b c, In a l -> In b l -> In c l ->
     before compareFn a b = false -> before compareFn b c = false ->
     before compareFn a c = false).
Proof.
  unfold consistentOn. rewrite forallb_forall. intros H. split.
  - intros a b Ha Hb E.
    specialize (H a Ha). rewrite forallb_forall in H. specialize (H b Hb).
    apply andb_true_iff in H. destruct H as [H _].
    rewrite E in H. simpl in H. now apply negb_true_iff.
  - intros a b c Ha Hb Hc E1 E2.
    specialize (H a Ha). rewrite forallb_forall in H. specialize (H b Hb).
    apply andb_true_iff in H. destruct H as [_ H].
    rewrite forallb_forall in H. specialize (H c Hc).
    rewrite E1, E2 in H. simpl in H. now apply negb_true_iff.
Qed.

Lemma filter_sortBy_consistent {A} (compareFn : A -> A -> float)
  (p : A -> bool) (l : list A) :
  consistentOn compareFn l = true ->
  filter p (sortBy compareFn l) = sortBy compareFn (filter p l).
Proof.
  intros H. destruct (consistentOn_spec _ _ H) as [Ha Hn].
  apply (filter_sortBy compareFn (fun a => In a l)); auto.
  now apply Forall_forall.
Qed.

Lemma sortBy_stable_consistent {A} (compareFn : A -> A -> float)
  (x : A) (l : list A) :
  consistentOn compareFn l = true -> In x l ->
  filter (tied compareFn x) (sortBy compareFn l) = filter (tied compareFn x) l.
Proof.
  intros H Hx. destruct (consistentOn_spec _ _ H) as [Ha Hn].
  apply (sortBy_stable compareFn (fun a => In a l)); auto.
  now apply Forall_forall.
Qed.

(** ** Deduplication by id and citation *)

Lemma Subseq_refl {A} (l : list A) : Subseq l l.
Proof. induction l; constructor; assumption. Qed.

Lemma Subseq_filter {A} (p : A -> bool) (l : list A) : Subseq (filter p l) l.
Proof.
  induction l as [|x l IH]; simpl; [constructor |].
  destruct (p x); constructor; assumption.
Qed.

Lemma Subseq_trans {A} (a b c : list A) : Subseq a b -> Subseq b c -> Subseq a c.
Proof.
  intros Hab Hbc. revert a Hab.
  induction Hbc as [| x l1 l2 H IH | x l1 l2 H IH]; intros a Hab.
  - exact Hab.
  - constructor. now apply IH.
  - inversion Hab; subst; constructor; now apply IH.
Qed.

Lemma Subseq_In {A} (a b : list A) (x : A) : Subseq a b -> In x a -> In x b.
Proof.
  induction 1 as [| y l1 l2 H IH | y l1 l2 H IH]; simpl; auto.
  intros [<- | Hx]; auto.
Qed.

Lemma has_spec (seen : list Z) (x : Z) : has seen x = true <-> In x seen.
Proof.
  unfold has. rewrite existsb_exists. split.
  - intros [y [Hy E]]. apply Z.eqb_eq in E. now subst.
  - intros H. exists x. split; [exact H | apply Z.eqb_refl].
Qed.

Lemma has_false (seen : list Z) (x : Z) : has seen x = false <-> ~ In x seen.
Proof.
  rewrite <- has_spec. destruct (has seen x); split; congruence.
Qed.

Lemma dedupById_Subseq (seen : list Z) (l : list Scored) :
  Subseq (dedupById seen l) l.
Proof.
  revert seen; induction l as [|m l IH]; intros seen; simpl; [constructor |].
  destruct (has seen (id (rec m))); constructor; apply IH.
Qed.

Lemma dedupById_fresh (seen : list Z) (l : list Scored) (e : Scored) :
  In e (dedupById seen l) -> ~ In (idOf e) seen.
Proof.
  revert seen; induction l as [|m l IH]; intros seen; simpl; [tauto |].
  destruct (has seen (id (rec m))) eqn:E; [apply IH |].
  intros [<- | H]; [now apply has_false |].
  apply IH in H. simpl in H. tauto.
Qed.

Lemma dedupById_NoDup (seen : list Z) (l : list Scored) :
  NoDup (map idOf (dedupById seen l)).
Proof.
  revert seen; induction l as [|m l IH]; intros seen; simpl; [constructor |].
  destruct (has seen (id (rec m))) eqn:E; [apply IH |].
  simpl. constructor; [| apply IH].
  intros H. apply in_map_iff in H. destruct H as [e [He Hin]].
  apply dedupById_fresh in Hin. apply Hin. simpl. now left.
Qed.

(** Every id that is not yet seen keeps a representative. *)
Lemma dedupById_covers (seen : list Z) (l : list Scored) (m : Scored) :
  In m l -> ~ In (idOf m) seen ->
  exists e, In e (dedupById seen l) /\ idOf e = idOf m.
Proof.
  revert seen; induction l as [|x l IH]; intros seen; simpl; [tauto |].
  intros [-> | Hm] Hs.
  - apply has_false in Hs. unfold idOf in Hs. rewrite Hs.
    exists m. simpl. auto.
  - destruct (has seen (id (rec x))) eqn:E; [now apply IH |].
    destruct (Z.eq_dec (idOf m) (idOf x)) as [Eq | Ne].
    + exists x. simpl. auto.
    + destruct (IH (id (rec x) :: seen) Hm) as [e [He Hid]].
      * simpl. intros [H | H]; [apply Ne; symmetry; exact H | exact (Hs H)].
      * exists e. simpl. auto.
Qed.

(** The representative kept for an id is the first record carrying it. *)
Lemma dedupById_first (seen : list Z) (l : list Scored) (e : Scored) :
  In e (dedupById seen l) -> firstWithId e l = Some e.
Proof.
  unfold firstWithId.
  revert seen; induction l as [|m l IH]; intros seen; simpl; [tauto |].
  destruct (has seen (id (rec m))) eqn:E.
  - intros H. pose proof (dedupById_fresh _ _ _ H) as F.
    destruct (Z.eqb_spec (idOf m) (idOf e)) as [Eq | Ne]; [| now apply (IH seen)].
    exfalso. apply F. rewrite <- Eq. now apply has_spec.
  - intros [<- | H]; [now rewrite Z.eqb_refl |].
    pose proof (dedupById_fresh _ _ _ H) as F.
    destruct (Z.eqb_spec (idOf m) (idOf e)) as [Eq | Ne]; [| now apply (IH _ H)].
    exfalso. apply F. simpl. left. exact Eq.
Qed.

(** With unique ids nothing is dropped. *)
Lemma dedupById_NoDup_id (seen : list Z) (l : list Scored) :
  NoDup (map idOf l) -> (forall m, In m l -> ~ In (idOf m) seen) ->
  dedupById seen l = l.
Proof.
  revert seen; induction l as [|m l IH]; intros seen ND Hs; simpl; [reflexivity |].
  inversion ND as [|? ? Hm ND']; subst.
  assert (E : has seen (id (rec m)) = false)
    by (apply has_false, (Hs m); simpl; auto).
  rewrite E. f_equal. apply IH; [exact ND' |].
  intros x Hx [H | H].
  - apply Hm. apply in_map_iff. exists x. split; [symmetry; exact H | exact Hx].
  - apply (Hs x); simpl; auto.
Qed.

Lemma citeFrom_scored (i : nat) (l : list Scored) : map scored (citeFrom i l) = l.
Proof. revert i; induction l; intros i; simpl; [| rewrite IHl]; reflexivity. Qed.

Lemma citeFrom_cid (i : nat) (l : list Scored) :
  map cid (citeFrom i l) =
  map (fun j => ("C" ++ Str.ofNat j)%string) (seq (i + 1) (List.length l)).
Proof.
  revert i; induction l as [|x l IH]; intros i; simpl; [reflexivity |].
  rewrite IH. now rewrite Nat.add_succ_l.
Qed.

Lemma citeFrom_head (i : nat) (l : list Scored) (c : Cited) (cs : list Cited) :
  citeFrom i l = c :: cs -> cid c = ("C" ++ Str.ofNat (i + 1))%string.
Proof. destruct l; simpl; [discriminate | now intros [= <- _]]. Qed.

Lemma citeFrom_length (i : nat) (l : list Scored) :
  List.length (citeFrom i l) = List.length l.
Proof. rewrite <- (citeFrom_scored i l) at 2. now rewrite length_map. Qed.

Lemma compose_scored (sorted : list Scored) (k : nat) (terms : option (list string)) :
  map scored (compose sorted k terms) =
  firstn k (ensuredOf (foldedTerms terms) sorted
            ++ restOf (ensuredOf (foldedTerms terms) sorted) sorted).
Proof. unfold compose. apply citeFrom_scored. Qed.

Lemma compose_cid (sorted : list Scored) (k : nat) (terms : option (list string)) :
  map cid (compose sorted k terms) =
  citations (List.length (compose sorted k terms)).
Proof.
  unfold compose at 1. rewrite citeFrom_cid. unfold citations, compose.
  now rewrite citeFrom_length.
Qed.

(** No record left for the second block matches an ensure term. *)
Lemma restOf_unmatched (ensure : list string) (sorted : list Scored) :
  0 < List.length ensure ->
  Forall (fun r => matchesAny ensure r = false)
         (restOf (ensuredOf ensure sorted) sorted).
Proof.
  intros Hlen. apply Forall_forall. intros r Hr.
  unfold restOf in Hr. apply filter_In in Hr. destruct Hr as [Hin Hseen].
  apply negb_true_iff, has_false in Hseen.
  destruct (matchesAny ensure r) eqn:E; [| reflexivity].
  exfalso. apply Hseen.
  unfold ensuredOf. apply Nat.ltb_lt in Hlen. rewrite Hlen.
  destruct (dedupById_covers [] (filter (matchesAny ensure) sorted) r)
    as [e [He Hid]].
  - apply filter_In. auto.
  - simpl. tauto.
  - apply in_map_iff. exists e. split; [exact Hid | exact He].
Qed.

Lemma ensuredOf_matched (ensure : list string) (sorted : list Scored) :
  Forall (fun r => matchesAny ensure r = true) (ensuredOf ensure sorted).
Proof.
  unfold ensuredOf. destruct (0 <? List.length ensure); [| constructor].
  apply Forall_forall. intros r Hr.
  apply (Subseq_In _ _ _ (dedupById_Subseq _ _)) in Hr.
  now apply filter_In in Hr.
Qed.

(** ** Index store *)

Lemma paths_differ (w : World) : KNOWLEDGE_PATH w <> FALLBACK_RESUME_PATH w.
Proof.
  unfold KNOWLEDGE_PATH, FALLBACK_RESUME_PATH. intros H.
  apply append_inv_head in H. discriminate H.
Qed.

(** One run of [loadIndex]: a single read, of the resolved path, and an
    outcome that the file system and the parser determine. *)
Lemma loadIndex_run (w : World) (log : list Event) :
  loadIndex w log =
  (match files w (resolveIndexPath w) with
   | None => Throw "ENOENT: no such file or directory"
   | Some raw =>
       match jsonParse w raw with
       | None => Throw "SyntaxError"
       | Some (JArray (x :: l)) => Ok (x :: l)
       | Some _ => Throw "Index is empty. Run: npm run index:build"
       end
   end, log ++ [EvRead (resolveIndexPath w)]).
Proof.
  unfold loadIndex, readFile, bind, emit, orThrow, ret, throw.
  destruct (files w (resolveIndexPath w)) as [raw|]; [| reflexivity].
  destruct (jsonParse w raw) as [[[|x l]|]|]; reflexivity.
Qed.

Lemma loadIndex_any_log (w : World) (log : list Event) :
  loadIndex w log = (fst (loadIndex w []), log ++ [EvRead (resolveIndexPath w)]).
Proof. now rewrite !loadIndex_run. Qed.

(** C6. [loadIndex] reads exactly one artifact: the primary path when it
    exists and the legacy fallback path exactly when the primary is absent
    (the two paths differ).  It fails when the artifact it resolved is absent
    (that is, when both are), when its content is not JSON, and when it
    parses to an empty array or to something that is not an array; it returns
    the parsed records when they form a non-empty array. *)
Theorem loadIndex_spec (w : World) (log : list Event) :
  let p := resolveIndexPath w in
  KNOWLEDGE_PATH w <> FALLBACK_RESUME_PATH w /\
  (existsSync w (KNOWLEDGE_PATH w) = true -> p = KNOWLEDGE_PATH w) /\
  (existsSync w (KNOWLEDGE_PATH w) = false <-> p = FALLBACK_RESUME_PATH w) /\
  snd (loadIndex w log) = log ++ [EvRead p] /\
  (files w p = None -> exists msg, fst (loadIndex w log) = Throw msg) /\
  (files w (KNOWLEDGE_PATH w) = None -> files w (FALLBACK_RESUME_PATH w) = None ->
     exists msg, fst (loadIndex w log) = Throw msg) /\
  (forall raw, files w p = Some raw ->
     (jsonParse w raw = None -> exists msg, fst (loadIndex w log) = Throw msg) /\
     (jsonParse w raw = Some (JArray []) \/ jsonParse w raw = Some JOther ->
        fst (loadIndex w log) = Throw "Index is empty. Run: npm run index:build") /\
     (forall x l, jsonParse w raw = Some (JArray (x :: l)) ->
        fst (loadIndex w log) = Ok (x :: l))) /\
  (forall payload, fst (loadIndex w log) = Ok payload ->
     payload <> [] /\
     exists raw, files w p = Some raw /\ jsonParse w raw = Some (JArray payload)).
Proof.
  intros p. rewrite loadIndex_run. fold p. cbn [fst snd].
  assert (Hp : existsSync w (KNOWLEDGE_PATH w) = false <-> p = FALLBACK_RESUME_PATH w).
  { unfold p, resolveIndexPath.
    destruct (existsSync w (KNOWLEDGE_PATH w)); split; try reflexivity; try discriminate.
    intros H. exfalso. exact (paths_differ w H). }
  split; [apply paths_differ |].
  split; [unfold p, resolveIndexPath; now intros -> |].
  split; [exact Hp |].
  split; [reflexivity |].
  split; [intros ->; eexists; reflexivity |].
  split.
  { intros H1 H2.
    assert (E : p = FALLBACK_RESUME_PATH w)
      by (apply Hp; unfold existsSync; now rewrite H1).
    rewrite E, H2. eexists; reflexivity. }
  split.
  - intros raw ->. split; [intros ->; eexists; reflexivity |].
    split; [intros [-> | ->]; reflexivity | intros x l ->; reflexivity].
  - intros payload H.
    destruct (files w p) as [raw|]; [| discriminate].
    destruct (jsonParse w raw) as [[[|x l]|]|] eqn:Ej; try discriminate.
    injection H as <-. split; [discriminate | exists raw; split; [reflexivity | exact Ej]].
Qed.

(** With only the legacy artifact the fallback path is read, and it alone;
    with no artifact the load fails after one read. *)
Lemma loadIndex_spec_witness :
  (loadIndex Sample.legacyWorld []
   = (Ok Sample.resumeIndex, [EvRead "/srv/app/index/resume.index.json"])) /\
  (snd (loadIndex Sample.bareWorld []) = [EvRead "/srv/app/index/resume.index.json"]) /\
  (exists msg, fst (loadIndex Sample.bareWorld []) = Throw msg).
Proof.
  split; [vm_compute; reflexivity |].
  destruct (loadIndex_spec Sample.bareWorld [])
    as (_ & _ & _ & Hlog & _ & Hthrow & _).
  split; [exact Hlog | apply Hthrow; reflexivity].
Defined.

(** ** Retriever *)

(** One run of [retrieveInternal] after a successful load. *)
Lemma retrieveInternal_run (w : World) (query : string) (k : nat)
  (opts : RetrieveOptions) (log : list Event) :
  retrieveInternal w query k opts log =
  let log1 := log ++ [EvRead (resolveIndexPath w)] in
  match fst (loadIndex w []) with
  | Throw msg => (Throw msg, log1)
  | Ok payload =>
      let filtered := applyFilter opts payload in
      if List.length filtered =? 0 then (Ok [], log1)
      else
        (match embeddingsCreate w [query] with
         | None => Throw "embeddings request failed"
         | Some [] => Throw "TypeError: cannot read properties of undefined"
         | Some (q :: _) => Ok (rank q filtered k (ensureTerms opts))
         end, log1 ++ [EvEmbed [query]])
  end.
Proof.
  unfold retrieveInternal, bind at 1. rewrite loadIndex_any_log.
  destruct (fst (loadIndex w [])) as [payload | msg]; cbn zeta; [| reflexivity].
  destruct (List.length (applyFilter opts payload) =? 0); [reflexivity |].
  unfold embedQuery, bind, emit, orThrow, ret, throw.
  destruct (embeddingsCreate w [query]) as [[|q qs]|]; reflexivity.
Qed.

(** The result of a retrieval does not depend on the effects performed
    before it. *)
Lemma retrieveInternal_any_log (w : World) (query : string) (k : nat)
  (opts : RetrieveOptions) (log log' : list Event) :
  fst (retrieveInternal w query k opts log)
  = fst (retrieveInternal w query k opts log').
Proof.
  rewrite !retrieveInternal_run. cbn zeta.
  destruct (fst (loadIndex w [])) as [payload | msg]; [| reflexivity].
  destruct (List.length (applyFilter opts payload) =? 0); reflexivity.
Qed.

Lemma In_firstn {A} (n : nat) (l : list A) (x : A) : In x (firstn n l) -> In x l.
Proof.
  intros H. rewrite <- (firstn_skipn n l). apply in_or_app. now left.
Qed.

Lemma rank_sound (q : Vec.vec) (filtered : list RecordT) (k : nat)
  (terms : option (list string)) (c : Cited) :
  In c (rank q filtered k terms) -> In (rec (scored c)) filtered.
Proof.
  intros Hc.
  assert (H : In (scored c) (map scored (rank q filtered k terms)))
    by now apply in_map.
  unfold rank in H. rewrite compose_scored in H.
  apply In_firstn, in_app_or in H.
  assert (Hs : In (scored c) (scoredSorted (Vec.normalize q) filtered)).
  { destruct H as [H | H].
    - unfold ensuredOf in H. destruct (0 <? _); [| destruct H].
      apply (Subseq_In _ _ _ (dedupById_Subseq _ _)) in H.
      now apply filter_In in H.
    - unfold restOf in H. now apply filter_In in H. }
  unfold scoredSorted in Hs. apply sortBy_In in Hs.
  unfold scoreAll in Hs. apply in_map_iff in Hs.
  destruct Hs as [r [<- Hr]]. exact Hr.
Qed.

(** Without ensure terms the result is the sorted candidates cut to [k]. *)
Lemma compose_no_terms (sorted : list Scored) (k : nat)
  (terms : option (list string)) :
  foldedTerms terms = [] -> compose sorted k terms = citeFrom 0 (firstn k sorted).
Proof.
  intros E. unfold compose. rewrite E. unfold ensuredOf, restOf. simpl.
  f_equal. f_equal. induction sorted as [|x l IH]; simpl; congruence.
Qed.

Lemma scoreAll_rec (qnorm : Vec.vec) (filtered : list RecordT) :
  map rec (scoreAll qnorm filtered) = filtered.
Proof.
  unfold scoreAll. rewrite map_map. simpl. apply map_id.
Qed.

Lemma rank_complete (q : Vec.vec) (filtered : list RecordT) (k : nat)
  (terms : option (list string)) :
  foldedTerms terms = [] -> List.length filtered <= k ->
  Permutation (map (fun c => rec (scored c)) (rank q filtered k terms)) filtered.
Proof.
  intros E Hk. unfold rank. rewrite compose_no_terms by assumption.
  rewrite <- (map_map scored rec), citeFrom_scored.
  rewrite firstn_all2.
  - unfold scoredSorted.
    rewrite <- (scoreAll_rec (Vec.normalize q) filtered) at 2.
    apply Permutation_map, sortBy_perm.
  - unfold scoredSorted, scoreAll. now rewrite sortBy_length, length_map.
Qed.

Lemma retrieveInternal_ok (w : World) (query : string) (k : nat)
  (opts : RetrieveOptions) (log : list Event) (payload : list RecordT)
  (q : Vec.vec) (qs : list Vec.vec) :
  fst (loadIndex w log) = Ok payload ->
  embeddingsCreate w [query] = Some (q :: qs) ->
  fst (retrieveInternal w query k opts log)
  = Ok (rank q (applyFilter opts payload) k (ensureTerms opts)).
Proof.
  intros Hload Hq. rewrite loadIndex_any_log in Hload. cbn [fst] in Hload.
  rewrite retrieveInternal_run, Hload. cbn zeta.
  destruct (applyFilter opts payload) as [|r rs]; simpl; [| now rewrite Hq].
  unfold rank, compose, ensuredOf. simpl.
  destruct (0 <? _); simpl; now destruct k.
Qed.

(** With ensure terms [answer] retrieves once, unfiltered, passing them. *)
Lemma answerTop_ensure (w : World) (question : string) (k : nat)
  (log : list Event) :
  ensureTermsForQuestion question <> [] ->
  answerTop w question k log
  = retrieveInternal w question k
      (mkOpts None (Some (ensureTermsForQuestion question))) log.
Proof.
  intros Hne. unfold answerTop.
  destruct (ensureTermsForQuestion question); [congruence | reflexivity].
Qed.

(** ** Ensure-term precedence *)

(** C1. With a non-empty list of ensure terms, the result of the retrieval is
    the ensured matches followed by the remaining candidates, cut to [k] and
    cited [C1..Cn] by position.  The ensured matches are the candidates of
    the score-sorted list whose lower-cased text contains a lower-cased
    ensure term, in sorted order, one per id, the first of each id; the
    remaining candidates are the sorted ones whose id is not among them, and
    none of those matches.  So a matching record always precedes a
    non-matching one, whatever their scores, and when [k >= 1] and some
    candidate matches, the first result is the best-scored matching candidate
    and is cited [C1]. *)
Theorem retrieve_ensured_first (w : World) (query : string) (k : nat)
  (d : option Domain) (terms : list string) (log : list Event)
  (payload : list RecordT) (q : Vec.vec) (qs : list Vec.vec) :
  fst (loadIndex w log) = Ok payload ->
  embeddingsCreate w [query] = Some (q :: qs) ->
  terms <> [] ->
  let filtered := applyFilter (mkOpts d (Some terms)) payload in
  let sorted := scoredSorted (Vec.normalize q) filtered in
  let ensure := map Str.toLowerCase terms in
  let matches := filter (matchesAny ensure) sorted in
  let ensured := dedupById [] matches in
  let rest := filter (fun r => negb (has (map idOf ensured) (idOf r))) sorted in
  let result := rank q filtered k (Some terms) in
  fst (retrieveInternal w query k (mkOpts d (Some terms)) log) = Ok result /\
  map scored result = firstn k (ensured ++ rest) /\
  map cid result = citations (List.length result) /\
  (Subseq ensured sorted /\
   NoDup (map idOf ensured) /\
   (forall e, In e ensured ->
      matchesAny ensure e = true /\ firstWithId e matches = Some e) /\
   (forall m, In m matches -> In (idOf m) (map idOf ensured))) /\
  Forall (fun r => matchesAny ensure r = false) rest /\
  (forall i j a b,
     nth_error result i = Some a -> nth_error result j = Some b ->
     matchesAny ensure (scored a) = true ->
     matchesAny ensure (scored b) = false -> i < j) /\
  (1 <= k -> forall m, In m sorted -> matchesAny ensure m = true ->
     exists c, nth_error result 0 = Some c /\ cid c = "C1" /\
               find (matchesAny ensure) sorted = Some (scored c)).
Proof.
  intros Hload Hq Hne filtered sorted ensure matches ensured rest result.
  split; [exact (retrieveInternal_ok w query k _ log payload q qs Hload Hq) |].
  clear Hload Hq. clearbody filtered.
  assert (Hlen : 0 < List.length ensure).
  { unfold ensure. rewrite length_map. destruct terms; [congruence | simpl; lia]. }
  assert (Hens : ensuredOf ensure sorted = ensured).
  { unfold ensuredOf. apply Nat.ltb_lt in Hlen. now rewrite Hlen. }
  assert (Hrest : restOf ensured sorted = rest) by reflexivity.
  assert (Hres : map scored result = firstn k (ensured ++ rest)).
  { unfold result, rank. rewrite compose_scored.
    change (foldedTerms (Some terms)) with ensure.
    fold sorted. now rewrite Hens, Hrest. }
  assert (HE : Forall (fun r => matchesAny ensure r = true) ensured).
  { rewrite <- Hens. apply ensuredOf_matched. }
  assert (HR : Forall (fun r => matchesAny ensure r = false) rest).
  { rewrite <- Hrest, <- Hens. now apply restOf_unmatched. }
  assert (Hnth : forall i a, nth_error result i = Some a ->
                 nth_error (ensured ++ rest) i = Some (scored a) /\ i < k).
  { intros i a Ha.
    assert (H : nth_error (map scored result) i = Some (scored a))
      by now rewrite nth_error_map, Ha.
    rewrite Hres in H.
    destruct (Nat.lt_ge_cases i k) as [Hik | Hik].
    - now rewrite nth_error_firstn, (proj2 (Nat.ltb_lt i k) Hik) in H.
    - rewrite nth_error_firstn in H.
      destruct (Nat.ltb_spec i k); [lia | discriminate]. }
  assert (Hcid : map cid result = citations (List.length result))
    by apply compose_cid.
  assert (Hhead : forall c cs, result = c :: cs -> cid c = "C1").
  { intros c cs E. unfold result, rank, compose in E.
    cbv zeta in E. now apply citeFrom_head in E. }
  assert (Ematches : matches = filter (matchesAny ensure) sorted) by reflexivity.
  assert (Eensured : ensured = dedupById [] matches) by reflexivity.
  clearbody result rest ensured matches.
  split; [exact Hres |].
  split; [exact Hcid |].
  split; [| split; [exact HR | split]].
  - split; [| split; [| split]].
    + rewrite Eensured, Ematches.
      apply (Subseq_trans _ (filter (matchesAny ensure) sorted));
        [apply dedupById_Subseq | apply Subseq_filter].
    + rewrite Eensured. apply dedupById_NoDup.
    + intros e He. split.
      * rewrite Forall_forall in HE. now apply HE.
      * rewrite Eensured in He. now apply (dedupById_first []).
    + intros m Hm.
      destruct (dedupById_covers [] matches m Hm) as [e [He Hid]];
        [simpl; tauto |].
      apply in_map_iff. exists e. rewrite Eensured. auto.
  - intros i j a b Ha Hb Ma Mb.
    apply Hnth in Ha, Hb. destruct Ha as [Ha _], Hb as [Hb _].
    rewrite Forall_forall in HE, HR.
    destruct (Nat.lt_ge_cases i (List.length ensured)) as [Hi | Hi].
    + destruct (Nat.lt_ge_cases j (List.length ensured)) as [Hj | Hj]; [| lia].
      rewrite nth_error_app1 in Hb by assumption.
      apply nth_error_In, HE in Hb. congruence.
    + rewrite nth_error_app2 in Ha by assumption.
      apply nth_error_In, HR in Ha. congruence.
  - intros Hk m Hm Mm.
    assert (Hin : In m matches) by (rewrite Ematches; apply filter_In; auto).
    destruct matches as [|x ms]; [destruct Hin |].
    assert (Ex : ensured = x :: dedupById [id (rec x)] ms)
      by (rewrite Eensured; reflexivity).
    assert (Hfind : find (matchesAny ensure) sorted = Some x).
    { clear - Ematches. induction sorted as [|y l IH]; [discriminate |].
      simpl in *. destruct (matchesAny ensure y).
      - now injection Ematches as -> _.
      - now apply IH. }
    rewrite Ex in Hres.
    destruct result as [|c cs].
    + exfalso. destruct k; [lia | discriminate].
    + exists c. split; [reflexivity |].
      split; [now apply (Hhead c cs) |].
      destruct k; [lia |]. simpl in Hres. congruence.
Qed.

(** The scenario of the specification: the question mentions Fynd, so the
    ensure terms are those of ratl.ai; the ratl.ai record scores lowest
    against the query and is returned first, cited [C1]. *)
Lemma retrieve_ensured_first_witness :
  let terms := ensureTermsForQuestion Sample.question in
  let result := rank Sample.query [Sample.recFynd; Sample.recRatl; Sample.recLegacy]
                     5 (Some terms) in
  (terms = ["ratl.ai"; "about ratl.ai"]) /\
  (map rec (scoredSorted (Vec.normalize Sample.query)
              [Sample.recFynd; Sample.recRatl; Sample.recLegacy])
   = [Sample.recFynd; Sample.recLegacy; Sample.recRatl]) /\
  (fst (answerTop Sample.world Sample.question 5 []) = Ok result) /\
  (map (fun c => (rec (scored c), cid c)) result
   = [(Sample.recRatl, "C1"); (Sample.recFynd, "C2"); (Sample.recLegacy, "C3")]).
Proof.
  intros terms result.
  assert (Hne : terms <> []) by (vm_compute; discriminate).
  split; [vm_compute; reflexivity |]. split; [vm_compute; reflexivity |].
  split; [| vm_compute; reflexivity].
  destruct (retrieve_ensured_first Sample.world Sample.question 5 None terms []
              [Sample.recFynd; Sample.recRatl; Sample.recLegacy]
              Sample.query [] eq_refl eq_refl Hne) as (Hrun & _).
  rewrite (answerTop_ensure Sample.world Sample.question 5 [] Hne).
  exact Hrun.
Defined.

(** ** Domain filter *)

(** C5. With a [domainFilter] the candidates of the retrieval are exactly
    the records of the index whose [domain], read as [resume] when the field
    is absent, is the filter.  When there is none the retrieval returns the
    empty list: it does not fail, and it does not call the embeddings
    endpoint.  Otherwise it ranks those candidates, so every result is one of
    them, and all of them are returned when [k] allows and no ensure term
    reorders or merges them. *)
Theorem retrieve_domain_filter (w : World) (query : string) (k : nat)
  (d : Domain) (terms : option (list string)) (log : list Event)
  (payload : list RecordT) :
  fst (loadIndex w log) = Ok payload ->
  let opts := mkOpts (Some d) terms in
  let p := resolveIndexPath w in
  (forall r, In r (applyFilter opts payload) <->
             In r payload /\ domainOrResume r = d) /\
  (applyFilter opts payload = [] ->
     retrieveInternal w query k opts log = (Ok [], log ++ [EvRead p])) /\
  (applyFilter opts payload <> [] -> forall q qs,
     embeddingsCreate w [query] = Some (q :: qs) ->
     retrieveInternal w query k opts log =
     (Ok (rank q (applyFilter opts payload) k terms),
      log ++ [EvRead p] ++ [EvEmbed [query]])) /\
  (forall q c, In c (rank q (applyFilter opts payload) k terms) ->
     In (rec (scored c)) payload /\ domainOrResume (rec (scored c)) = d) /\
  (forall q, foldedTerms terms = [] ->
     List.length (applyFilter opts payload) <= k ->
     Permutation
       (map (fun c => rec (scored c)) (rank q (applyFilter opts payload) k terms))
       (applyFilter opts payload)).
Proof.
  intros Hload opts p.
  assert (Hin : forall r, In r (applyFilter opts payload) <->
                          In r payload /\ domainOrResume r = d).
  { intros r. unfold applyFilter, opts. simpl. rewrite filter_In.
    destruct (domainOrResume r), d; simpl; intuition congruence. }
  assert (Hload0 : fst (loadIndex w []) = Ok payload).
  { rewrite loadIndex_any_log in Hload. exact Hload. }
  split; [exact Hin |]. split; [| split; [| split]].
  - intros E. rewrite retrieveInternal_run, Hload0. cbn zeta.
    now rewrite E.
  - intros Hne q qs Hq. rewrite retrieveInternal_run, Hload0. cbn zeta.
    destruct (applyFilter opts payload) as [|r rs] eqn:E; [congruence |].
    simpl. rewrite Hq. now rewrite <- app_assoc.
  - intros q c Hc. apply rank_sound in Hc. now apply Hin.
  - intros q. apply rank_complete.
Qed.

(** The sample index filtered to [resume]: the legacy record counts as a
    resume record, the personal one is left out. *)
Lemma retrieve_domain_filter_witness :
  fst (loadIndex Sample.world []) =
    Ok [Sample.recFynd; Sample.recRatl; Sample.recLegacy] /\
  fst (retrieveInternal Sample.world "Which company?" 5 (mkOpts (Some Resume) None) [])
    = Ok (rank Sample.query [Sample.recFynd; Sample.recLegacy] 5 None) /\
  map (fun c => rec (scored c))
      (rank Sample.query [Sample.recFynd; Sample.recLegacy] 5 None)
    = [Sample.recFynd; Sample.recLegacy].
Proof.
  assert (H : fst (loadIndex Sample.world []) =
              Ok [Sample.recFynd; Sample.recRatl; Sample.recLegacy])
    by (vm_compute; reflexivity).
  split; [exact H |].
  destruct (retrieve_domain_filter Sample.world "Which company?" 5 Resume None
              [] _ H) as (_ & _ & Hrun & _).
  split; [| vm_compute; reflexivity].
  rewrite (Hrun ltac:(discriminate) Sample.query []); reflexivity.
Defined.

(** ** Answer orchestration *)

Lemma retrieveInternal_no_terms (w : World) (query : string) (k : nat)
  (log : list Event) :
  retrieveInternal w query k (mkOpts None (Some [])) log
  = retrieveInternal w query k noOpts log.
Proof. reflexivity. Qed.

(** C3. The retrieval stage of [answer] follows the routing policy.  With
    ensure terms it retrieves once, unfiltered, passing them.  Otherwise a
    [personal] question is retrieved with the personal filter and, exactly
    when that returns no result, once more unfiltered; a [resume] question is
    retrieved with the resume filter only; any other question is retrieved
    unfiltered.  So for a question classified [personal] over an index
    without personal records the result is that of the unfiltered retrieval
    of the question with its ensure terms, which is the plain unfiltered
    retrieval when it has none. *)
Theorem answer_routing (w : World) (question : string) (k : nat)
  (log : list Event) :
  let ensure := ensureTermsForQuestion question in
  let hint := classifyQuestion question in
  let go opts lg := retrieveInternal w question k opts lg in
  let personal := mkOpts (Some Personal) None in
  (ensure <> [] ->
     answerTop w question k log = go (mkOpts None (Some ensure)) log) /\
  (ensure = [] -> hint = Only Personal ->
     (forall c cs, fst (go personal log) = Ok (c :: cs) ->
        answerTop w question k log = go personal log) /\
     (forall msg, fst (go personal log) = Throw msg ->
        answerTop w question k log = go personal log) /\
     (fst (go personal log) = Ok [] ->
        answerTop w question k log = go noOpts (snd (go personal log)))) /\
  (ensure = [] -> hint = Only Resume ->
     answerTop w question k log = go (mkOpts (Some Resume) None) log) /\
  (ensure = [] -> hint = Both \/ hint = Unknown ->
     answerTop w question k log = go noOpts log) /\
  (hint = Only Personal ->
   (forall payload r, fst (loadIndex w []) = Ok payload -> In r payload ->
      domainOrResume r <> Personal) ->
   fst (answerTop w question k log) = fst (go (mkOpts None (Some ensure)) log) /\
   (ensure = [] -> fst (answerTop w question k log) = fst (go noOpts log))).
Proof.
  intros ensure hint go personal. subst go. cbv beta.
  assert (Hlen : ensure <> [] -> (0 <? List.length ensure) = true).
  { intros H. apply Nat.ltb_lt. destruct ensure; [congruence | simpl; lia]. }
  assert (Hpers : ensure = [] -> hint = Only Personal ->
            answerTop w question k log =
            match retrieveInternal w question k personal log with
            | (Ok [], lg) => retrieveInternal w question k noOpts lg
            | other => other
            end).
  { intros E Hh. unfold answerTop. fold ensure hint. rewrite E, Hh. simpl.
    unfold bind. fold personal.
    destruct (retrieveInternal w question k personal log) as [[[|c cs]|msg] lg];
      reflexivity. }
  split; [| split; [| split; [| split]]].
  - intros Hne. now apply answerTop_ensure.
  - intros E Hh. rewrite (Hpers E Hh).
    destruct (retrieveInternal w question k personal log) as [[[|c cs]|msg] lg];
      simpl; repeat split; try discriminate; reflexivity.
  - intros E Hh. unfold answerTop. fold ensure hint. now rewrite E, Hh.
  - intros E Hh. unfold answerTop. fold ensure hint. rewrite E.
    destruct Hh as [-> | ->]; reflexivity.
  - intros Hh Hnone.
    assert (Hfall : ensure = [] ->
              fst (answerTop w question k log)
              = fst (retrieveInternal w question k noOpts log)).
    { intros E. rewrite (Hpers E Hh).
      rewrite (retrieveInternal_run w question k personal log). cbn zeta.
      destruct (fst (loadIndex w [])) as [payload | msg] eqn:El.
      - assert (Ef : applyFilter personal payload = []).
        { unfold applyFilter, personal. simpl.
          assert (Hall : forall r, In r payload -> domainOrResume r <> Personal)
            by (intros r; apply (Hnone payload r eq_refl)).
          clear - Hall. induction payload as [|r rs IH]; [reflexivity |].
          simpl. destruct (domainOrResume r) eqn:Er.
          + simpl. apply IH. intros x Hx. apply Hall. now right.
          + exfalso. apply (Hall r); [now left | exact Er]. }
        rewrite Ef. simpl. apply retrieveInternal_any_log.
      - simpl. rewrite (retrieveInternal_run w question k noOpts log), El.
        reflexivity. }
    split; [| exact Hfall].
    destruct ensure as [|t ts] eqn:E.
    + rewrite retrieveInternal_no_terms. now apply Hfall.
    + unfold answerTop. fold ensure. rewrite E. reflexivity.
Qed.

(** A question about hobbies over an index without personal records: the
    personal retrieval is empty and the answer is built from the unfiltered
    one. *)
Lemma answer_routing_witness :
  (classifyQuestion "What are your hobbies?" = Only Personal) /\
  (ensureTermsForQuestion "What are your hobbies?" = []) /\
  (fst (retrieveInternal Sample.resumeWorld "What are your hobbies?" 5
          (mkOpts (Some Personal) None) []) = Ok []) /\
  (fst (answerTop Sample.resumeWorld "What are your hobbies?" 5 [])
   = fst (retrieveInternal Sample.resumeWorld "What are your hobbies?" 5 noOpts [])) /\
  (snd (answerTop Sample.resumeWorld "What are your hobbies?" 5 [])
   = [EvRead "/srv/app/index/knowledge.index.json";
      EvRead "/srv/app/index/knowledge.index.json";
      EvEmbed ["What are your hobbies?"]]).
Proof.
  assert (Hh : classifyQuestion "What are your hobbies?" = Only Personal)
    by (vm_compute; reflexivity).
  assert (He : ensureTermsForQuestion "What are your hobbies?" = [])
    by (vm_compute; reflexivity).
  split; [exact Hh |]. split; [exact He |].
  split; [vm_compute; reflexivity |].
  split; [| vm_compute; reflexivity].
  destruct (answer_routing Sample.resumeWorld "What are your hobbies?" 5 [])
    as (_ & _ & _ & _ & Hcons).
  apply Hcons; [exact Hh | | exact He].
  intros payload r Hl Hr.
  assert (E : payload = Sample.resumeIndex)
    by (vm_compute in Hl; injection Hl as <-; reflexivity).
  rewrite E in Hr. simpl in Hr.
  destruct Hr as [<- | [<- | []]]; vm_compute; discriminate.
Defined.

(** C3, as stated, fails in its last clause.  A question classified
    [personal] that mentions Fynd has ensure terms: over an index without
    personal records [answer] retrieves with them and puts the ensured match
    first, while the unfiltered retrieval of the question ranks by score
    alone. *)
Lemma answer_routing_differs :
  classifyQuestion "What are your hobbies at Fynd?" = Only Personal /\
  applyFilter (mkOpts (Some Personal) None) [Sample.recFynd; Sample.recRunner]
  = [] /\
  exists top plain,
    fst (answerTop (Sample.worldOf [Sample.recFynd; Sample.recRunner])
           "What are your hobbies at Fynd?" 5 []) = Ok top /\
    fst (retrieveInternal (Sample.worldOf [Sample.recFynd; Sample.recRunner])
           "What are your hobbies at Fynd?" 5 noOpts []) = Ok plain /\
    map (fun c => id (rec (scored c))) top = [4; 0]%Z /\
    map (fun c => id (rec (scored c))) plain = [0; 4]%Z.
Proof.
  split; [vm_compute; reflexivity |]. split; [vm_compute; reflexivity |].
  eexists _, _. split; [vm_compute; reflexivity |].
  split; [vm_compute; reflexivity |].
  split; vm_compute; reflexivity.
Qed.

(** ** Determinism and ties *)

(** The difference of a score with itself is never negative. *)
Lemma sub_self_not_neg (s : float) : (s - s <? 0)%float = false.
Proof.
  rewrite ltb_spec, sub_spec.
  assert (Hz : Prim2SF 0 = S754_zero false) by reflexivity.
  rewrite Hz. unfold SF64sub, SFsub, SFltb.
  destruct (Prim2SF s) as [sg | sg | | sg m e]; simpl; try reflexivity.
  - destruct sg; reflexivity.
  - destruct sg; reflexivity.
  - rewrite Z.min_id, Z.sub_diag. reflexivity.
Qed.

Lemma Subseq_nil_l {A} (l : list A) : Subseq [] l.
Proof. induction l; constructor; assumption. Qed.

Lemma ensuredOf_sub (ensure : list string) (sorted : list Scored) :
  Subseq (ensuredOf ensure sorted) sorted.
Proof.
  unfold ensuredOf. destruct (0 <? _); [| apply Subseq_nil_l].
  apply (Subseq_trans _ (filter (matchesAny ensure) sorted));
    [apply dedupById_Subseq | apply Subseq_filter].
Qed.

Lemma Subseq_firstn {A} (k : nat) (l : list A) : Subseq (firstn k l) l.
Proof.
  revert k; induction l as [|x l IH]; intros [|k]; simpl;
    try apply Subseq_nil_l. apply Subseq_keep, IH.
Qed.

Lemma Subseq_Forall {A} (P : A -> Prop) (l1 l2 : list A) :
  Subseq l1 l2 -> Forall P l2 -> Forall P l1.
Proof.
  intros Hs H. rewrite Forall_forall in *. intros y Hy.
  apply H. exact (Subseq_In _ _ _ Hs Hy).
Qed.

(** Leaving elements out keeps the others in their order. *)
Lemma Subseq_precedes {A} (a b : A) (l1 l2 : list A) :
  Subseq l1 l2 -> precedes a b l1 -> precedes a b l2.
Proof.
  induction 1 as [| x l1 l2 H IH | x l1 l2 H IH]; intros (m1 & m2 & m3 & E).
  - destruct m1; discriminate E.
  - destruct IH as (n1 & n2 & n3 & ->); [now exists m1, m2, m3 |].
    now exists (x :: n1), n2, n3.
  - destruct m1 as [|z m1]; simpl in E; injection E as -> E.
    + assert (Hb : In b l2).
      { apply (Subseq_In _ _ _ H). rewrite E. apply in_or_app. right. now left. }
      apply in_split in Hb. destruct Hb as (r1 & r2 & ->).
      now exists [], r1, r2.
    + destruct IH as (n1 & n2 & n3 & ->); [now exists m1, m2, m3 |].
      now exists (z :: n1), n2, n3.
Qed.

Lemma precedes_filter {A} (p : A -> bool) (a b : A) (l : list A) :
  precedes a b l -> p a = true -> p b = true -> precedes a b (filter p l).
Proof.
  intros (m1 & m2 & m3 & ->) Ha Hb.
  exists (filter p m1), (filter p m2), (filter p m3).
  rewrite filter_app. simpl. rewrite Ha, filter_app. simpl. now rewrite Hb.
Qed.

Lemma ordered_Subseq {A} (compareFn : A -> A -> float) (l1 l2 : list A) :
  Subseq l1 l2 -> ordered compareFn l2 -> ordered compareFn l1.
Proof.
  unfold ordered. induction 1 as [| x l1 l2 H IH | x l1 l2 H IH]; intros Ho.
  - constructor.
  - inversion Ho; subst. now apply IH.
  - inversion Ho as [| ? ? Hx Hl]; subst. constructor; [| now apply IH].
    rewrite Forall_forall in *. intros y Hy. apply Hx.
    exact (Subseq_In _ _ _ H Hy).
Qed.

(** For a consistent comparison, two elements of the sorted list that tie
    stand in the order they had before the sort. *)
Lemma sortBy_ties_index_order {A} (compareFn : A -> A -> float)
  (a b : A) (l : list A) :
  consistentOn compareFn l = true ->
  precedes a b (sortBy compareFn l) -> tied compareFn a b = true ->
  precedes a b l.
Proof.
  intros Hc Hp Ht.
  assert (Ha : In a l).
  { destruct Hp as (m1 & m2 & m3 & E). apply (proj1 (sortBy_In compareFn l a)).
    rewrite E. apply in_or_app. right. now left. }
  assert (Haa : tied compareFn a a = true).
  { destruct (consistentOn_spec _ _ Hc) as [Hasym _]. unfold tied.
    destruct (before compareFn a a) eqn:E; [| reflexivity].
    now rewrite (Hasym a a Ha Ha E) in E. }
  apply (precedes_filter (tied compareFn a)) in Hp; [| exact Haa | exact Ht].
  rewrite (sortBy_stable_consistent compareFn a l Hc Ha) in Hp.
  exact (Subseq_precedes _ _ _ _ (Subseq_filter _ l) Hp).
Qed.

(** Two arrangements of the same elements that are both ordered and agree
    on the order within every class of tied elements are the same list: the
    comparison and the original order leave a stable sort no choice. *)
Lemma stable_order_unique {A} (compareFn : A -> A -> float) (l1 : list A) :
  forall l2,
  (forall x, In x l1 -> before compareFn x x = false) ->
  Permutation l1 l2 -> ordered compareFn l1 -> ordered compareFn l2 ->
  (forall x, In x l1 ->
     filter (tied compareFn x) l1 = filter (tied compareFn x) l2) ->
  l1 = l2.
Proof.
  unfold ordered.
  induction l1 as [|x t1 IH]; intros l2 Hirr Hperm Ho1 Ho2 Hties.
  - now apply Permutation_nil in Hperm.
  - destruct l2 as [|y t2];
      [apply Permutation_sym, Permutation_nil in Hperm; discriminate |].
    inversion Ho1 as [| ? ? Hx Ht1]; subst.
    inversion Ho2 as [| ? ? Hy Ht2]; subst.
    rewrite Forall_forall in Hx, Hy.
    assert (Hxx : before compareFn x x = false) by (apply Hirr; now left).
    assert (Hyx : before compareFn y x = false).
    { assert (Hin : In y (x :: t1))
        by (apply (Permutation_in y (Permutation_sym Hperm)); now left).
      destruct Hin as [<- | Hin]; [exact Hxx | now apply Hx]. }
    assert (Hxy : before compareFn x y = false).
    { assert (Hin : In x (y :: t2)) by (apply (Permutation_in x Hperm); now left).
      destruct Hin as [<- | Hin]; [exact Hxx | now apply Hy]. }
    assert (E : x = y).
    { pose proof (Hties x (or_introl eq_refl)) as Hf. cbn [filter] in Hf.
      assert (T1 : tied compareFn x x = true) by (unfold tied; now rewrite Hxx).
      assert (T2 : tied compareFn x y = true)
        by (unfold tied; now rewrite Hxy, Hyx).
      rewrite T1, T2 in Hf. now injection Hf. }
    subst y. f_equal. apply IH.
    + intros z Hz. apply Hirr. now right.
    + exact (Permutation_cons_inv Hperm).
    + exact Ht1.
    + exact Ht2.
    + intros z Hz. pose proof (Hties z (or_intror Hz)) as Hf. cbn [filter] in Hf.
      destruct (tied compareFn z x); [now injection Hf | exact Hf].
Qed.

(** C9. Retrieval is deterministic: two invocations with the same query,
    [k] and options over the same index artifact and embeddings endpoint
    return the same outcome (records, order, scores and citation ids
    [C1..Cn]), whatever happened before each.  When the comparison of scores
    is consistent on the candidates, the result is moreover fixed by the
    scores and the index order alone: every arrangement of the scored
    candidates that is ordered by score, highest first, and keeps tied
    candidates in index order composes to this result.  The result is then
    the ensured matches followed by other candidates, each block ordered by
    score, and within a block candidates that tie stand in index order. *)
Theorem retrieve_deterministic (w : World) (query : string) (k : nat)
  (opts : RetrieveOptions) (log1 log2 : list Event) :
  fst (retrieveInternal w query k opts log1)
  = fst (retrieveInternal w query k opts log2) /\
  forall results, fst (retrieveInternal w query k opts log1) = Ok results ->
    exists payload q,
      fst (loadIndex w []) = Ok payload /\
      (applyFilter opts payload = [] \/
       exists qs, embeddingsCreate w [query] = Some (q :: qs)) /\
      let unsorted := scoreAll (Vec.normalize q) (applyFilter opts payload) in
      let ensure := foldedTerms (ensureTerms opts) in
      map cid results = citations (List.length results) /\
      (consistentOn byScoreDesc unsorted = true ->
       (forall other,
          Permutation other unsorted -> ordered byScoreDesc other ->
          (forall x, In x unsorted ->
             filter (tied byScoreDesc x) other
             = filter (tied byScoreDesc x) unsorted) ->
          results = compose other k (ensureTerms opts)) /\
       exists ensured rest,
         map scored results = ensured ++ rest /\
         Forall (fun a => matchesAny ensure a = true) ensured /\
         Forall (fun a => matchesAny ensure a = false) rest /\
         ordered byScoreDesc ensured /\ ordered byScoreDesc rest /\
         forall a b, tied byScoreDesc a b = true ->
           precedes a b ensured \/ precedes a b rest ->
           precedes a b unsorted).
Proof.
  split; [apply retrieveInternal_any_log |].
  intros results Hres.
  assert (Hrank : exists payload q,
            fst (loadIndex w []) = Ok payload /\
            (applyFilter opts payload = [] \/
             exists qs, embeddingsCreate w [query] = Some (q :: qs)) /\
            results = rank q (applyFilter opts payload) k (ensureTerms opts)).
  { rewrite retrieveInternal_run in Hres. cbv zeta in Hres.
    destruct (fst (loadIndex w [])) as [payload | msg]; [| discriminate Hres].
    destruct (applyFilter opts payload) as [|r rs] eqn:Ef.
    - cbn [List.length Nat.eqb fst] in Hres. injection Hres as <-.
      exists payload, []. rewrite Ef.
      split; [reflexivity |]. split; [now left |].
      unfold rank, compose, ensuredOf. simpl.
      destruct (0 <? _); simpl; now rewrite firstn_nil.
    - cbn [List.length Nat.eqb fst] in Hres.
      destruct (embeddingsCreate w [query]) as [[|q qs]|]; try discriminate Hres.
      injection Hres as <-. exists payload, q. rewrite Ef.
      repeat split; eauto. }
  destruct Hrank as (payload & q & Hload & Hq & ->).
  exists payload, q. split; [exact Hload |]. split; [exact Hq |].
  intros unsorted ensure. split; [apply compose_cid |].
  intros Hc.
  destruct (consistentOn_spec _ _ Hc) as [Hasym Hntrans].
  set (sorted := scoredSorted (Vec.normalize q) (applyFilter opts payload)).
  assert (Hord : ordered byScoreDesc sorted).
  { apply (ordered_sortBy byScoreDesc (fun a => In a unsorted)); auto.
    now apply Forall_forall. }
  split.
  - intros other Hperm Hoo Hties. unfold rank. f_equal.
    symmetry. apply (stable_order_unique byScoreDesc).
    + intros x _. apply sub_self_not_neg.
    + apply (Permutation_trans Hperm). apply Permutation_sym, sortBy_perm.
    + exact Hoo.
    + exact Hord.
    + intros x Hx.
      assert (Hin : In x unsorted) by exact (Permutation_in x Hperm Hx).
      rewrite (Hties x Hin). symmetry. now apply sortBy_stable_consistent.
  - unfold rank. rewrite compose_scored. fold sorted ensure.
    rewrite firstn_app.
    set (E := ensuredOf ensure sorted). set (R := restOf E sorted).
    assert (HE : Subseq (firstn k E) sorted)
      by (apply (Subseq_trans _ E); [apply Subseq_firstn | apply ensuredOf_sub]).
    assert (HR : Subseq (firstn (k - List.length E) R) sorted)
      by (apply (Subseq_trans _ R); [apply Subseq_firstn | apply Subseq_filter]).
    exists (firstn k E), (firstn (k - List.length E) R).
    split; [reflexivity |].
    split; [apply (Subseq_Forall _ _ _ (Subseq_firstn k E)), ensuredOf_matched |].
    split.
    { apply (Subseq_Forall _ _ _ (Subseq_firstn _ R)).
      destruct ensure as [|t ts] eqn:Ee.
      - apply Forall_forall. intros a _. reflexivity.
      - apply restOf_unmatched. simpl. lia. }
    split; [exact (ordered_Subseq _ _ _ HE Hord) |].
    split; [exact (ordered_Subseq _ _ _ HR Hord) |].
    intros a b Ht [Hp | Hp].
    + apply (sortBy_ties_index_order byScoreDesc a b unsorted Hc); [| exact Ht].
      exact (Subseq_precedes _ _ _ _ HE Hp).
    + apply (sortBy_ties_index_order byScoreDesc a b unsorted Hc); [| exact Ht].
      exact (Subseq_precedes _ _ _ _ HR Hp).
Qed.

(** Two records with the same embedding tie; the one that comes first in the
    index is ranked first. *)
Lemma retrieve_deterministic_witness :
  exists results,
    fst (retrieveInternal (Sample.worldOf Sample.tiedIndex) "q" 4 noOpts [])
    = Ok results /\
    map (fun c => rec (scored c)) results
    = [Sample.recFynd; Sample.recTwin; Sample.recLegacy; Sample.recRatl] /\
    map cid results = ["C1"; "C2"; "C3"; "C4"] /\
    forall a b, tied byScoreDesc a b = true ->
      precedes a b (map scored results) ->
      precedes a b (scoreAll (Vec.normalize Sample.query) Sample.tiedIndex).
Proof.
  destruct (fst (retrieveInternal (Sample.worldOf Sample.tiedIndex) "q" 4 noOpts []))
    as [results | msg] eqn:Eres; [| vm_compute in Eres; discriminate Eres].
  exists results. split; [reflexivity |].
  destruct (retrieve_deterministic (Sample.worldOf Sample.tiedIndex) "q" 4 noOpts [] [])
    as [_ H].
  destruct (H results Eres) as (payload & q & Hload & Hq & Hcid & Hties).
  vm_compute in Hload. injection Hload as <-.
  destruct Hq as [Hq | [qs Hq]]; [discriminate Hq |].
  vm_compute in Hq. injection Hq as <- _.
  vm_compute in Eres. injection Eres as <-.
  split; [reflexivity |]. split; [reflexivity |].
  destruct Hties as [_ (ensured & rest & Hsplit & Hm & _ & _ & _ & Hidx)];
    [vm_compute; reflexivity |].
  assert (He : ensured = []).
  { destruct ensured as [|e es]; [reflexivity |].
    inversion Hm as [| ? ? He _]. discriminate He. }
  subst ensured. simpl in Hsplit. subst rest.
  intros a b Ht Hp. apply (Hidx a b Ht). now right.
Defined.

(** C9, as stated, fails: a candidate that matches an ensure term is put
    before a candidate with the same score that comes first in the index,
    and this with a consistent comparison of scores. *)
Lemma retrieve_tie_against_index_order :
  exists results a b,
    fst (retrieveInternal (Sample.worldOf [Sample.recFynd; Sample.recRunner])
           "ratl.ai" 2 (mkOpts None (Some ["ratl.ai"])) []) = Ok results /\
    map scored results = [a; b] /\
    score a = score b /\
    id (rec a) <> id (rec b) /\
    scoreAll (Vec.normalize Sample.query) [Sample.recFynd; Sample.recRunner]
    = [b; a] /\
    consistentOn byScoreDesc [b; a] = true.
Proof.
  eexists _, _, _. split; [vm_compute; reflexivity |].
  split; [vm_compute; reflexivity |].
  split; [vm_compute; reflexivity |].
  split; [vm_compute; discriminate |].
  split; vm_compute; reflexivity.
Qed.

(** The comparison of scores need not be consistent: a record whose
    embedding is shorter than the query scores [NaN], which ties with every
    score, also with two scores that do not tie. *)
Lemma nan_score_inconsistent :
  consistentOn byScoreDesc
    (scoreAll (Vec.normalize Sample.query)
       [Sample.recFynd;
        mkRecord 5 "A record cut short." "resume.md" (Some Resume) [1]%float;
        Sample.recLegacy])
  = false.
Proof. vm_compute. reflexivity. Qed.

(** ** Scanning the sorted list or the unsorted candidates *)

Lemma Permutation_filter {A} (p : A -> bool) (l l' : list A) :
  Permutation l l' -> Permutation (filter p l) (filter p l').
Proof.
  induction 1 as [| x l l' H IH | x y l | l l' l'' H1 IH1 H2 IH2]; simpl.
  - constructor.
  - destruct (p x); [now constructor | exact IH].
  - destruct (p x), (p y); try reflexivity. apply perm_swap.
  - now transitivity (filter p l').
Qed.

(** Unique ids stay unique among the candidates that pass a test. *)
Lemma filter_ids_NoDup (keep : Scored -> bool) (cands : list Scored) :
  NoDup (map idOf cands) -> NoDup (map idOf (filter keep cands)).
Proof.
  intros ND. induction cands as [|c cands IH]; simpl; [constructor |].
  inversion ND as [|? ? Hc Hrest]; subst.
  destruct (keep c); [| now apply IH].
  simpl. constructor; [| now apply IH].
  intros Hin. apply Hc. apply in_map_iff in Hin.
  destruct Hin as [y [Hy Hin]]. apply filter_In in Hin.
  apply in_map_iff. exists y. tauto.
Qed.

Lemma restOf_same_ids (e1 e2 sorted : list Scored) :
  (forall x, In x (map idOf e1) <-> In x (map idOf e2)) ->
  restOf e1 sorted = restOf e2 sorted.
Proof.
  intros H. unfold restOf. apply filter_ext. intros r. f_equal.
  change (has (map idOf e1) (idOf r) = has (map idOf e2) (idOf r)).
  destruct (has (map idOf e2) (idOf r)) eqn:E.
  - apply has_spec. apply H. now apply has_spec.
  - apply has_false. intros X. apply H in X. now apply has_false in E.
Qed.

Lemma firstn_prefix {A} (k : nat) (e r : list A) :
  List.length e <= k -> firstn k (e ++ r) = e ++ firstn (k - List.length e) r.
Proof. intros H. now rewrite firstn_app, firstn_all2. Qed.

(** With unique ids, and [k] not below the number of matches, scanning the
    unsorted candidates returns the records that scanning the sorted list
    returns. *)
Lemma compose_unsortedScan_perm (unsorted : list Scored) (k : nat)
  (terms : option (list string)) :
  NoDup (map idOf unsorted) ->
  List.length (filter (matchesAny (foldedTerms terms)) unsorted) <= k ->
  Permutation (map scored (compose (sortBy byScoreDesc unsorted) k terms))
              (map scored (compose_unsortedScan unsorted k terms)).
Proof.
  intros ND Hk. unfold compose_unsortedScan. rewrite compose_scored, citeFrom_scored.
  set (ensure := foldedTerms terms) in *.
  set (sorted := sortBy byScoreDesc unsorted).
  assert (HP : Permutation sorted unsorted) by apply sortBy_perm.
  unfold ensuredOf. destruct (0 <? List.length ensure); [| reflexivity].
  assert (ND' : NoDup (map idOf sorted)).
  { apply (Permutation_NoDup (l := map idOf unsorted)); [| exact ND].
    apply Permutation_map. now symmetry. }
  rewrite (dedupById_NoDup_id [] (filter (matchesAny ensure) sorted))
    by (auto using filter_ids_NoDup).
  rewrite (dedupById_NoDup_id [] (filter (matchesAny ensure) unsorted))
    by (auto using filter_ids_NoDup).
  assert (HF : Permutation (filter (matchesAny ensure) sorted)
                           (filter (matchesAny ensure) unsorted))
    by now apply Permutation_filter.
  rewrite (restOf_same_ids (filter (matchesAny ensure) sorted)
                           (filter (matchesAny ensure) unsorted)).
  - rewrite !firstn_prefix; [| exact Hk | now rewrite (Permutation_length HF)].
    rewrite (Permutation_length HF). now apply Permutation_app_tail.
  - intros x. split; apply Permutation_in, Permutation_map;
      [exact HF | now symmetry].
Qed.

(** When the matches found in the unsorted candidates are then ordered by the
    same stable sort, the result is the same list. *)
Lemma compose_scanThenSort_eq (unsorted : list Scored) (k : nat)
  (terms : option (list string)) :
  consistentOn byScoreDesc unsorted = true ->
  compose_scanThenSort unsorted k terms
  = compose (sortBy byScoreDesc unsorted) k terms.
Proof.
  intros Hc. unfold compose_scanThenSort, compose, ensuredOf.
  now rewrite <- filter_sortBy_consistent.
Qed.

(** C8, as amended.  Scanning the unsorted candidates for ensure-term
    matches returns the same records as scanning the score-sorted list
    (the ensured block possibly in another order) when the ids are unique
    and [k] is at least the number of matching candidates.  If the
    alternative orders the matches it found by score with the same stable
    sort, and the comparison of scores is consistent, it returns the very
    same list for every [k]. *)
Theorem unsortedScan_refines (q : Vec.vec) (filtered : list RecordT) (k : nat)
  (terms : option (list string)) :
  let unsorted := scoreAll (Vec.normalize q) filtered in
  (NoDup (map id filtered) ->
   List.length (filter (matchesAny (foldedTerms terms)) unsorted) <= k ->
   Permutation (map scored (rank q filtered k terms))
               (map scored (rank_unsortedScan q filtered k terms)) /\
   sameRecords (rank q filtered k terms) (rank_unsortedScan q filtered k terms)) /\
  (consistentOn byScoreDesc unsorted = true ->
   rank_scanThenSort q filtered k terms = rank q filtered k terms).
Proof.
  intros unsorted. split.
  - intros ND Hk.
    assert (HP : Permutation (map scored (rank q filtered k terms))
                   (map scored (rank_unsortedScan q filtered k terms))).
    { apply compose_unsortedScan_perm; [| exact Hk].
      unfold scoreAll. rewrite map_map. exact ND. }
    split; [exact HP |].
    intros x. split; apply Permutation_in; [exact HP | now symmetry].
  - apply compose_scanThenSort_eq.
Qed.

(** The sample index: one candidate matches and [k = 5]. *)
Lemma unsortedScan_refines_witness :
  NoDup (map id Sample.index) /\
  sameRecords
    (rank Sample.query Sample.index 5 (Some ["ratl.ai"]))
    (rank_unsortedScan Sample.query Sample.index 5 (Some ["ratl.ai"])) /\
  rank_scanThenSort Sample.query Sample.index 5 (Some ["ratl.ai"])
  = rank Sample.query Sample.index 5 (Some ["ratl.ai"]).
Proof.
  assert (ND : NoDup (map id Sample.index)).
  { simpl. repeat constructor; simpl; intuition discriminate. }
  destruct (unsortedScan_refines Sample.query Sample.index 5 (Some ["ratl.ai"]))
    as [H1 H2].
  split; [exact ND |]. split.
  - apply H1; [exact ND |]. vm_compute. lia.
  - apply H2. vm_compute. reflexivity.
Defined.

(** C8, as stated, fails: two candidates match, the one that comes first in
    the index scores lower, and [k = 1].  Scanning the sorted list returns
    the better-scored record; scanning the unsorted candidates returns the
    other one. *)
Lemma unsortedScan_differs :
  ~ sameRecords
      (rank Sample.query Sample.ratlIndex 1 (Some ["ratl.ai"]))
      (rank_unsortedScan Sample.query Sample.ratlIndex 1 (Some ["ratl.ai"])).
Proof.
  intros H.
  assert (H1 : map (fun c => id (rec (scored c)))
                 (rank Sample.query Sample.ratlIndex 1 (Some ["ratl.ai"])) = [4%Z])
    by (vm_compute; reflexivity).
  assert (H2 : map (fun c => id (rec (scored c)))
                 (rank_unsortedScan Sample.query Sample.ratlIndex 1 (Some ["ratl.ai"]))
               = [1%Z])
    by (vm_compute; reflexivity).
  destruct (rank Sample.query Sample.ratlIndex 1 (Some ["ratl.ai"]))
    as [|a [|]]; try discriminate H1.
  destruct (rank_unsortedScan Sample.query Sample.ratlIndex 1 (Some ["ratl.ai"]))
    as [|b [|]]; try discriminate H2.
  destruct (proj1 (H (scored a))) as [E | []]; [simpl; auto |].
  simpl in H1, H2. rewrite <- E in H1. congruence.
Qed.

(** ** Normalization *)

(** A float at least a positive finite one is neither [NaN] nor zero, and is
    not below it. *)
Lemma SFleb_guard (mc : positive) (ec : Z) (x : spec_float) :
  SFleb (S754_finite false mc ec) x = true ->
  SFeqb x x = true /\ SFeqb x (S754_zero false) = false /\
  SFltb x (S754_finite false mc ec) = false.
Proof.
  unfold SFleb, SFeqb, SFltb.
  destruct x as [s | s | | s m e]; simpl; try discriminate.
  - destruct s; try discriminate. auto.
  - destruct s; try discriminate.
    change (Pos.compare_cont Eq) with Pos.compare.
    rewrite Z.compare_refl, Pos.compare_refl, (Z.compare_antisym ec e),
      (Pos.compare_antisym mc m).
    destruct (ec ?= e)%Z; simpl; try discriminate; auto.
    destruct (mc ?= m)%positive; simpl; try discriminate; auto.
Qed.

Lemma floor_guard (n : float) :
  (1e-12 <=? n)%float = true ->
  is_nan n = false /\ is_zero n = false /\ (n <? 1e-12)%float = false.
Proof.
  unfold is_nan, is_zero. rewrite leb_spec, ltb_spec, !eqb_spec.
  assert (Hc : Prim2SF 1e-12 = S754_finite false 4951760157141521 (-92))
    by reflexivity.
  assert (Hz : Prim2SF zero = S754_zero false) by reflexivity.
  rewrite Hc, Hz. intros H. apply SFleb_guard in H.
  destruct H as (H1 & H2 & H3). rewrite H1, H2, H3. auto.
Qed.

(** Rounding a non-negative mantissa never yields [NaN]. *)
Section Rounding.
Variables prec emax : Z.

Lemma shr_1_nonneg (mrs : shr_record) :
  (0 <= shr_m mrs)%Z -> (0 <= shr_m (shr_1 mrs))%Z.
Proof.
  destruct mrs as [m r s]. simpl.
  destruct m as [|p|p]; simpl; try lia; destruct p; simpl; lia.
Qed.

Lemma iter_pos_inv {T} (f : T -> T) (P : T -> Prop) :
  (forall x, P x -> P (f x)) -> forall n x, P x -> P (iter_pos f n x).
Proof.
  intros Hf. induction n as [n IH | n IH |]; intros x Hx; simpl; auto.
Qed.

Lemma shr_nonneg (mrs : shr_record) (e n : Z) :
  (0 <= shr_m mrs)%Z -> (0 <= shr_m (fst (shr mrs e n)))%Z.
Proof.
  intros H. unfold shr. destruct n; simpl; auto.
  apply (iter_pos_inv shr_1 (fun x => (0 <= shr_m x)%Z)); auto using shr_1_nonneg.
Qed.

Lemma shr_fexp_nonneg (m e : Z) (l : location) :
  (0 <= m)%Z -> (0 <= shr_m (fst (shr_fexp prec emax m e l)))%Z.
Proof.
  intros H. unfold shr_fexp. apply shr_nonneg.
  destruct l as [|[]]; simpl; exact H.
Qed.

Lemma round_nearest_even_nonneg (m : Z) (l : location) :
  (0 <= m)%Z -> (0 <= round_nearest_even m l)%Z.
Proof.
  intros H. destruct l as [|[]]; simpl; try lia. destruct (Z.even m); lia.
Qed.

Lemma binary_round_aux_not_nan (sx : bool) (mx ex : Z) (lx : location) :
  (0 <= mx)%Z -> binary_round_aux prec emax sx mx ex lx <> S754_nan.
Proof.
  intros H. unfold binary_round_aux.
  pose proof (shr_fexp_nonneg mx ex lx H) as H1.
  destruct (shr_fexp prec emax mx ex lx) as [mrs' e']. simpl in H1.
  pose proof (shr_fexp_nonneg _ e' loc_Exact
                (round_nearest_even_nonneg _ (loc_of_shr_record mrs') H1)) as H2.
  destruct (shr_fexp prec emax _ e' loc_Exact) as [mrs'' e'']. simpl in H2.
  destruct (shr_m mrs'') as [|p|p]; try discriminate; [| lia].
  destruct (e'' <=? emax - prec)%Z; discriminate.
Qed.

(** A zero or finite number divided by a non-zero number is a number. *)
Lemma SFdiv_not_nan (x y : spec_float) :
  (match x with S754_zero _ | S754_finite _ _ _ => True | _ => False end) ->
  (match y with S754_infinity _ | S754_finite _ _ _ => True | _ => False end) ->
  SFdiv prec emax x y <> S754_nan.
Proof.
  destruct x as [sx | sx | | sx mx ex]; try contradiction;
    destruct y as [sy | sy | | sy my ey]; try contradiction; intros _ _;
    simpl; try discriminate.
  unfold SFdiv_core_binary.
  set (m' := match _ with Z0 => _ | Zpos _ => _ | Zneg _ => _ end).
  assert (Hm : (0 <= m')%Z).
  { unfold m'. destruct (_ - _ - _)%Z; try lia. apply Z.shiftl_nonneg. lia. }
  pose proof (Z.div_pos m' (Zpos my) Hm ltac:(lia)) as Hq.
  unfold Z.div in Hq.
  destruct (Z.div_eucl m' (Z.pos my)) as [q r]. simpl in Hq.
  now apply binary_round_aux_not_nan.
Qed.

End Rounding.

Lemma SFeqb_refl (x : spec_float) : x <> S754_nan -> SFeqb x x = true.
Proof.
  unfold SFeqb. destruct x as [s | s | | s m e]; simpl; try congruence.
  - destruct s; reflexivity.
  - intros _. change (Pos.compare_cont Eq) with Pos.compare.
    rewrite Z.compare_refl, Pos.compare_refl. destruct s; reflexivity.
Qed.

Lemma is_nan_false (x : float) : is_nan x = false <-> Prim2SF x <> S754_nan.
Proof.
  unfold is_nan. rewrite eqb_spec, negb_false_iff. split.
  - intros H E. rewrite E in H. discriminate H.
  - apply SFeqb_refl.
Qed.

(** Dividing a finite number by one that is neither zero nor [NaN] does not
    give [NaN]. *)
Lemma div_not_nan (x n : float) :
  is_finite x = true -> is_nan n = false -> is_zero n = false ->
  is_nan (x / n) = false.
Proof.
  unfold is_finite. rewrite negb_true_iff, orb_false_iff.
  intros [Hx Hinf] Hn Hz.
  apply is_nan_false in Hx, Hn. apply is_nan_false.
  rewrite div_spec. apply SFdiv_not_nan.
  - unfold is_infinity in Hinf. rewrite eqb_spec, abs_spec in Hinf.
    destruct (Prim2SF x) as [s | s | | s m e]; auto.
    discriminate Hinf.
  - unfold is_zero in Hz. rewrite eqb_spec in Hz.
    destruct (Prim2SF n) as [s | s | | s m e]; auto.
    destruct s; discriminate Hz.
Qed.

Lemma sumSquares_zeros (n : nat) : Vec.sumSquares (repeat 0%float n) = 0%float.
Proof.
  unfold Vec.sumSquares.
  assert (H : forall s, s = 0%float ->
                fold_left (fun s x => (s + x * x)%float) (repeat 0%float n) s
                = 0%float).
  { induction n as [|n IH]; intros s ->; simpl; [reflexivity |].
    apply IH. reflexivity. }
  now apply H.
Qed.

(** C2, as amended.  [normalize] divides every component by the Euclidean
    norm of the vector when that norm is neither zero nor [NaN], and by
    [1e-12] otherwise.  This is [v / max(||v||, 1e-12)] when the norm is at
    least [1e-12] and when it is zero.  No component of the output is [NaN]
    when the components of the input are finite, and the vector of zeros, of
    any length, is mapped to itself. *)
Theorem normalize_guarded (v : Vec.vec) :
  Vec.normalize v =
    map (fun x => (x / (if Vec.falsy (Vec.euclid v) then 1e-12
                        else Vec.euclid v))%float) v /\
  List.length (Vec.normalize v) = List.length v /\
  ((1e-12 <=? Vec.euclid v)%float = true ->
     Vec.normalize v = Vec.normalize_spec v) /\
  (Vec.euclid v = 0%float -> Vec.normalize v = Vec.normalize_spec v) /\
  (Forall (fun x => is_finite x = true) v ->
     Forall (fun y => is_nan y = false) (Vec.normalize v)) /\
  (forall n, v = repeat 0%float n -> Vec.normalize v = v).
Proof.
  split; [reflexivity |]. split; [apply length_map |].
  split; [| split; [| split]].
  - intros H. apply floor_guard in H. destruct H as (Hn & Hz & Hlt).
    unfold Vec.normalize, Vec.normalize_spec, Vec.orElse, Vec.falsy, Vec.fmax.
    fold (Vec.euclid v). now rewrite Hn, Hz, Hlt.
  - intros H.
    unfold Vec.normalize, Vec.normalize_spec. fold (Vec.euclid v).
    now rewrite H.
  - intros Hfin. unfold Vec.normalize.
    set (n := Vec.orElse (sqrt (Vec.sumSquares v)) 1e-12).
    assert (Hn : is_nan n = false /\ is_zero n = false).
    { unfold n, Vec.orElse, Vec.falsy.
      destruct (is_zero (sqrt (Vec.sumSquares v))) eqn:Ez; simpl;
        [split; reflexivity |].
      destruct (is_nan (sqrt (Vec.sumSquares v))) eqn:En; simpl;
        [split; reflexivity | auto]. }
    apply Forall_forall. intros y Hy. apply in_map_iff in Hy.
    destruct Hy as [x [<- Hx]]. rewrite Forall_forall in Hfin.
    apply div_not_nan; [now apply Hfin | tauto | tauto].
  - intros n ->. unfold Vec.normalize. rewrite sumSquares_zeros.
    induction n as [|n IH]; simpl; [reflexivity |]. f_equal. exact IH.
Qed.

Lemma normalize_guarded_witness :
  ((1e-12 <=? Vec.euclid [3; 4])%float = true) /\
  Vec.normalize [3; 4]%float = Vec.normalize_spec [3; 4]%float /\
  Vec.normalize [3; 4]%float = [0.6; 0.8]%float /\
  Forall (fun y => is_nan y = false) (Vec.normalize [0; 0; 0]%float) /\
  Vec.normalize [0; 0; 0]%float = [0; 0; 0]%float.
Proof.
  assert (H : (1e-12 <=? Vec.euclid [3; 4])%float = true) by reflexivity.
  destruct (normalize_guarded [3; 4]%float) as (_ & _ & Hspec & _).
  destruct (normalize_guarded [0; 0; 0]%float) as (_ & _ & _ & _ & Hnan & Hzero).
  split; [exact H |]. split; [exact (Hspec H) |]. split; [reflexivity |].
  split; [apply Hnan; repeat constructor | exact (Hzero 3 eq_refl)].
Defined.

(** An infinite component is not guarded: the norm is infinite too. *)
Example normalize_infinity : Vec.normalize [infinity] = [nan].
Proof. reflexivity. Qed.

(** C2, as stated, fails: a vector whose norm lies strictly between zero and
    [1e-12] is divided by its norm, not by [1e-12]. *)
Lemma normalize_not_max :
  Vec.normalize [1e-13]%float <> Vec.normalize_spec [1e-13]%float.
Proof.
  intros H.
  apply (f_equal (fun l => match l with
                           | [x] => (x =? 1)%float
                           | _ => false
                           end)) in H.
  vm_compute in H. discriminate H.
Qed.

(** ** Document loading *)

Lemma lastSegment_plain (name : string) :
  Str.includes name "/" = false -> Path.lastSegment name = (name, true).
Proof.
  induction name as [|c name IH]; [reflexivity |].
  cbn [Str.includes Str.startsWith]. rewrite andb_true_r.
  intros H. apply orb_false_iff in H. destruct H as [Hc Hn].
  cbn [Path.lastSegment]. rewrite (IH Hn). unfold Path.isSlash. now rewrite Hc.
Qed.

Lemma lastSegment_closed (pre s b : string) :
  b <> EmptyString -> Path.lastSegment s = (b, false) ->
  Path.lastSegment (pre ++ s) = (b, false).
Proof.
  intros Hb Hs. induction pre as [|c pre IH]; simpl; [exact Hs |].
  rewrite IH. destruct (Path.isSlash c); [| reflexivity].
  destruct b; [congruence | reflexivity].
Qed.

(** The base name of a file in a directory is the file's name. *)
Lemma basename_join (dir name : string) :
  name <> EmptyString -> Str.includes name "/" = false ->
  Path.basename (dir ++ "/" ++ name) = name.
Proof.
  intros Hne Hplain. unfold Path.basename.
  rewrite (lastSegment_closed dir _ name Hne); [reflexivity |].
  change ("/" ++ name)%string with (String "/" name).
  cbn [Path.lastSegment]. rewrite (lastSegment_plain name Hplain).
  destruct name; [congruence | reflexivity].
Qed.

(** Every path the loader builds has its own file name and extension. *)
Lemma dataPath_names (w : World) (base e : string) (dom : Domain) :
  In (base, dom) bases -> In e exts ->
  Path.basename (dataPath w base e) = (base ++ e)%string /\
  Str.toLowerCase (Path.extname (dataPath w base e)) = e.
Proof.
  intros Hb He. unfold dataPath, Path.extname.
  assert (Hname : (base ++ e)%string <> EmptyString
                  /\ Str.includes (base ++ e) "/" = false).
  { simpl in Hb, He.
    repeat (destruct Hb as [[= <- <-] | Hb];
            [repeat (destruct He as [<- | He]; [split; [discriminate | reflexivity] |]);
             destruct He |]).
    destruct Hb. }
  destruct Hname as [Hne Hplain].
  rewrite (basename_join (DATA_DIR w) (base ++ e) Hne Hplain).
  split; [reflexivity |].
  simpl in Hb, He.
  repeat (destruct Hb as [[= <- <-] | Hb];
          [repeat (destruct He as [<- | He]; [reflexivity |]); destruct He |]).
  destruct Hb.
Qed.

Lemma firstExisting_spec (w : World) (base : string) (es : list string) :
  match firstExisting w base es with
  | Some e =>
      exists before after,
        es = before ++ e :: after /\
        existsSync w (dataPath w base e) = true /\
        forall e', In e' before -> existsSync w (dataPath w base e') = false
  | None => forall e, In e es -> existsSync w (dataPath w base e) = false
  end.
Proof.
  induction es as [|e es IH]; simpl; [tauto |].
  destruct (existsSync w (dataPath w base e)) eqn:E.
  - exists [], es. repeat split; auto. intros e' [].
  - destruct (firstExisting w base es) as [e1|].
    + destruct IH as (before & after & -> & He & Hb).
      exists (e :: before), after. repeat split; auto.
      intros e' [<- | H]; auto.
    + intros e' [<- | H]; auto.
Qed.

(** Reading a file the loader chose: the extension is supported and the file
    exists, so only an extractor can fail. *)
Lemma readTextFromPath_data (w : World) (x : Extractors) (base e : string)
  (dom : Domain) (log : list Event) :
  In (base, dom) bases -> In e exts ->
  existsSync w (dataPath w base e) = true ->
  snd (readTextFromPath w x (dataPath w base e) log)
  = log ++ [EvRead (dataPath w base e)] /\
  ((exists t, fst (readTextFromPath w x (dataPath w base e) log) = Ok t) \/
   fst (readTextFromPath w x (dataPath w base e) log) = Throw "pdf-parse failed" \/
   fst (readTextFromPath w x (dataPath w base e) log) = Throw "mammoth failed").
Proof.
  intros Hb He Hex. unfold readTextFromPath.
  rewrite (proj2 (dataPath_names w base e dom Hb He)).
  unfold existsSync in Hex.
  destruct (files w (dataPath w base e)) as [buf|] eqn:Ef; [| discriminate].
  simpl in He.
  destruct He as [<- | [<- | [<- | [<- | []]]]]; cbn [String.eqb Ascii.eqb Bool.eqb andb orb];
    unfold readFile, bind, emit, orThrow, ret, throw; rewrite Ef.
  - destruct (pdfParse x buf); cbn [fst snd]; eauto.
  - destruct (extractRawText x buf); cbn [fst snd]; eauto.
  - cbn [fst snd]; eauto.
  - cbn [fst snd]; eauto.
Qed.



(** The reads of the loader: one per document it adds, of the document's
    file, in order; a read whose extractor fails is the last one. *)
Lemma loadBases_reads (w : World) (x : Extractors) (bs : list (string * Domain)) :
  (forall b, In b bs -> In b bases) ->
  forall docs log,
  exists ps,
    snd (loadBases w x bs docs log) = log ++ map EvRead ps /\
    forall out, fst (loadBases w x bs docs log) = Ok out ->
      exists added, out = docs ++ added /\ ps = map (docPath w) added.
Proof.
  induction bs as [|[base dom] bs IH]; intros Hbs docs log.
  - exists []. simpl. rewrite app_nil_r. split; [reflexivity |].
    intros out [= <-]. exists []. now rewrite app_nil_r.
  - cbn [loadBases].
    assert (Hbs' : forall b, In b bs -> In b bases) by (intros; apply Hbs; now right).
    pose proof (firstExisting_spec w base exts) as Hf.
    destruct (firstExisting w base exts) as [e|]; [| apply (IH Hbs')].
    destruct Hf as (before & after & Hsplit & Hex & _).
    assert (He : In e exts) by (rewrite Hsplit; apply in_or_app; right; now left).
    assert (Hb : In (base, dom) bases) by (apply Hbs; now left).
    destruct (readTextFromPath_data w x base e dom log Hb He Hex) as [Hlog _].
    unfold bind.
    destruct (readTextFromPath w x (dataPath w base e) log) as [[t | msg] log1];
      cbn [snd] in Hlog; subst log1.
    + destruct (IH Hbs' (docs ++ [mkDoc t (Path.basename (dataPath w base e)) dom])
                  (log ++ [EvRead (dataPath w base e)])) as (ps & Hps & Hout).
      exists (dataPath w base e :: ps). split.
      * rewrite Hps, <- app_assoc. reflexivity.
      * intros out Ho. destruct (Hout out Ho) as (added & -> & ->).
        exists (mkDoc t (Path.basename (dataPath w base e)) dom :: added).
        rewrite <- app_assoc. split; [reflexivity |].
        cbn [map]. f_equal. unfold docPath. cbn [docSource].
        rewrite (proj1 (dataPath_names w base e dom Hb He)). reflexivity.
    + exists [dataPath w base e]. split; [reflexivity |]. intros out [=].
Qed.

Lemma loadDocuments_reads (w : World) (x : Extractors) (log : list Event) :
  exists ps,
    snd (loadDocuments w x log) = log ++ map EvRead ps /\
    forall docs, fst (loadDocuments w x log) = Ok docs -> ps = map (docPath w) docs.
Proof.
  destruct (loadBases_reads w x bases (fun b H => H) [] log) as (ps & Hps & Hout).
  exists ps. unfold loadDocuments, bind.
  destruct (loadBases w x bases [] log) as [[out | msg] log1];
    cbn [fst snd] in *; [| split; [exact Hps | intros docs [=]]].
  destruct (Hout out eq_refl) as (added & -> & ->).
  destruct (List.length ([] ++ added) =? 0); unfold throw, ret; cbn [fst snd];
    (split; [exact Hps |]).
  - intros docs [=].
  - intros docs [= <-]. reflexivity.
Qed.

Lemma reads_notWrite (ps : list string) : Forall notWrite (map EvRead ps).
Proof. induction ps; simpl; constructor; simpl; auto. Qed.



(** ** Index build *)

Lemma chunkText_ok (w : World) (t c : string) :
  In c (chunkText w t) -> Str.trim c = c /\ 50 < String.length c.
Proof.
  unfold chunkText. intros H. apply filter_In in H. destruct H as [Hin Hlen].
  apply Nat.ltb_lt in Hlen. split; [| exact Hlen].
  apply in_map_iff in Hin. destruct Hin as [piece [<- _]]. apply trim_idem.
Qed.

Lemma chunkDocs_texts (w : World) (docs : list Doc) :
  map fst (chunkDocs w docs) = flat_map (fun d => chunkText w (docText d)) docs.
Proof.
  unfold chunkDocs. induction docs as [|d docs IH]; simpl; [reflexivity |].
  rewrite map_app, IH, map_map. simpl. now rewrite map_id.
Qed.

Lemma recordsFrom_text (i : nat) (chunks : list (string * (string * Domain)))
  (embeddings : list Vec.vec) :
  map Built.text (recordsFrom i chunks embeddings) = map fst chunks.
Proof.
  revert i; induction chunks as [|[ch [src dom]] chunks IH]; intros i; simpl;
    [reflexivity |].
  now rewrite IH.
Qed.

(** The embedding loop performs embedding requests only, and completes when
    the endpoint answers. *)
Lemma embedLoop_run (w : World) (chunkTexts : list string) (iters : nat) :
  forall (i : nat) (acc : list Vec.vec) (log : list Event),
  exists out es,
    embedLoop w iters i chunkTexts acc log = (out, log ++ es) /\
    Forall notWrite es /\
    ((forall texts, embeddingsCreate w texts <> None) ->
     exists embeddings, out = Ok embeddings).
Proof.
  induction iters as [|n IH]; intros i acc log; simpl.
  - exists (Ok acc), []. rewrite app_nil_r. repeat split; eauto.
  - unfold embedBatch, bind at 1, bind at 1, emit, orThrow.
    set (batch := slice i (i + BATCH) chunkTexts).
    destruct (embeddingsCreate w batch) as [data|] eqn:E.
    + unfold bind, ret.
      destruct (IH (i + BATCH) (acc ++ map Vec.normalize data)
                   (log ++ [EvEmbed batch])) as (out & es & Hrun & Hes & Hok).
      exists out, (EvEmbed batch :: es).
      rewrite Hrun, <- app_assoc. repeat split; auto. constructor; simpl; auto.
    + exists (Throw "embeddings request failed"), [EvEmbed batch].
      repeat split.
      * repeat constructor.
      * intros H. destruct (H batch E).
Qed.

(** The steps of [buildIndex] on a log. *)
Lemma buildIndex_steps (w : World) (x : Extractors) (log : list Event) :
  buildIndex w x log =
  if negb (apiKeySet w) then
    (Throw "OPENAI_API_KEY not set. Create .env from .env.example", log)
  else
    match loadDocuments w x log with
    | (Throw msg, log1) => (Throw msg, log1)
    | (Ok docs, log1) =>
        let chunks := chunkDocs w docs in
        match embedLoop w ((List.length (map fst chunks) + (BATCH - 1)) / BATCH)
                0 (map fst chunks) [] log1 with
        | (Throw msg, log2) => (Throw msg, log2)
        | (Ok embeddings, log2) =>
            writeFile w (cwd w ++ "/index/knowledge.index.json")
              (recordsFrom 0 chunks embeddings) log2
        end
    end.
Proof.
  unfold buildIndex. destruct (apiKeySet w); cbn [negb]; [| reflexivity].
  unfold bind at 1.
  destruct (loadDocuments w x log) as [[docs | msg] log1]; [| reflexivity].
  unfold bind. cbv zeta.
  destruct (embedLoop w _ 0 (map fst (chunkDocs w docs)) [] log1)
    as [[embeddings | msg] log2]; reflexivity.
Qed.

(** One run of [buildIndex]: reads and embedding requests, then at most one
    write, of records that carry the chunks of the documents in order. *)
Lemma buildIndex_run (w : World) (x : Extractors) (log : list Event) :
  exists out es ws,
    buildIndex w x log = (out, log ++ es ++ ws) /\
    Forall notWrite es /\
    (ws = [] \/
     exists docs rs,
       fst (loadDocuments w x log) = Ok docs /\
       ws = [EvWrite (cwd w ++ "/index/knowledge.index.json") rs] /\
       map Built.text rs = flat_map (fun d => chunkText w (docText d)) docs /\
       out = Ok tt) /\
    (ws = [] -> out <> Ok tt) /\
    (apiKeySet w = true ->
     (exists docs, fst (loadDocuments w x log) = Ok docs) ->
     (forall texts, embeddingsCreate w texts <> None) ->
     writable w (cwd w ++ "/index/knowledge.index.json") = true -> ws <> []).
Proof.
  unfold buildIndex.
  destruct (apiKeySet w); cbn [negb].
  2: { eexists _, [], []. rewrite app_nil_r. unfold throw.
       repeat split; auto; discriminate. }
  destruct (loadDocuments_reads w x log) as (ps & Hps & _).
  unfold bind at 1.
  destruct (loadDocuments w x log) as [[docs | msg] log1]; cbn [fst snd] in *;
    subst log1.
  2: { exists (Throw msg), (map EvRead ps), []. rewrite app_nil_r.
       repeat split; auto using reads_notWrite; try discriminate.
       intros _ [docs [=]]. }
  unfold bind.
  destruct (embedLoop_run w (map fst (chunkDocs w docs))
              ((List.length (map fst (chunkDocs w docs)) + (BATCH - 1)) / BATCH)
              0 [] (log ++ map EvRead ps)) as (out & es & Hrun & Hes & Hok).
  rewrite Hrun. destruct out as [embeddings | msg].
  - unfold writeFile.
    destruct (writable w (cwd w ++ "/index/knowledge.index.json")).
    + unfold emit.
      exists (Ok tt), (map EvRead ps ++ es),
        [EvWrite (cwd w ++ "/index/knowledge.index.json")
           (recordsFrom 0 (chunkDocs w docs) embeddings)].
      rewrite <- !app_assoc. repeat split; auto; try discriminate.
      * apply Forall_app. split; [apply reads_notWrite | exact Hes].
      * right. exists docs, (recordsFrom 0 (chunkDocs w docs) embeddings).
        repeat split. now rewrite recordsFrom_text, chunkDocs_texts.
    + unfold throw. eexists _, (map EvRead ps ++ es), [].
      rewrite app_nil_r, <- app_assoc. repeat split; auto; try discriminate.
      apply Forall_app. split; [apply reads_notWrite | exact Hes].
  - exists (Throw msg), (map EvRead ps ++ es), [].
    rewrite app_nil_r, <- app_assoc. repeat split; auto; try discriminate.
    + apply Forall_app. split; [apply reads_notWrite | exact Hes].
    + intros _ _ H. destruct (Hok H) as [e He]. discriminate He.
Qed.

(** C7. Every record that the build writes to the index has a text that is
    trimmed (trimming it again changes nothing) and longer than 50
    characters: no chunk of 50 characters or fewer reaches the index.  The
    build does write, once, when the key is set, the documents load, the
    embeddings endpoint answers and the index file can be created. *)
Theorem buildIndex_chunk_floor (w : World) (x : Extractors) (log : list Event) :
  (forall p rs, In (EvWrite p rs) (snd (buildIndex w x log)) ->
     In (EvWrite p rs) log \/
     (p = (cwd w ++ "/index/knowledge.index.json")%string /\ Forall chunkOk rs)) /\
  (apiKeySet w = true ->
   (exists docs, fst (loadDocuments w x log) = Ok docs) ->
   (forall texts, embeddingsCreate w texts <> None) ->
   writable w (cwd w ++ "/index/knowledge.index.json") = true ->
   exists es rs,
     buildIndex w x log =
       (Ok tt, log ++ es ++ [EvWrite (cwd w ++ "/index/knowledge.index.json") rs]) /\
     Forall notWrite es /\ Forall chunkOk rs).
Proof.
  destruct (buildIndex_run w x log)
    as (out & es & ws & Hrun & Hes & Hws & _ & Htotal).
  assert (Hok : forall docs rs,
            map Built.text rs = flat_map (fun d => chunkText w (docText d)) docs ->
            Forall chunkOk rs).
  { intros docs rs Htext. apply Forall_forall. intros r Hr.
    assert (Hin : In (Built.text r) (map Built.text rs)) by now apply in_map.
    rewrite Htext in Hin. apply in_flat_map in Hin.
    destruct Hin as [d [_ Hc]]. exact (chunkText_ok _ _ _ Hc). }
  rewrite Hrun. cbn [snd]. split.
  - intros p rs Hin.
    apply in_app_or in Hin. destruct Hin as [Hin | Hin]; [now left |].
    apply in_app_or in Hin. destruct Hin as [Hin | Hin].
    + rewrite Forall_forall in Hes. destruct (Hes _ Hin).
    + destruct Hws as [-> | (docs & rs' & _ & -> & Htext & _)]; [destruct Hin |].
      destruct Hin as [E | []]. injection E as <- <-.
      right. split; [reflexivity |]. exact (Hok docs rs' Htext).
  - intros Hkey Hdocs Hemb Hwr.
    destruct Hws as [-> | (docs & rs & _ & -> & Htext & ->)];
      [destruct (Htotal Hkey Hdocs Hemb Hwr eq_refl) |].
    exists es, rs. split; [reflexivity |].
    split; [exact Hes | exact (Hok docs rs Htext)].
Qed.

(** The sample build: the document is read and gives one chunk of 60
    characters, the short piece is dropped, and one record is written. *)
Lemma buildIndex_chunk_floor_witness :
  let text := "Led the migration of the checkout service to event sourcing." in
  let r := Built.mk 0 text "resume.md" Resume (Some [1; 0]%float) in
  (snd (buildIndex Sample.world More.extractors [])
   = [EvRead "/srv/app/data/resume.md"; EvEmbed [text];
      EvWrite "/srv/app/index/knowledge.index.json" [r]]) /\
  chunkOk r.
Proof.
  intros text r.
  assert (H : snd (buildIndex Sample.world More.extractors [])
              = [EvRead "/srv/app/data/resume.md"; EvEmbed [text];
                 EvWrite "/srv/app/index/knowledge.index.json" [r]])
    by (vm_compute; reflexivity).
  split; [exact H |].
  destruct (proj1 (buildIndex_chunk_floor Sample.world More.extractors [])
              "/srv/app/index/knowledge.index.json" [r]) as [[] | [_ Hr]].
  - rewrite H. simpl. auto.
  - now inversion Hr.
Defined.

(** * Further properties *)

(** ** Cosine and the dimensions of its arguments *)

Lemma nan_of_spec (x : float) : Prim2SF x = S754_nan -> x = nan.
Proof. intros H. apply Prim2SF_inj. now rewrite H. Qed.

Lemma add_nan_r (x : float) : (x + nan)%float = nan.
Proof.
  apply nan_of_spec. rewrite add_spec.
  change (Prim2SF nan) with S754_nan.
  now destruct (Prim2SF x) as [s | s | | s m e].
Qed.

Lemma add_nan_l (x : float) : (nan + x)%float = nan.
Proof. apply nan_of_spec. now rewrite add_spec. Qed.

Lemma mul_nan_r (x : float) : (x * nan)%float = nan.
Proof.
  apply nan_of_spec. rewrite mul_spec.
  change (Prim2SF nan) with S754_nan.
  now destruct (Prim2SF x) as [s | s | | s m e].
Qed.

Lemma div_nan_r (x : float) : (x / nan)%float = nan.
Proof.
  apply nan_of_spec. rewrite div_spec.
  change (Prim2SF nan) with S754_nan.
  now destruct (Prim2SF x) as [s | s | | s m e].
Qed.

(** Once the sum of squares of [b] is [NaN] it stays so. *)
Lemma cosineLoop_nan (a : Vec.vec) :
  forall b dot na, exists d n, Vec.cosineLoop a b dot na nan = (d, n, nan).
Proof.
  induction a as [|x a IH]; intros b dot na; simpl; [eauto |].
  rewrite add_nan_l. apply IH.
Qed.

Lemma cosineLoop_short (a : Vec.vec) :
  forall b dot na nb, List.length b < List.length a ->
  exists d n, Vec.cosineLoop a b dot na nb = (d, n, nan).
Proof.
  induction a as [|x a IH]; intros b dot na nb H; simpl in *; [lia |].
  destruct b as [|y b]; simpl in *.
  - change (nan * nan)%float with nan. rewrite add_nan_r. apply cosineLoop_nan.
  - apply IH. lia.
Qed.

Lemma cosineLoop_extra (a : Vec.vec) :
  forall b extra dot na nb, List.length a <= List.length b ->
  Vec.cosineLoop a (b ++ extra) dot na nb = Vec.cosineLoop a b dot na nb.
Proof.
  induction a as [|x a IH]; intros b extra dot na nb H; simpl in *; [reflexivity |].
  destruct b as [|y b]; simpl in *; [lia |]. apply IH. lia.
Qed.

(** X1. [cosine] does not check dimensions.  Against a stored embedding
    shorter than the query the score is [NaN]; the components of a stored
    embedding beyond the length of the query are ignored. *)
Theorem cosine_dimensions (a b : Vec.vec) :
  (List.length b < List.length a -> Vec.cosine a b = nan) /\
  (List.length a <= List.length b ->
   forall extra, Vec.cosine a (b ++ extra) = Vec.cosine a b).
Proof.
  split.
  - intros H. unfold Vec.cosine.
    destruct (cosineLoop_short a b 0%float 0%float 0%float H) as (d & n & ->).
    change (sqrt nan) with nan. rewrite mul_nan_r.
    change (nan + 1e-12)%float with nan. apply div_nan_r.
  - intros H extra. unfold Vec.cosine. now rewrite cosineLoop_extra.
Qed.

Lemma cosine_dimensions_witness :
  Vec.cosine [1; 0; 0]%float [1; 0]%float = nan /\
  Vec.cosine [1; 0]%float [1; 0; 7]%float = Vec.cosine [1; 0]%float [1; 0]%float.
Proof.
  destruct (cosine_dimensions [1; 0; 0]%float [1; 0]%float) as [H1 _].
  destruct (cosine_dimensions [1; 0]%float [1; 0]%float) as [_ H2].
  split; [apply H1; simpl; lia | apply (H2 (le_n _) [7%float])].
Defined.

(** ** Size, order and uniqueness of the results *)

Lemma firstn_citeFrom (k i : nat) (l : list Scored) :
  firstn k (citeFrom i l) = citeFrom i (firstn k l).
Proof.
  revert i l; induction k as [|k IH]; intros i [|x l]; simpl; try reflexivity.
  now rewrite IH.
Qed.

(** X2. A smaller [k] returns a prefix of what a larger [k] returns, with
    the same citation ids. *)
Theorem rank_prefix (q : Vec.vec) (filtered : list RecordT) (k k' : nat)
  (terms : option (list string)) :
  k <= k' ->
  rank q filtered k terms = firstn k (rank q filtered k' terms).
Proof.
  intros H. unfold rank, compose. rewrite firstn_citeFrom, firstn_firstn.
  now rewrite (Nat.min_l k k' H).
Qed.

Lemma rank_prefix_witness :
  rank Sample.query Sample.tiedIndex 2 None
  = firstn 2 (rank Sample.query Sample.tiedIndex 4 None).
Proof. apply rank_prefix. lia. Defined.

Lemma Subseq_length {A} (a b : list A) :
  Subseq a b -> List.length a <= List.length b.
Proof. induction 1; simpl; lia. Qed.

Lemma filter_split_length {A} (p : A -> bool) (l : list A) :
  List.length (filter p l) + List.length (filter (fun x => negb (p x)) l)
  = List.length l.
Proof.
  induction l as [|x l IH]; simpl; [reflexivity |].
  destruct (p x); simpl; lia.
Qed.

Lemma Subseq_into_filter {A} (p : A -> bool) (a b : list A) :
  Subseq a b -> (forall e, In e a -> p e = true) -> Subseq a (filter p b).
Proof.
  induction 1 as [| x l1 l2 H IH | x l1 l2 H IH]; intros Hall; simpl.
  - constructor.
  - destruct (p x); [constructor |]; now apply IH.
  - rewrite (Hall x) by (simpl; auto). apply Subseq_keep. apply IH.
    intros e He. apply Hall. now right.
Qed.

(** The two blocks never hold more records than there are candidates. *)
Lemma blocks_length (ensure : list string) (sorted : list Scored) :
  List.length (ensuredOf ensure sorted
               ++ restOf (ensuredOf ensure sorted) sorted)
  <= List.length sorted.
Proof.
  generalize (ensuredOf_sub ensure sorted).
  generalize (ensuredOf ensure sorted). intros ensured Hs.
  pose (seenb := fun r : Scored =>
                   has (map (fun e => id (rec e)) ensured) (id (rec r))).
  assert (Hsub : Subseq ensured (filter seenb sorted)).
  { apply Subseq_into_filter; [exact Hs |].
    intros e He. apply has_spec. now apply (in_map (fun e => id (rec e))). }
  apply Subseq_length in Hsub.
  pose proof (filter_split_length seenb sorted) as Hsplit.
  rewrite length_app.
  change (restOf ensured sorted) with (filter (fun x => negb (seenb x)) sorted).
  lia.
Qed.

Lemma NoDup_map_inj_on {A B} (f : A -> B) (l : list A) (x y : A) :
  NoDup (map f l) -> In x l -> In y l -> f x = f y -> x = y.
Proof.
  induction l as [|z l IH]; simpl; intros ND Hx Hy E; [tauto |].
  inversion ND as [|? ? Hz ND']; subst.
  destruct Hx as [-> | Hx], Hy as [-> | Hy]; auto.
  - exfalso. apply Hz. rewrite E. now apply in_map.
  - exfalso. apply Hz. rewrite <- E. now apply in_map.
Qed.

(** With unique ids the two blocks are the matching and the non-matching
    candidates. *)
Lemma blocks_unique_ids (ensure : list string) (sorted : list Scored) :
  NoDup (map idOf sorted) -> 0 < List.length ensure ->
  ensuredOf ensure sorted = filter (matchesAny ensure) sorted /\
  restOf (ensuredOf ensure sorted) sorted
  = filter (fun r => negb (matchesAny ensure r)) sorted.
Proof.
  intros ND Hlen.
  assert (E : ensuredOf ensure sorted = filter (matchesAny ensure) sorted).
  { unfold ensuredOf. apply Nat.ltb_lt in Hlen. rewrite Hlen.
    apply dedupById_NoDup_id; [now apply filter_ids_NoDup | simpl; tauto]. }
  split; [exact E |]. rewrite E. unfold restOf.
  apply filter_ext_in. intros r Hr. f_equal.
  destruct (matchesAny ensure r) eqn:M.
  - apply has_spec. apply (in_map idOf). apply filter_In. auto.
  - apply has_false. intros Hin. apply in_map_iff in Hin.
    destruct Hin as [e [He Hin]]. apply filter_In in Hin.
    destruct Hin as [Hin Me].
    assert (e = r) by (apply (NoDup_map_inj_on idOf sorted); auto).
    congruence.
Qed.

Lemma filter_partition_perm {A} (p : A -> bool) (l : list A) :
  Permutation (filter p l ++ filter (fun x => negb (p x)) l) l.
Proof.
  induction l as [|x l IH]; simpl; [constructor |].
  destruct (p x); simpl.
  - now constructor.
  - rewrite <- Permutation_middle. now constructor.
Qed.

Lemma blocks_perm (ensure : list string) (sorted : list Scored) :
  NoDup (map idOf sorted) ->
  Permutation (ensuredOf ensure sorted
               ++ restOf (ensuredOf ensure sorted) sorted) sorted.
Proof.
  intros ND. destruct (Nat.eq_dec (List.length ensure) 0) as [E | E].
  - unfold ensuredOf. rewrite E. simpl. unfold restOf. simpl.
    assert (H : filter (fun _ : Scored => true) sorted = sorted)
      by (clear; induction sorted; simpl; congruence).
    now rewrite H.
  - destruct (blocks_unique_ids ensure sorted ND) as [-> ->]; [lia |].
    apply filter_partition_perm.
Qed.

Lemma scoredSorted_ids (qnorm : Vec.vec) (filtered : list RecordT) :
  NoDup (map id filtered) -> NoDup (map idOf (scoredSorted qnorm filtered)).
Proof.
  intros ND.
  apply (Permutation_NoDup (l := map idOf (scoreAll qnorm filtered))).
  - apply Permutation_map. symmetry. apply sortBy_perm.
  - unfold scoreAll. now rewrite map_map.
Qed.

Lemma NoDup_firstn {A} (k : nat) (l : list A) : NoDup l -> NoDup (firstn k l).
Proof.
  revert l; induction k as [|k IH]; intros [|x l] H; simpl; try constructor.
  - inversion H; subst. intros Hin. apply In_firstn in Hin. contradiction.
  - inversion H; subst. now apply IH.
Qed.

Lemma firstn_map {A B} (f : A -> B) (k : nat) (l : list A) :
  firstn k (map f l) = map f (firstn k l).
Proof.
  revert l; induction k as [|k IH]; intros [|x l]; simpl; try reflexivity.
  now rewrite IH.
Qed.

(** X3. The retrieval never returns more than [k] results nor more than
    there are candidates, and every result carries the cosine of its own
    embedding with the normalized query as its score.  When the ids of the
    candidates are unique it returns exactly [min k n] results, no id twice,
    and all the candidates when [k] allows, with or without ensure terms. *)
Theorem rank_size (q : Vec.vec) (filtered : list RecordT) (k : nat)
  (terms : option (list string)) :
  let result := rank q filtered k terms in
  List.length result <= Nat.min k (List.length filtered) /\
  (forall c, In c result ->
     score (scored c)
     = Vec.cosine (Vec.normalize q) (embedding (rec (scored c)))) /\
  (NoDup (map id filtered) ->
   List.length result = Nat.min k (List.length filtered) /\
   NoDup (map (fun c => id (rec (scored c))) result) /\
   (List.length filtered <= k ->
    Permutation (map (fun c => rec (scored c)) result) filtered)).
Proof.
  intros result.
  set (sorted := scoredSorted (Vec.normalize q) filtered).
  set (blocks := ensuredOf (foldedTerms terms) sorted
                 ++ restOf (ensuredOf (foldedTerms terms) sorted) sorted).
  assert (Hres : map scored result = firstn k blocks)
    by (unfold result, rank; apply compose_scored).
  assert (Hlen : List.length result = Nat.min k (List.length blocks)).
  { rewrite <- (length_map scored), Hres. apply length_firstn. }
  assert (Hsorted : List.length sorted = List.length filtered).
  { unfold sorted, scoredSorted, scoreAll. now rewrite sortBy_length, length_map. }
  split; [| split].
  - pose proof (blocks_length (foldedTerms terms) sorted) as Hb.
    fold blocks in Hb. lia.
  - intros c Hc.
    assert (Hs : In (scored c) sorted).
    { assert (H : In (scored c) (map scored result)) by now apply in_map.
      rewrite Hres in H. apply In_firstn, in_app_or in H. destruct H as [H | H].
      - unfold ensuredOf in H. destruct (0 <? _); [| destruct H].
        apply (Subseq_In _ _ _ (dedupById_Subseq _ _)) in H.
        now apply filter_In in H.
      - unfold restOf in H. now apply filter_In in H. }
    unfold sorted, scoredSorted in Hs. apply sortBy_In in Hs.
    unfold scoreAll in Hs. apply in_map_iff in Hs.
    destruct Hs as [r [<- _]]. reflexivity.
  - intros ND.
    assert (NDs : NoDup (map idOf sorted)) by now apply scoredSorted_ids.
    assert (HP : Permutation blocks sorted) by now apply blocks_perm.
    split; [| split].
    + rewrite Hlen, (Permutation_length HP). lia.
    + rewrite <- (map_map scored idOf), Hres, <- firstn_map.
      apply NoDup_firstn.
      apply (Permutation_NoDup (l := map idOf sorted)); [| exact NDs].
      apply Permutation_map. now symmetry.
    + intros Hk. rewrite <- (map_map scored rec), Hres.
      rewrite firstn_all2 by (rewrite (Permutation_length HP); lia).
      apply (Permutation_trans (l' := map rec (scoreAll (Vec.normalize q) filtered)));
        [| now rewrite scoreAll_rec].
      apply Permutation_map. rewrite HP. apply sortBy_perm.
Qed.

Lemma rank_size_witness :
  NoDup (map id Sample.tiedIndex) /\
  List.length (rank Sample.query Sample.tiedIndex 3 (Some ["ratl.ai"])) = 3 /\
  Permutation
    (map (fun c => rec (scored c))
         (rank Sample.query Sample.tiedIndex 9 (Some ["ratl.ai"])))
    Sample.tiedIndex.
Proof.
  assert (ND : NoDup (map id Sample.tiedIndex)).
  { simpl. repeat constructor; simpl; intuition discriminate. }
  split; [exact ND |].
  destruct (rank_size Sample.query Sample.tiedIndex 3 (Some ["ratl.ai"]))
    as (_ & _ & H3).
  destruct (rank_size Sample.query Sample.tiedIndex 9 (Some ["ratl.ai"]))
    as (_ & _ & H9).
  split; [exact (proj1 (H3 ND)) |].
  apply (proj2 (proj2 (H9 ND))). simpl. lia.
Defined.

(** ** Ensure terms that change nothing *)

Lemma filter_all_true {A} (l : list A) : filter (fun _ => true) l = l.
Proof. induction l; simpl; congruence. Qed.

Lemma compose_no_ensured (sorted : list Scored) (k : nat)
  (terms : option (list string)) :
  ensuredOf (foldedTerms terms) sorted = [] ->
  compose sorted k terms = citeFrom 0 (firstn k sorted).
Proof.
  intros E. unfold compose. rewrite E. unfold restOf. simpl.
  now rewrite filter_all_true.
Qed.

Lemma filter_none {A} (p : A -> bool) (l : list A) :
  (forall x, In x l -> p x = false) -> filter p l = [].
Proof.
  induction l as [|x l IH]; intros H; simpl; [reflexivity |].
  rewrite (H x) by (simpl; auto). apply IH. intros y Hy. apply H. now right.
Qed.

(** The composition reads the terms only through the matches they give. *)
Lemma compose_ext (sorted : list Scored) (k : nat) (t1 t2 : option (list string)) :
  (forall r, matchesAny (foldedTerms t1) r = matchesAny (foldedTerms t2) r) ->
  (0 <? List.length (foldedTerms t1)) = (0 <? List.length (foldedTerms t2)) ->
  compose sorted k t1 = compose sorted k t2.
Proof.
  intros Hm Hl. unfold compose, ensuredOf. rewrite Hl.
  now rewrite (filter_ext _ _ Hm).
Qed.

(** X4. Ensure terms that occur in no candidate text change nothing: the
    result is the one of the retrieval without ensure terms. *)
Theorem rank_terms_unmatched (q : Vec.vec) (filtered : list RecordT) (k : nat)
  (terms : list string) :
  (forall r t, In r filtered -> In t terms ->
     Str.includes (Str.toLowerCase (text r)) (Str.toLowerCase t) = false) ->
  rank q filtered k (Some terms) = rank q filtered k None.
Proof.
  intros H. unfold rank.
  rewrite (compose_no_terms _ k None eq_refl). apply compose_no_ensured.
  unfold ensuredOf. destruct (0 <? _); [| reflexivity].
  rewrite filter_none; [reflexivity |].
  intros x Hx. unfold scoredSorted in Hx. apply sortBy_In in Hx.
  unfold scoreAll in Hx. apply in_map_iff in Hx. destruct Hx as [r [<- Hr]].
  unfold matchesAny, foldedTerms. simpl.
  destruct (existsb _ _) eqn:E; [| reflexivity].
  apply existsb_exists in E. destruct E as [t' [Ht' Hi]].
  apply in_map_iff in Ht'. destruct Ht' as [t [<- Ht]].
  now rewrite (H r t Hr Ht) in Hi.
Qed.

Lemma rank_terms_unmatched_witness :
  rank Sample.query Sample.resumeIndex 5 (Some ["RATL.ai"])
  = rank Sample.query Sample.resumeIndex 5 None.
Proof.
  apply rank_terms_unmatched. intros r t Hr Ht.
  simpl in Hr, Ht. destruct Ht as [<- | []].
  destruct Hr as [<- | [<- | []]]; vm_compute; reflexivity.
Defined.

Lemma includes_about (s : string) :
  Str.includes s "about ratl.ai" = true -> Str.includes s "ratl.ai" = true.
Proof. apply (includes_tail s "about "). Qed.

Lemma matchesAny_about (r : Scored) :
  matchesAny ["ratl.ai"; "about ratl.ai"] r = matchesAny ["ratl.ai"] r.
Proof.
  unfold matchesAny. simpl. rewrite !orb_false_r.
  destruct (Str.includes _ "ratl.ai") eqn:E; [reflexivity |]. simpl.
  destruct (Str.includes _ "about ratl.ai") eqn:E'; [| reflexivity].
  apply includes_about in E'. congruence.
Qed.

Lemma matchesAny_about_first (r : Scored) :
  matchesAny ["ratl.ai"; "about ratl.ai"; "ratl "] r
  = matchesAny ["ratl.ai"; "ratl "] r.
Proof.
  unfold matchesAny. simpl. rewrite !orb_false_r.
  destruct (Str.includes _ "ratl.ai") eqn:E; [reflexivity |]. simpl.
  destruct (Str.includes _ "about ratl.ai") eqn:E'; [| reflexivity].
  apply includes_about in E'. congruence.
Qed.

Lemma retrieveInternal_terms_ext (w : World) (query : string) (k : nat)
  (d : option Domain) (t1 t2 : option (list string)) (log : list Event) :
  (forall sorted, compose sorted k t1 = compose sorted k t2) ->
  retrieveInternal w query k (mkOpts d t1) log
  = retrieveInternal w query k (mkOpts d t2) log.
Proof.
  intros H. rewrite !retrieveInternal_run. cbn zeta.
  destruct (fst (loadIndex w [])) as [payload | msg]; [| reflexivity].
  change (applyFilter (mkOpts d t1) payload) with (applyFilter (mkOpts d t2) payload).
  destruct (List.length (applyFilter (mkOpts d t2) payload) =? 0); [reflexivity |].
  destruct (embeddingsCreate w [query]) as [[|qv qs]|]; try reflexivity.
  simpl. unfold rank. now rewrite H.
Qed.

(** X5. The ensure term [about ratl.ai] is redundant: a text that contains
    it contains [ratl.ai].  So a question that mentions Fynd is answered
    from the retrieval that ensures [ratl.ai] alone, and the three terms of
    the first copy match what [ratl.ai] and [ratl ] match. *)
Theorem about_term_redundant (w : World) (question : string) (k : nat)
  (log : list Event) :
  ensureTermsForQuestion question <> [] ->
  answerTop w question k log
  = retrieveInternal w question k (mkOpts None (Some ["ratl.ai"])) log /\
  (forall r,
     matchesAny (foldedTerms (Some (ensureTermsForQuestion_first question))) r
     = matchesAny ["ratl.ai"; "ratl "] r).
Proof.
  intros Hne. split.
  - rewrite (answerTop_ensure w question k log Hne).
    apply retrieveInternal_terms_ext. intros sorted. apply compose_ext.
    + intros r. unfold ensureTermsForQuestion in *.
      destruct (Str.includes _ "fynd"); [| congruence].
      apply matchesAny_about.
    + unfold ensureTermsForQuestion in *.
      destruct (Str.includes _ "fynd"); [reflexivity | congruence].
  - intros r. unfold ensureTermsForQuestion, ensureTermsForQuestion_first in *.
    destruct (Str.includes _ "fynd"); [| congruence].
    apply matchesAny_about_first.
Qed.

Lemma about_term_redundant_witness :
  answerTop Sample.world Sample.question 5 []
  = retrieveInternal Sample.world Sample.question 5
      (mkOpts None (Some ["ratl.ai"])) [].
Proof.
  apply (about_term_redundant Sample.world Sample.question 5 []).
  vm_compute. discriminate.
Defined.

(** ** Classification of longer and of re-cased questions *)

Lemma lowerChar_idem (c : ascii) : Str.lowerChar (Str.lowerChar c) = Str.lowerChar c.
Proof.
  destruct c as [b0 b1 b2 b3 b4 b5 b6 b7].
  destruct b0, b1, b2, b3, b4, b5, b6, b7; reflexivity.
Qed.

Lemma toLowerCase_idem (s : string) :
  Str.toLowerCase (Str.toLowerCase s) = Str.toLowerCase s.
Proof. induction s; simpl; [| rewrite lowerChar_idem, IHs]; reflexivity. Qed.

Lemma includes_embedded (a s b k : string) :
  Str.includes s k = true -> Str.includes (a ++ s ++ b) k = true.
Proof.
  rewrite !includes_spec. intros (x & y & ->).
  exists (a ++ x)%string, (y ++ b)%string. now rewrite !append_assoc.
Qed.

Lemma someIncluded_embedded (keys : list string) (a q b : string) :
  someIncluded keys (Str.toLowerCase q) = true ->
  someIncluded keys (Str.toLowerCase (a ++ q ++ b)) = true.
Proof.
  rewrite !someIncluded_spec. intros (key & Hk & Hi). exists key. split; auto.
  rewrite !toLowerCase_app. now apply includes_embedded.
Qed.

(** X6. Putting a question inside a longer text never removes a domain from
    its classification, and never removes its ensure terms; re-casing the
    question changes neither. *)
Theorem classifyQuestion_monotone (a q b : string) :
  hintLe (classifyQuestion q) (classifyQuestion (a ++ q ++ b)) /\
  (ensureTermsForQuestion q <> [] -> ensureTermsForQuestion (a ++ q ++ b) <> []) /\
  classifyQuestion (Str.toLowerCase q) = classifyQuestion q /\
  ensureTermsForQuestion (Str.toLowerCase q) = ensureTermsForQuestion q.
Proof.
  split; [| split; [| split]].
  - pose proof (someIncluded_embedded personalKeys a q b) as HP.
    pose proof (someIncluded_embedded resumeKeys a q b) as HR.
    unfold classifyQuestion.
    destruct (someIncluded personalKeys (Str.toLowerCase q));
      destruct (someIncluded resumeKeys (Str.toLowerCase q));
      destruct (someIncluded personalKeys (Str.toLowerCase (a ++ q ++ b)));
      destruct (someIncluded resumeKeys (Str.toLowerCase (a ++ q ++ b)));
      simpl; auto;
      try discriminate (HP eq_refl); try discriminate (HR eq_refl).
  - unfold ensureTermsForQuestion.
    destruct (Str.includes (Str.toLowerCase q) "fynd") eqn:E; [| congruence].
    intros _. rewrite !toLowerCase_app.
    rewrite (includes_embedded _ _ _ _ E). discriminate.
  - unfold classifyQuestion. now rewrite toLowerCase_idem.
  - unfold ensureTermsForQuestion. now rewrite toLowerCase_idem.
Qed.

(** ** [retrieveChunks] and [indexInfo] *)

Lemma rank_nil (q : Vec.vec) (k : nat) (terms : option (list string)) :
  rank q [] k terms = [].
Proof.
  unfold rank, compose, ensuredOf. simpl.
  destruct (0 <? _); simpl; now destruct k.
Qed.

Lemma rank_length_k (q : Vec.vec) (filtered : list RecordT) (k : nat)
  (terms : option (list string)) :
  List.length (rank q filtered k terms) <= k.
Proof.
  rewrite <- (length_map scored). unfold rank. rewrite compose_scored.
  apply firstn_le_length.
Qed.

(** What a successful retrieval returns is a ranking of the filtered index. *)
Lemma retrieveInternal_results (w : World) (query : string) (k : nat)
  (opts : RetrieveOptions) (log : list Event) (results : list Cited) :
  fst (retrieveInternal w query k opts log) = Ok results ->
  exists payload qv,
    fst (loadIndex w []) = Ok payload /\
    results = rank qv (applyFilter opts payload) k (ensureTerms opts).
Proof.
  rewrite retrieveInternal_run. cbn zeta.
  destruct (fst (loadIndex w [])) as [payload | msg]; [| discriminate].
  destruct (applyFilter opts payload) as [|r rs] eqn:E; simpl.
  - intros [= <-]. exists payload, []. rewrite E, rank_nil. auto.
  - destruct (embeddingsCreate w [query]) as [[|qv qs]|]; try discriminate.
    intros [= <-]. exists payload, qv. now rewrite E.
Qed.

Lemma retrieveInternal_log (w : World) (query : string) (k : nat)
  (opts : RetrieveOptions) (log : list Event) :
  exists es, snd (retrieveInternal w query k opts log) = log ++ es /\
             Forall readOrEmbed es.
Proof.
  rewrite retrieveInternal_run. cbn zeta.
  destruct (fst (loadIndex w [])) as [payload | msg].
  - destruct (List.length (applyFilter opts payload) =? 0).
    + exists [EvRead (resolveIndexPath w)]. split; [reflexivity |].
      repeat constructor.
    + exists [EvRead (resolveIndexPath w); EvEmbed [query]].
      split; [simpl; now rewrite <- app_assoc | repeat constructor].
  - exists [EvRead (resolveIndexPath w)]. split; [reflexivity | repeat constructor].
Qed.

Lemma applyFilter_domain (d : Domain) (terms : option (list string))
  (payload : list RecordT) (r : RecordT) :
  In r (applyFilter (mkOpts (Some d) terms) payload) -> domainOrResume r = d.
Proof.
  unfold applyFilter. simpl. intros H. apply filter_In in H.
  destruct H as [_ H]. destruct (domainOrResume r), d; simpl in H; congruence.
Qed.

(** X7. [retrieveChunks] performs the effects of one retrieval and fails
    when it fails.  On success it returns the same records in the same
    order, at most [k] of them, cited [C1..Cn], each with an explicit domain:
    the requested one when a domain is given, and otherwise the record's own
    or [resume] for a record without one. *)
Theorem retrieveChunks_spec (w : World) (query : string) (k : nat)
  (domain : option Domain) (log : list Event) :
  let opts := match domain with
              | Some d => mkOpts (Some d) None
              | None => noOpts
              end in
  let r := retrieveInternal w query k opts log in
  snd (retrieveChunks w query k domain log) = snd r /\
  (forall msg, fst r = Throw msg ->
     fst (retrieveChunks w query k domain log) = Throw msg) /\
  (forall results, fst r = Ok results ->
     exists chunks,
       fst (retrieveChunks w query k domain log) = Ok chunks /\
       map Chunk.id chunks = map (fun c => id (rec (scored c))) results /\
       map Chunk.text chunks = map (fun c => text (rec (scored c))) results /\
       map Chunk.score chunks = map (fun c => score (scored c)) results /\
       map Chunk.domain chunks
         = map (fun c => domainOrResume (rec (scored c))) results /\
       map Chunk.cid chunks = citations (List.length chunks) /\
       List.length chunks <= k /\
       (forall d, domain = Some d ->
          Forall (fun c => Chunk.domain c = d) chunks)).
Proof.
  intros opts r. unfold retrieveChunks. fold opts. unfold bind. fold r.
  destruct r as [[results | msg] log'] eqn:Er; cbn [fst snd].
  - split; [reflexivity |]. split; [discriminate |].
    intros results' [= <-].
    assert (Hr : fst (retrieveInternal w query k opts log) = Ok results)
      by (fold r; now rewrite Er).
    destruct (retrieveInternal_results _ _ _ _ _ _ Hr) as (payload & qv & _ & Hrank).
    eexists. split; [reflexivity |].
    rewrite !map_map, length_map. cbn [Chunk.id Chunk.text Chunk.score Chunk.domain Chunk.cid].
    repeat split; try reflexivity.
    + rewrite Hrank at 1. unfold rank. rewrite compose_cid. now rewrite Hrank.
    + rewrite Hrank. apply rank_length_k.
    + intros d ->. apply Forall_forall. intros c Hc.
      apply in_map_iff in Hc. destruct Hc as [x [<- Hx]]. simpl.
      rewrite Hrank in Hx. apply rank_sound in Hx.
      now apply applyFilter_domain in Hx.
  - split; [reflexivity |]. split; [now intros m [= <-] | discriminate].
Qed.

Lemma retrieveChunks_spec_witness :
  exists chunks,
    fst (retrieveChunks Sample.world "Which company?" 5 (Some Resume) []) = Ok chunks /\
    map Chunk.id chunks = [0%Z; 2%Z] /\
    map Chunk.cid chunks = ["C1"; "C2"] /\
    Forall (fun c => Chunk.domain c = Resume) chunks.
Proof.
  destruct (retrieveChunks_spec Sample.world "Which company?" 5 (Some Resume) [])
    as (_ & _ & Hok).
  destruct (Hok _ eq_refl) as (chunks & Hrun & Hid & _ & _ & _ & Hcid & _ & Hdom).
  exists chunks. split; [exact Hrun |].
  assert (E : List.length chunks = 2).
  { rewrite <- (length_map Chunk.id), Hid. reflexivity. }
  split; [rewrite Hid; vm_compute; reflexivity |].
  split; [rewrite Hcid, E; reflexivity | now apply Hdom].
Defined.

Lemma countInto_fold (d : Domain) (l : list RecordT) :
  forall acc, countOf d acc <> Some 0 ->
  countOf d (fold_left countInto l acc)
  = (let n := orZero (countOf d acc)
              + List.length (filter (fun r => Domain_eqb (domainOrResume r) d) l) in
     if n =? 0 then None else Some n).
Proof.
  induction l as [|r l IH]; intros acc Hacc; cbn [fold_left].
  - simpl. rewrite Nat.add_0_r.
    destruct (countOf d acc) as [[|n]|]; simpl; congruence.
  - assert (E : orZero (countOf d (countInto acc r))
                + List.length (filter (fun r => Domain_eqb (domainOrResume r) d) l)
                = orZero (countOf d acc)
                  + List.length
                      (filter (fun r => Domain_eqb (domainOrResume r) d) (r :: l))).
    { unfold countInto. cbn [filter].
      destruct (domainOrResume r), d; simpl; lia. }
    rewrite IH.
    + cbv zeta. now rewrite E.
    + unfold countInto.
      destruct (domainOrResume r), d; simpl; try exact Hacc;
        rewrite Nat.add_1_r; discriminate.
Qed.

Lemma domain_split_length (l : list RecordT) :
  List.length (filter (fun r => Domain_eqb (domainOrResume r) Resume) l)
  + List.length (filter (fun r => Domain_eqb (domainOrResume r) Personal) l)
  = List.length l.
Proof.
  induction l as [|r l IH]; simpl; [reflexivity |].
  destruct (domainOrResume r); simpl; lia.
Qed.

(** X8. [indexInfo] fails when the index does not load.  Otherwise the
    total is the number of records, at least one, and the two counts add up
    to it; a record without a domain counts as [resume], and a domain has a
    key in [byDomain] exactly when a record of the domain exists. *)
Theorem indexInfo_counts (w : World) (log : list Event) :
  snd (indexInfo w log) = snd (loadIndex w log) /\
  (forall msg, fst (loadIndex w log) = Throw msg ->
     fst (indexInfo w log) = Throw msg) /\
  (forall payload, fst (loadIndex w log) = Ok payload ->
     exists byDomain,
       fst (indexInfo w log) = Ok (List.length payload, byDomain) /\
       1 <= List.length payload /\
       orZero (resumeCount byDomain) + orZero (personalCount byDomain)
         = List.length payload /\
       forall d,
         let n := List.length
                    (filter (fun r => Domain_eqb (domainOrResume r) d) payload) in
         countOf d byDomain = (if n =? 0 then None else Some n)).
Proof.
  unfold indexInfo, bind, ret.
  destruct (loadIndex w log) as [[payload | msg] log'] eqn:El; cbn [fst snd].
  - split; [reflexivity |]. split; [discriminate |].
    intros payload' [= <-]. eexists. split; [reflexivity |].
    assert (Hc : forall d,
              countOf d (fold_left countInto payload (mkByDomain None None))
              = (let n := List.length
                            (filter (fun r => Domain_eqb (domainOrResume r) d) payload) in
                 if n =? 0 then None else Some n)).
    { intros d. rewrite countInto_fold by (destruct d; discriminate).
      now destruct d. }
    split; [| split; [| exact Hc]].
    + destruct payload; [| simpl; lia].
      rewrite loadIndex_run in El. injection El as El _.
      destruct (files w _); [| discriminate].
      destruct (jsonParse w _) as [[[|]|]|]; discriminate.
    + pose proof (Hc Resume) as HR. pose proof (Hc Personal) as HP.
      pose proof (domain_split_length payload) as Hs.
      cbn [countOf] in HR, HP. cbv zeta in HR, HP. rewrite HR, HP.
      destruct (List.length (filter _ payload)) eqn:E1 in |- *;
        destruct (List.length (filter (fun r => Domain_eqb (domainOrResume r) Personal) payload)) eqn:E2;
        simpl; rewrite ?E1, ?E2 in Hs; simpl in *; lia.
  - split; [reflexivity |]. split; [now intros m [= <-] | discriminate].
Qed.

Lemma indexInfo_counts_witness :
  exists byDomain,
    fst (indexInfo Sample.resumeWorld []) = Ok (2, byDomain) /\
    countOf Resume byDomain = Some 2 /\ countOf Personal byDomain = None.
Proof.
  destruct (indexInfo_counts Sample.resumeWorld []) as (_ & _ & Hok).
  destruct (Hok Sample.resumeIndex eq_refl) as (b & Hrun & _ & _ & Hc).
  exists b. split; [exact Hrun |].
  split; [exact (Hc Resume) | exact (Hc Personal)].
Defined.

Lemma indexInfo_run (w : World) (log : list Event) :
  indexInfo w log =
  (match fst (loadIndex w []) with
   | Ok payload =>
       Ok (List.length payload, fold_left countInto payload (mkByDomain None None))
   | Throw msg => Throw msg
   end, log ++ [EvRead (resolveIndexPath w)]).
Proof.
  unfold indexInfo, bind, ret. rewrite loadIndex_any_log.
  now destruct (fst (loadIndex w [])).
Qed.

(** X9. [indexInfo] and the domain filter agree: a retrieval filtered to a
    domain returns the empty list without calling the embeddings endpoint
    exactly when [indexInfo] reports no count for the domain. *)
Theorem indexInfo_filter (w : World) (query : string) (k : nat) (d : Domain)
  (terms : option (list string)) (log : list Event) (n : nat) (b : ByDomain) :
  fst (indexInfo w log) = Ok (n, b) ->
  (countOf d b = None <->
   retrieveInternal w query k (mkOpts (Some d) terms) log
   = (Ok [], log ++ [EvRead (resolveIndexPath w)])).
Proof.
  rewrite indexInfo_run, retrieveInternal_run. cbn [fst]. cbv zeta.
  destruct (fst (loadIndex w [])) as [payload | msg]; [| discriminate].
  intros [= <- <-]. rewrite countInto_fold by (destruct d; discriminate).
  assert (E : orZero (countOf d (mkByDomain None None)) = 0) by now destruct d.
  cbv zeta. rewrite E. cbn [Nat.add].
  change (filter (fun r => Domain_eqb (domainOrResume r) d) payload)
    with (applyFilter (mkOpts (Some d) terms) payload).
  destruct (List.length (applyFilter (mkOpts (Some d) terms) payload) =? 0).
  - split; reflexivity.
  - split; [discriminate |]. intros [= _ H].
    apply (f_equal (@List.length Event)) in H.
    rewrite !length_app in H. simpl in H. lia.
Qed.

Lemma indexInfo_filter_witness :
  retrieveInternal Sample.resumeWorld "Any hobbies?" 5 (mkOpts (Some Personal) None) []
  = (Ok [], [EvRead "/srv/app/index/knowledge.index.json"]).
Proof.
  apply (indexInfo_filter Sample.resumeWorld "Any hobbies?" 5 Personal None []
           2 (mkByDomain (Some 2) None)); reflexivity.
Defined.

(** ** What [answer] does and sends *)

Lemma includes_refl (s : string) : Str.includes s s = true.
Proof. apply includes_spec. exists "", "". simpl. now rewrite append_nil_r. Qed.

Lemma includes_app_r (p s t : string) :
  Str.includes s t = true -> Str.includes (p ++ s) t = true.
Proof.
  intros H. apply (includes_embedded p s "" t) in H. now rewrite append_nil_r in H.
Qed.

Lemma includes_app_l (s r t : string) :
  Str.includes s t = true -> Str.includes (s ++ r) t = true.
Proof. intros H. exact (includes_embedded "" s r t H). Qed.

Lemma includes_join (sep x : string) (l : list string) :
  In x l -> Str.includes (Str.join sep l) x = true.
Proof.
  induction l as [|y l IH]; [intros [] |].
  intros [-> | Hx].
  - destruct l; simpl; [apply includes_refl |].
    apply includes_app_l, includes_refl.
  - destruct l as [|z l]; [destruct Hx |].
    change (Str.join sep (y :: z :: l))
      with (y ++ sep ++ Str.join sep (z :: l))%string.
    do 2 apply includes_app_r. now apply IH.
Qed.

Lemma answerTop_log (w : World) (question : string) (k : nat) (log : list Event) :
  exists es, snd (answerTop w question k log) = log ++ es /\ Forall readOrEmbed es.
Proof.
  unfold answerTop.
  destruct (0 <? _); [apply retrieveInternal_log |].
  destruct (classifyQuestion question) as [[|]| |]; try apply retrieveInternal_log.
  unfold bind.
  destruct (retrieveInternal_log w question k (mkOpts (Some Personal) None) log)
    as (es1 & H1 & F1).
  destruct (retrieveInternal w question k (mkOpts (Some Personal) None) log)
    as [[top | msg] log1]; cbn [snd] in *; [| eauto].
  destruct (List.length top =? 0); [| unfold ret; simpl; eauto].
  destruct (retrieveInternal_log w question k noOpts log1) as (es2 & H2 & F2).
  exists (es1 ++ es2). rewrite H2, H1, app_assoc. split; [reflexivity |].
  apply Forall_app. auto.
Qed.

(** What the retrieval stage returns comes from one retrieval. *)
Lemma answerTop_results (w : World) (question : string) (k : nat)
  (log : list Event) (top : list Cited) :
  fst (answerTop w question k log) = Ok top ->
  exists opts log', fst (retrieveInternal w question k opts log') = Ok top.
Proof.
  unfold answerTop.
  destruct (0 <? _); [eauto |].
  destruct (classifyQuestion question) as [[|]| |]; eauto.
  unfold bind.
  destruct (retrieveInternal w question k (mkOpts (Some Personal) None) log)
    as [[top1 | msg] log1] eqn:E; [| discriminate].
  destruct (List.length top1 =? 0); [eauto |].
  unfold ret. simpl. intros [= <-].
  exists (mkOpts (Some Personal) None), log. now rewrite E.
Qed.

Lemma answerTop_cited (w : World) (question : string) (k : nat)
  (log : list Event) (top : list Cited) :
  fst (answerTop w question k log) = Ok top ->
  map cid top = citations (List.length top) /\ List.length top <= k.
Proof.
  intros H. apply answerTop_results in H. destruct H as (opts & log' & H).
  apply retrieveInternal_results in H. destruct H as (payload & qv & _ & ->).
  split; [apply compose_cid | apply rank_length_k].
Qed.

Lemma answer_run (w : World) (question : string) (k : nat) (log : list Event) :
  answer w question k log =
  match answerTop w question k log with
  | (Throw msg, log') => (Throw msg, log')
  | (Ok top, log') =>
      let user :=
        userPrompt
          (Str.join (Str.nl ++ Str.nl ++ "---" ++ Str.nl ++ Str.nl)%string
             (map (fun t => text (rec (scored t))) top)) question in
      (match chatCreate w systemPrompt user with
       | Some content => Ok (orEmpty content)
       | None => Throw "chat request failed"
       end, log' ++ [EvChat systemPrompt user])
  end.
Proof.
  unfold answer, bind at 1.
  destruct (answerTop w question k log) as [[top | msg] log']; [| reflexivity].
  unfold bind, emit, orThrow, ret, throw. cbv zeta.
  destruct (chatCreate w systemPrompt _) as [[s|]|]; reflexivity.
Qed.

Lemma userPrompt_includes (contextBlock question : string) :
  Str.includes (userPrompt contextBlock question) question = true /\
  Str.includes (userPrompt contextBlock question) contextBlock = true.
Proof.
  unfold userPrompt. split.
  - do 7 apply includes_app_r. apply includes_app_l, includes_refl.
  - do 3 apply includes_app_r. apply includes_app_l, includes_refl.
Qed.

Lemma includes_trans (s t u : string) :
  Str.includes s t = true -> Str.includes t u = true -> Str.includes s u = true.
Proof.
  rewrite !includes_spec. intros (a & b & ->) (c & d & ->).
  exists (a ++ c)%string, (d ++ b)%string. now rewrite !append_assoc.
Qed.

(** X10. [answer] writes nothing.  When the retrieval fails it fails with
    the same error and sends no chat request.  Otherwise it sends exactly
    one, after the retrieval, and the user message of that request contains
    the question and the text of every retrieved record; the output is the
    content of the reply, the empty string when the reply has none, and an
    error when the request fails. *)
Theorem answer_effects (w : World) (question : string) (k : nat)
  (log : list Event) :
  exists es,
    snd (answerTop w question k log) = log ++ es /\
    Forall readOrEmbed es /\
    (forall msg, fst (answerTop w question k log) = Throw msg ->
       answer w question k log = (Throw msg, log ++ es)) /\
    (forall top, fst (answerTop w question k log) = Ok top ->
       exists user,
         snd (answer w question k log) = log ++ es ++ [EvChat systemPrompt user] /\
         Str.includes user question = true /\
         (forall t, In t top ->
            Str.includes user (text (rec (scored t))) = true) /\
         fst (answer w question k log)
         = match chatCreate w systemPrompt user with
           | Some content => Ok (orEmpty content)
           | None => Throw "chat request failed"
           end).
Proof.
  destruct (answerTop_log w question k log) as (es & Hlog & Hes).
  exists es. split; [exact Hlog |]. split; [exact Hes |].
  rewrite answer_run.
  destruct (answerTop w question k log) as [[top | msg] log']; cbn [fst snd] in *.
  - split; [discriminate |]. intros top' [= <-].
    eexists. cbv zeta. cbn [fst snd]. rewrite Hlog, <- app_assoc.
    split; [reflexivity |].
    split; [apply userPrompt_includes |]. split; [| reflexivity].
    intros t Ht.
    apply (includes_trans _ _ _ (proj2 (userPrompt_includes _ _))).
    apply includes_join. now apply (in_map (fun t => text (rec (scored t)))).
  - split; [| discriminate]. intros m [= <-]. now rewrite Hlog.
Qed.

Lemma answer_effects_witness :
  fst (answer Sample.world Sample.question 5 []) = Ok "- Answer." /\
  exists user,
    snd (answer Sample.world Sample.question 5 [])
    = [EvRead "/srv/app/index/knowledge.index.json"; EvEmbed [Sample.question];
       EvChat systemPrompt user] /\
    Str.includes user (text Sample.recRatl) = true.
Proof.
  split; [vm_compute; reflexivity |].
  destruct (answer_effects Sample.world Sample.question 5 [])
    as (es & Hlog & _ & _ & Hok).
  assert (Hes : es = [EvRead "/srv/app/index/knowledge.index.json";
                      EvEmbed [Sample.question]]).
  { apply (app_inv_head []). rewrite <- Hlog. vm_compute. reflexivity. }
  destruct (Hok _ eq_refl) as (user & Hsnd & _ & Htexts & _).
  exists user. split; [now rewrite Hsnd, Hes |].
  assert (Htop : exists c, In c (rank Sample.query
                     [Sample.recFynd; Sample.recRatl; Sample.recLegacy] 5
                     (Some (ensureTermsForQuestion Sample.question)))
                 /\ rec (scored c) = Sample.recRatl).
  { eexists. split; [left; reflexivity | reflexivity]. }
  destruct Htop as (c & Hc & <-). now apply Htexts.
Defined.

(** ** The command-line copy: citations in the prompt, and previews *)

Lemma answerCited_run (w : World) (question : string) (k : nat) (log : list Event) :
  answerCited w question k log =
  match answerTop w question k log with
  | (Throw msg, log') => (Throw msg, log')
  | (Ok top, log') =>
      let used := map (fun t => Citation.mk (cid t) (text (rec (scored t)))) top in
      let system := buildSystemPrompt (classifyQuestion question) in
      let user := citedUserPrompt (formatContext used) question in
      (match chatCreate w system user with
       | Some content => Ok (orEmpty content, used)
       | None => Throw "chat request failed"
       end, log' ++ [EvChat system user])
  end.
Proof.
  unfold answerCited, bind at 1.
  destruct (answerTop w question k log) as [[top | msg] log']; [| reflexivity].
  unfold bind, emit, orThrow, ret, throw. cbv zeta.
  destruct (chatCreate w _ _) as [[s|]|]; reflexivity.
Qed.

Lemma citedUserPrompt_includes (contextBlock question : string) :
  Str.includes (citedUserPrompt contextBlock question) question = true /\
  Str.includes (citedUserPrompt contextBlock question) contextBlock = true.
Proof.
  unfold citedUserPrompt. split.
  - do 7 apply includes_app_r. apply includes_app_l, includes_refl.
  - do 3 apply includes_app_r. apply includes_app_l, includes_refl.
Qed.

(** X11. When [answer] of the command-line copy succeeds, [used] lists the
    retrieved records in order, at most [k], with the citation ids
    [C1..Cn]; the chat request it sent carries the system prompt of the
    question's classification, and its user message contains the question
    and every used text behind its bracketed citation id. *)
Theorem answerCited_spec (w : World) (question : string) (k : nat)
  (log : list Event) (output : string) (used : list Citation.t) :
  fst (answerCited w question k log) = Ok (output, used) ->
  exists top user,
    fst (answerTop w question k log) = Ok top /\
    map Citation.text used = map (fun t => text (rec (scored t))) top /\
    map Citation.cid used = citations (List.length used) /\
    List.length used <= k /\
    snd (answerCited w question k log)
    = snd (answerTop w question k log)
      ++ [EvChat (buildSystemPrompt (classifyQuestion question)) user] /\
    chatCreate w (buildSystemPrompt (classifyQuestion question)) user <> None /\
    Str.includes user question = true /\
    (forall c, In c used ->
       Str.includes user ("[" ++ Citation.cid c ++ "] " ++ Citation.text c) = true).
Proof.
  rewrite answerCited_run.
  destruct (answerTop w question k log) as [[top | msg] log'] eqn:Et;
    [| discriminate].
  cbv zeta. cbn [fst snd].
  set (usedOf := map (fun t => Citation.mk (cid t) (text (rec (scored t)))) top).
  set (user := citedUserPrompt (formatContext usedOf) question).
  destruct (chatCreate w _ user) as [content|] eqn:Ec; [| discriminate].
  intros [= _ <-].
  assert (Htop : fst (answerTop w question k log) = Ok top) by now rewrite Et.
  destruct (answerTop_cited _ _ _ _ _ Htop) as [Hcid Hlen].
  exists top, user. split; [reflexivity |].
  unfold usedOf. rewrite !map_map, length_map. cbn [Citation.cid Citation.text].
  split; [reflexivity |]. split; [exact Hcid |]. split; [exact Hlen |].
  split; [reflexivity |]. split; [congruence |].
  split; [apply citedUserPrompt_includes |].
  intros c Hc.
  apply (includes_trans _ _ _ (proj2 (citedUserPrompt_includes _ _))).
  unfold formatContext. apply includes_join.
  now apply (in_map tagged) in Hc.
Qed.

Lemma answerCited_spec_witness :
  exists used,
    fst (answerCited Sample.world Sample.question 5 []) = Ok ("- Answer.", used) /\
    map Citation.cid used = ["C1"; "C2"; "C3"].
Proof.
  assert (H : exists used,
            fst (answerCited Sample.world Sample.question 5 []) = Ok ("- Answer.", used))
    by (eexists; vm_compute; reflexivity).
  destruct H as [used H]. exists used. split; [exact H |].
  destruct (answerCited_spec _ _ _ _ _ _ H) as (top & user & Ht & Htext & Hcid & _).
  assert (E : List.length used = 3).
  { rewrite <- (length_map Citation.text), Htext, length_map.
    injection Ht as <-. reflexivity. }
  now rewrite Hcid, E.
Defined.

Lemma substring_prefix (n : nat) (s : string) :
  Str.startsWith s (String.substring 0 n s) = true /\
  String.length (String.substring 0 n s) = Nat.min n (String.length s).
Proof.
  revert s; induction n as [|n IH]; intros [|c s]; simpl; auto.
  destruct (IH s) as [H1 H2]. now rewrite Ascii.eqb_refl, H1, H2.
Qed.

Lemma length_append (a b : string) :
  String.length (a ++ b) = String.length a + String.length b.
Proof. induction a; simpl; congruence. Qed.

(** X12. The preview of a citation is the first 200 characters of its text,
    or all of it when it is shorter, followed by three dots exactly when the
    text has more than 200 characters: it never exceeds 203 characters.
    [main] stops before any effect when the key is not set or no argument
    is given; otherwise it prints three lines and one line for each used
    citation. *)
Theorem main_output (w : World) (args : list string) (log : list Event) :
  (forall t, exists head,
     preview t = (head ++ (if (200 <? String.length t)%nat then "..." else ""))%string /\
     Str.startsWith t head = true /\
     String.length head = Nat.min 200 (String.length t) /\
     String.length (preview t) <= 203) /\
  (apiKeySet w = false \/ args = [] ->
     exists msg, main w args log = (Throw msg, log)) /\
  (forall lines, fst (main w args log) = Ok lines ->
     exists output used,
       fst (answerCited w (Str.join " " args) 5 log) = Ok (output, used) /\
       snd (main w args log) = snd (answerCited w (Str.join " " args) 5 log) /\
       List.length lines = 3 + List.length used /\
       skipn 3 lines
       = map (fun u => ("[" ++ Citation.cid u ++ "] "
                        ++ preview (Citation.text u))%string) used).
Proof.
  split; [| split].
  - intros t. unfold preview.
    destruct (substring_prefix 200 t) as [H1 H2].
    destruct (200 <? String.length t) eqn:E.
    + exists (String.substring 0 200 t). apply Nat.ltb_lt in E.
      repeat split; auto. rewrite length_append, H2.
      change (String.length "...") with 3. lia.
    + exists t. apply Nat.ltb_ge in E. rewrite append_nil_r.
      repeat split; try lia.
      apply startsWith_spec. exists "". now rewrite append_nil_r.
  - unfold main. intros [-> | ->]; simpl; [eexists; reflexivity |].
    destruct (apiKeySet w); simpl; eexists; reflexivity.
  - intros lines. unfold main.
    destruct (apiKeySet w); simpl; [| discriminate].
    destruct args as [|a args]; [discriminate |]. cbn [List.length Nat.eqb].
    unfold bind.
    destruct (answerCited w (Str.join " " (a :: args)) 5 log)
      as [[[output used] | msg] log']; [| discriminate].
    unfold ret. cbn [fst snd]. intros [= <-].
    exists output, used. repeat split.
    simpl. now rewrite length_map.
Qed.

Lemma main_output_witness :
  exists msg, main Sample.world [] [] = (Throw msg, []).
Proof.
  destruct (main_output Sample.world [] []) as (_ & Hstop & _).
  apply Hstop. now right.
Defined.

(** ** The build: batches, records, failures *)

Lemma embedLoop_ok (w : World) (chunkTexts : list string) (iters : nat) :
  forall i acc log embeddings log',
  embedLoop w iters i chunkTexts acc log = (Ok embeddings, log') ->
  log' = log ++ map EvEmbed (batchesFrom iters i chunkTexts).
Proof.
  induction iters as [|n IH]; intros i acc log embeddings log'; simpl.
  - unfold ret. intros [= _ <-]. now rewrite app_nil_r.
  - unfold embedBatch, bind at 1, bind at 1, emit, orThrow.
    destruct (embeddingsCreate w _) as [data|]; [| discriminate].
    unfold bind, ret. intros H. apply IH in H. now rewrite H, <- app_assoc.
Qed.

Lemma slice_skipn {A} (i n : nat) (l : list A) :
  slice i (i + n) l = firstn n (skipn i l).
Proof. unfold slice. now replace (i + n - i) with n by lia. Qed.

Lemma skipn_add {A} (i n : nat) (l : list A) :
  skipn (i + n) l = skipn n (skipn i l).
Proof. rewrite skipn_skipn. f_equal. lia. Qed.

Lemma batches_concat (chunkTexts : list string) (iters : nat) :
  forall i, List.length chunkTexts - i <= iters * BATCH ->
  List.concat (batchesFrom iters i chunkTexts) = skipn i chunkTexts.
Proof.
  unfold BATCH.
  induction iters as [|n IH]; intros i H; simpl.
  - symmetry. apply skipn_all2. lia.
  - change BATCH with 64. rewrite IH by lia.
    rewrite slice_skipn, skipn_add. apply firstn_skipn.
Qed.

Lemma batches_sizes (chunkTexts : list string) (iters : nat) :
  forall i, (iters = 0 \/ (iters - 1) * BATCH < List.length chunkTexts - i) ->
  Forall (fun b => 1 <= List.length b <= BATCH) (batchesFrom iters i chunkTexts).
Proof.
  unfold BATCH.
  induction iters as [|n IH]; intros i H; simpl; [constructor |].
  destruct H as [H | H]; [discriminate |]. constructor.
  - change BATCH with 64. rewrite slice_skipn, length_firstn, length_skipn.
    lia.
  - change BATCH with 64.
    apply IH. destruct n as [|n]; [now left | right]. lia.
Qed.

Lemma batches_length (iters i : nat) (chunkTexts : list string) :
  List.length (batchesFrom iters i chunkTexts) = iters.
Proof. revert i; induction iters; intros i; simpl; congruence. Qed.

Lemma trip_count (n : nat) :
  let iters := (n + (BATCH - 1)) / BATCH in
  n <= iters * BATCH /\ (iters = 0 \/ (iters - 1) * BATCH < n).
Proof.
  unfold BATCH. cbv zeta. change (64 - 1) with 63.
  pose proof (Nat.div_mod_eq (n + 63) 64) as E.
  pose proof (Nat.mod_upper_bound (n + 63) 64 ltac:(lia)) as B.
  split; [lia |].
  destruct ((n + 63) / 64) as [|q] eqn:Q; [now left | right]. simpl. lia.
Qed.

(** A successful build, step by step. *)
Lemma buildIndex_ok (w : World) (x : Extractors) (log log' : list Event) :
  buildIndex w x log = (Ok tt, log') ->
  exists docs embeddings log1 log2,
    apiKeySet w = true /\ loadDocuments w x log = (Ok docs, log1) /\
    embedLoop w ((List.length (map fst (chunkDocs w docs)) + (BATCH - 1)) / BATCH)
              0 (map fst (chunkDocs w docs)) [] log1 = (Ok embeddings, log2) /\
    writable w (cwd w ++ "/index/knowledge.index.json") = true /\
    log' = log2 ++ [EvWrite (cwd w ++ "/index/knowledge.index.json")
                      (recordsFrom 0 (chunkDocs w docs) embeddings)].
Proof.
  unfold buildIndex.
  destruct (apiKeySet w); cbn [negb]; [| discriminate].
  unfold bind at 1.
  destruct (loadDocuments w x log) as [[docs | msg] log1]; [| discriminate].
  unfold bind.
  destruct (embedLoop w _ 0 (map fst (chunkDocs w docs)) [] log1)
    as [[embeddings | msg] log2] eqn:E; [| discriminate].
  unfold writeFile.
  destruct (writable w (cwd w ++ "/index/knowledge.index.json"));
    [| discriminate].
  unfold emit. intros [= <-]. exists docs, embeddings, log1, log2. auto.
Qed.

(** The embedding loop makes embedding requests only, also when it fails. *)
Lemma embedLoop_embeds (w : World) (chunkTexts : list string) (iters : nat) :
  forall i acc log,
  exists batches,
    snd (embedLoop w iters i chunkTexts acc log) = log ++ map EvEmbed batches.
Proof.
  induction iters as [|n IH]; intros i acc log; simpl.
  - exists []. simpl. now rewrite app_nil_r.
  - unfold embedBatch, bind at 1, bind at 1, emit, orThrow.
    destruct (embeddingsCreate w _) as [data|].
    + unfold bind, ret.
      destruct (IH (i + BATCH) (acc ++ map Vec.normalize data)
                   (log ++ [EvEmbed (slice i (i + BATCH) chunkTexts)]))
        as (batches & ->).
      exists (slice i (i + BATCH) chunkTexts :: batches).
      now rewrite <- app_assoc.
    + exists [slice i (i + BATCH) chunkTexts]. reflexivity.
Qed.

Lemma recordsFrom_length (i : nat) (chunks : list (string * (string * Domain)))
  (embeddings : list Vec.vec) :
  List.length (recordsFrom i chunks embeddings) = List.length chunks.
Proof.
  rewrite <- (length_map Built.text), recordsFrom_text. apply length_map.
Qed.

(** X13. A successful build reads the file of each document it loads,
    then embeds the chunk texts in order, in batches of at most 64 that are
    never empty, each sent once, then writes the index, and does nothing
    else: the inputs of its embedding requests, put end to end, are the
    texts of the records it writes, and their number is the number of texts
    divided by 64, rounded up. *)
Theorem buildIndex_batches (w : World) (x : Extractors) (log log' : list Event) :
  buildIndex w x log = (Ok tt, log') ->
  exists docs batches records,
    fst (loadDocuments w x log) = Ok docs /\
    log' = log ++ map (fun d => EvRead (docPath w d)) docs
               ++ map EvEmbed batches
               ++ [EvWrite (cwd w ++ "/index/knowledge.index.json") records] /\
    List.concat batches = map Built.text records /\
    Forall (fun b => 1 <= List.length b <= 64) batches /\
    List.length batches = (List.length records + 63) / 64.
Proof.
  intros H. apply buildIndex_ok in H.
  destruct H as (docs & embeddings & log1 & log2 & _ & Hload & Hloop & _ & ->).
  set (texts := map fst (chunkDocs w docs)) in *.
  destruct (trip_count (List.length texts)) as [Hup Hlow].
  apply embedLoop_ok in Hloop. subst log2.
  destruct (loadDocuments_reads w x log) as (ps & Hps & Hout).
  rewrite Hload in Hps, Hout. cbn [fst snd] in Hps, Hout.
  rewrite (Hout docs eq_refl), map_map in Hps. subst log1.
  exists docs. eexists _, _. split; [now rewrite Hload |].
  split; [now rewrite <- !app_assoc |].
  rewrite recordsFrom_text, recordsFrom_length, batches_length.
  fold texts. split; [| split].
  - rewrite batches_concat by lia. reflexivity.
  - apply batches_sizes. rewrite Nat.sub_0_r. exact Hlow.
  - unfold texts. now rewrite length_map.
Qed.

Lemma buildIndex_batches_witness :
  exists batches records,
    snd (buildIndex Sample.world More.extractors [])
    = [EvRead "/srv/app/data/resume.md"] ++ map EvEmbed batches
      ++ [EvWrite "/srv/app/index/knowledge.index.json" records] /\
    List.concat batches = map Built.text records /\
    Forall (fun b => 1 <= List.length b <= 64) batches.
Proof.
  destruct (buildIndex_batches Sample.world More.extractors []
              (snd (buildIndex Sample.world More.extractors [])))
    as (docs & batches & records & Hdocs & Hlog & Hcat & Hsize & _).
  - vm_compute. reflexivity.
  - exists batches, records. split; [| auto].
    rewrite Hlog. injection Hdocs as <-. reflexivity.
Defined.

Lemma recordsFrom_id (i : nat) (chunks : list (string * (string * Domain)))
  (embeddings : list Vec.vec) :
  map Built.id (recordsFrom i chunks embeddings) = seq i (List.length chunks).
Proof.
  revert i; induction chunks as [|[ch [src dom]] chunks IH]; intros i; simpl;
    [reflexivity |].
  now rewrite IH.
Qed.

Lemma recordsFrom_meta (i : nat) (chunks : list (string * (string * Domain)))
  (embeddings : list Vec.vec) :
  map (fun r => (Built.text r, Built.source r, Built.domain r))
      (recordsFrom i chunks embeddings)
  = map (fun c => (fst c, fst (snd c), snd (snd c))) chunks.
Proof.
  revert i; induction chunks as [|[ch [src dom]] chunks IH]; intros i; simpl;
    [reflexivity |].
  now rewrite IH.
Qed.

Lemma chunkDocs_meta (w : World) (docs : list Doc) :
  map (fun c => (fst c, fst (snd c), snd (snd c))) (chunkDocs w docs)
  = flat_map (fun d => map (fun ch => (ch, docSource d, docDomain d))
                           (chunkText w (docText d))) docs.
Proof.
  unfold chunkDocs. induction docs as [|d docs IH]; simpl; [reflexivity |].
  now rewrite map_app, IH, map_map.
Qed.

Lemma recordsFrom_embedding (i : nat) (chunks : list (string * (string * Domain)))
  (embeddings : list Vec.vec) :
  map Built.embedding (recordsFrom i chunks embeddings)
  = map (nth_error embeddings) (seq i (List.length chunks)).
Proof.
  revert i; induction chunks as [|[ch [src dom]] chunks IH]; intros i; simpl;
    [reflexivity |].
  now rewrite IH.
Qed.

Lemma nth_error_seq {A} (p l : list A) :
  map (nth_error (p ++ l)) (seq (List.length p) (List.length l)) = map Some l.
Proof.
  revert p; induction l as [|x l IH]; intros p; simpl; [reflexivity |].
  rewrite nth_error_app2, Nat.sub_diag by lia. simpl. f_equal.
  specialize (IH (p ++ [x])). rewrite <- app_assoc, length_app in IH.
  simpl in IH. now rewrite Nat.add_1_r in IH.
Qed.

Lemma embedLoop_pointwise (w : World) (f : string -> Vec.vec)
  (chunkTexts : list string) (iters : nat) :
  (forall texts, embeddingsCreate w texts = Some (map f texts)) ->
  forall i acc log,
  fst (embedLoop w iters i chunkTexts acc log)
  = Ok (acc ++ map (fun t => Vec.normalize (f t))
                   (List.concat (batchesFrom iters i chunkTexts))).
Proof.
  intros Hf. induction iters as [|n IH]; intros i acc log; simpl.
  - now rewrite app_nil_r.
  - unfold embedBatch, bind at 1, bind at 1, emit, orThrow. rewrite Hf.
    unfold bind, ret. rewrite IH.
    now rewrite map_app, app_assoc, map_map.
Qed.

(** X14. The records of a successful build are numbered [0, 1, 2, ...] in
    the order written, and they are the chunks of the documents in document
    order, each with the source and the domain of its document.  When the
    embeddings endpoint answers each text with a vector of its own, every
    record has an embedding: the normalized vector of its own text. *)
Theorem buildIndex_records (w : World) (x : Extractors) (log log' : list Event) :
  buildIndex w x log = (Ok tt, log') ->
  exists docs records,
    fst (loadDocuments w x log) = Ok docs /\
    In (EvWrite (cwd w ++ "/index/knowledge.index.json") records) log' /\
    map Built.id records = seq 0 (List.length records) /\
    map (fun r => (Built.text r, Built.source r, Built.domain r)) records
    = flat_map (fun d => map (fun ch => (ch, docSource d, docDomain d))
                             (chunkText w (docText d))) docs /\
    (forall f, (forall texts, embeddingsCreate w texts = Some (map f texts)) ->
       map Built.embedding records
       = map (fun r => Some (Vec.normalize (f (Built.text r)))) records).
Proof.
  intros H. apply buildIndex_ok in H.
  destruct H as (docs & embeddings & log1 & log2 & _ & Hdocs & Hloop & _ & ->).
  exists docs, (recordsFrom 0 (chunkDocs w docs) embeddings).
  split; [now rewrite Hdocs |].
  split; [apply in_or_app; right; now left |].
  split; [now rewrite recordsFrom_id, recordsFrom_length |].
  split; [now rewrite recordsFrom_meta, chunkDocs_meta |].
  intros f Hf.
  set (texts := map fst (chunkDocs w docs)) in *.
  pose proof (embedLoop_pointwise w f texts
                ((List.length texts + (BATCH - 1)) / BATCH) Hf 0 [] log1) as Hp.
  assert (He : Ok embeddings
               = Ok ([] ++ map (fun t => Vec.normalize (f t))
                       (List.concat
                          (batchesFrom ((List.length texts + (BATCH - 1)) / BATCH)
                             0 texts))))
    by (rewrite <- Hp, Hloop; reflexivity).
  injection He as ->.
  destruct (trip_count (List.length texts)) as [Hup _].
  rewrite batches_concat by (rewrite Nat.sub_0_r; exact Hup). cbn [skipn].
  rewrite recordsFrom_embedding.
  rewrite <- (map_map Built.text (fun t => Some (Vec.normalize (f t)))).
  rewrite recordsFrom_text. fold texts.
  rewrite <- (map_map (fun t => Vec.normalize (f t)) Some).
  replace (List.length (chunkDocs w docs))
    with (List.length (map (fun t => Vec.normalize (f t)) texts))
    by (unfold texts; now rewrite !length_map).
  apply (nth_error_seq []).
Qed.

Lemma buildIndex_records_witness :
  exists records,
    In (EvWrite "/srv/app/index/knowledge.index.json" records)
       (snd (buildIndex Sample.world More.extractors [])) /\
    map Built.id records = seq 0 (List.length records) /\
    map Built.embedding records
    = map (fun _ => Some (Vec.normalize Sample.query)) records.
Proof.
  destruct (buildIndex_records Sample.world More.extractors []
              (snd (buildIndex Sample.world More.extractors [])))
    as (docs & records & _ & Hin & Hid & _ & Hemb).
  - vm_compute. reflexivity.
  - exists records. split; [exact Hin |]. split; [exact Hid |].
    apply (Hemb (fun _ => Sample.query)). reflexivity.
Defined.

(** X15. A build that fails writes nothing: all it has done is read data
    files and then request embeddings.  Without the key it fails before any
    effect; when the documents do not load it fails as the loader did, with
    the loader's reads and no embedding request; and when the index file
    cannot be created it fails, whatever else goes right. *)
Theorem buildIndex_failure (w : World) (x : Extractors) (log : list Event) :
  (apiKeySet w = false -> exists msg, buildIndex w x log = (Throw msg, log)) /\
  (apiKeySet w = true ->
   forall msg, fst (loadDocuments w x log) = Throw msg ->
     buildIndex w x log = (Throw msg, snd (loadDocuments w x log))) /\
  (forall msg, fst (buildIndex w x log) = Throw msg ->
     exists paths batches,
       snd (buildIndex w x log) = log ++ map EvRead paths ++ map EvEmbed batches) /\
  (writable w (cwd w ++ "/index/knowledge.index.json") = false ->
   exists msg, fst (buildIndex w x log) = Throw msg).
Proof.
  rewrite buildIndex_steps. split; [| split; [| split]].
  - intros ->. cbn [negb]. eexists. reflexivity.
  - intros -> msg H. cbn [negb].
    destruct (loadDocuments w x log) as [[docs | m] log1]; cbn [fst snd] in *;
      congruence.
  - intros msg.
    destruct (apiKeySet w); cbn [negb].
    2: { intros _. exists [], []. cbn [snd map app]. now rewrite app_nil_r. }
    destruct (loadDocuments_reads w x log) as (ps & Hps & _).
    destruct (loadDocuments w x log) as [[docs | m] log1]; cbn [fst snd] in *;
      subst log1.
    2: { intros _. exists ps, []. cbn [map]. now rewrite app_nil_r. }
    cbv zeta.
    destruct (embedLoop_embeds w (map fst (chunkDocs w docs))
                ((List.length (map fst (chunkDocs w docs)) + (BATCH - 1)) / BATCH)
                0 [] (log ++ map EvRead ps)) as (batches & Hb).
    destruct (embedLoop w _ 0 (map fst (chunkDocs w docs)) [] (log ++ map EvRead ps))
      as [[embeddings | m] log2]; cbn [snd] in Hb; subst log2.
    + unfold writeFile.
      destruct (writable w (cwd w ++ "/index/knowledge.index.json"));
        [discriminate |].
      intros _. exists ps, batches. cbn [snd]. now rewrite <- app_assoc.
    + intros _. exists ps, batches. cbn [snd]. now rewrite <- app_assoc.
  - intros Hw.
    destruct (apiKeySet w); cbn [negb]; [| eexists; reflexivity].
    destruct (loadDocuments w x log) as [[docs | m] log1];
      [| eexists; reflexivity].
    cbv zeta.
    destruct (embedLoop w _ 0 (map fst (chunkDocs w docs)) [] log1)
      as [[embeddings | m] log2]; [| eexists; reflexivity].
    unfold writeFile. rewrite Hw. eexists. reflexivity.
Qed.

(** With the endpoint down the build stops at its first request; without the
    directory [index/] it stops at the write, the request made. *)
Lemma buildIndex_failure_witness :
  buildIndex More.offlineWorld More.extractors []
  = (Throw "embeddings request failed",
     [EvRead "/srv/app/data/resume.md";
      EvEmbed ["Led the migration of the checkout service to event sourcing."]]) /\
  buildIndex More.noIndexDirWorld More.extractors []
  = (Throw "ENOENT: no such file or directory",
     [EvRead "/srv/app/data/resume.md";
      EvEmbed ["Led the migration of the checkout service to event sourcing."]]) /\
  exists msg, fst (buildIndex More.noIndexDirWorld More.extractors []) = Throw msg.
Proof.
  split; [vm_compute; reflexivity |]. split; [vm_compute; reflexivity |].
  destruct (buildIndex_failure More.noIndexDirWorld More.extractors [])
    as (_ & _ & _ & H).
  apply H. reflexivity.
Defined.

(** X16. When no piece of the loaded documents is longer than 50 characters
    once trimmed, the build makes no embedding request: after loading the
    documents it writes the empty array as the index and succeeds, or fails
    at once when the index file cannot be created. *)
Theorem buildIndex_no_chunk (w : World) (x : Extractors) (log log1 : list Event)
  (docs : list Doc) :
  apiKeySet w = true -> loadDocuments w x log = (Ok docs, log1) ->
  (forall d piece, In d docs -> In piece (splitText w (docText d)) ->
     String.length (Str.trim piece) <= 50) ->
  buildIndex w x log
  = if writable w (cwd w ++ "/index/knowledge.index.json")
    then (Ok tt, log1 ++ [EvWrite (cwd w ++ "/index/knowledge.index.json") []])
    else (Throw "ENOENT: no such file or directory", log1).
Proof.
  intros Hkey Hdocs Hshort.
  assert (Hnone : chunkDocs w docs = []).
  { unfold chunkDocs. clear Hdocs.
    induction docs as [|d docs IH]; simpl; [reflexivity |].
    rewrite IH by (intros; eapply Hshort; simpl; eauto).
    rewrite app_nil_r. unfold chunkText. rewrite filter_none; [reflexivity |].
    intros c Hc. apply in_map_iff in Hc. destruct Hc as [piece [<- Hp]].
    apply Nat.ltb_ge. apply (Hshort d piece); simpl; auto. }
  unfold buildIndex. rewrite Hkey. cbn [negb]. unfold bind at 1.
  rewrite Hdocs, Hnone. cbn. unfold writeFile.
  destruct (writable w (cwd w ++ "/index/knowledge.index.json")); reflexivity.
Qed.

Lemma buildIndex_no_chunk_witness :
  buildIndex More.shortWorld More.extractors []
  = (Ok tt, [EvRead "/srv/app/data/bio.txt";
             EvWrite "/srv/app/index/knowledge.index.json" []]).
Proof.
  apply (buildIndex_no_chunk More.shortWorld More.extractors []
           [EvRead "/srv/app/data/bio.txt"]
           [mkDoc "I like hiking." "bio.txt" Personal] eq_refl).
  - vm_compute. reflexivity.
  - intros d piece [<- | []] [<- | []]. vm_compute. lia.
Defined.

(** ** The HTTP surface *)

(** A falsy body has no fields, like the empty object that replaces it. *)
Lemma getField_body (key : string) (body : JsValue) :
  getField key (if truthy body then body else JsObject []) = getField key body.
Proof.
  destruct body as [| | b | x | s | items | fields]; cbn [truthy];
    try reflexivity.
  - destruct b; reflexivity.
  - destruct (negb (Vec.falsy x)); reflexivity.
  - destruct (negb (Str.isEmpty s)); reflexivity.
Qed.

(** X18. The [/chat] handler always responds and never lets an error
    escape.  A body whose [question] is a non-empty string is answered by
    [answer] with that very string: status 200 with the question echoed and
    the output when [answer] returns, status 500 with the error message (or
    the default one when it is empty) when it throws; the effects are those
    of [answer].  Every other body gets status 400 and nothing is read or
    requested. *)
Theorem chatHandler_spec (w : World) (topK : nat) (body : JsValue)
  (log : list Event) :
  exists resp,
    fst (chatHandler w topK body log) = Ok resp /\
    (forall q, getField "question" body = JsString q -> q <> EmptyString ->
       snd (chatHandler w topK body log) = snd (answer w q topK log) /\
       match fst (answer w q topK log) with
       | Ok output => resp = mkResponse 200 (ReplyAnswer q output)
       | Throw msg =>
           status resp = 500 /\
           (msg <> EmptyString -> reply resp = ReplyError msg) /\
           (msg = EmptyString -> reply resp = ReplyError "Chat API failed")
       end) /\
    ((forall q, getField "question" body = JsString q -> q = EmptyString) ->
       resp = mkResponse 400 (ReplyError "question (string) is required") /\
       snd (chatHandler w topK body log) = log) /\
    (status resp = 400 <->
       forall q, getField "question" body = JsString q -> q = EmptyString).
Proof.
  unfold chatHandler. rewrite getField_body.
  destruct (getField "question" body) as [| | b | x | s | items | fields] eqn:Eq;
    cbn [truthy isString negb orb andb];
    try (rewrite ?orb_true_r; eexists; split; [reflexivity |];
         split; [intros q [=] |];
         split; [intros _; split; reflexivity |];
         split; [intros _ q [=] | reflexivity]).
  destruct s as [|c s]; cbn [Str.isEmpty negb orb].
  - eexists. split; [reflexivity |].
    split; [intros q [= <-] Hne; congruence |].
    split; [intros _; split; reflexivity |].
    split; [intros _ q [= <-]; reflexivity | reflexivity].
  - destruct (answer w (String c s) topK log) as [[output | msg] log'] eqn:Ea;
      (eexists; split; [reflexivity |]); cbn [fst snd status reply].
    + split; [intros q [= <-] _; rewrite Ea; split; reflexivity |].
      split; [intros H; discriminate (H _ eq_refl) |].
      split; [discriminate | intros H; discriminate (H _ eq_refl)].
    + split.
      { intros q [= <-] _. rewrite Ea. cbn [fst snd].
        split; [reflexivity |]. split; [reflexivity |].
        split; [destruct msg; [congruence | reflexivity] | intros ->; reflexivity]. }
      split; [intros H; discriminate (H _ eq_refl) |].
      split; [discriminate | intros H; discriminate (H _ eq_refl)].
Qed.


